(** * Botan core primitives: AES T-table implementation, BigInt constant-time
      helpers, XMSS parameter sets and Ed448 point decoding/signatures.

    Shallow embedding of the C++ sources.  Machine integers are [Z] with the
    wrap-around written out ([u8], [u32], [u64]); byte strings and word
    vectors are [list Z]; C++ exceptions are the [Raise] outcome. *)

From Stdlib Require Import ZArith List Lia Bool Btauto Znumtheory Zpow_facts Ring Field Zmod.
From coqutil Require Z.PushPullMod.
From Bignums Require BigZ.
From stdpp Require Import base gmap strings list.
Import ListNotations.

Local Open Scope Z_scope.

(** ** Outcomes of a call: a value, a thrown exception, or a loop that does
       not terminate. *)

Inductive exception : Type :=
  | Invalid_Argument
  | Unsupported_Argument
  | Decoding_Error
  | Encoding_Error
  | Internal_Error
  | Std_out_of_range.

Inductive outcome (A : Type) : Type :=
  | Done (a : A)
  | Raise (e : exception)
  | Hang.

Arguments Done {A} a.
Arguments Raise {A} e.
Arguments Hang {A}.

Instance outcome_ret : MRet outcome := fun A a => Done a.

Instance outcome_bind : MBind outcome := fun A B k m =>
  match m with
  | Done a => k a
  | Raise e => Raise e
  | Hang => Hang
  end.

(** BOTAN_ASSERT / BOTAN_ASSERT_NOMSG: a failed assertion throws Internal_Error. *)
Definition BOTAN_ASSERT (b : bool) : outcome unit :=
  if b then Done tt else Raise Internal_Error.

(** BOTAN_ARG_CHECK: a failed argument check throws Invalid_Argument. *)
Definition BOTAN_ARG_CHECK (b : bool) : outcome unit :=
  if b then Done tt else Raise Invalid_Argument.

(** ** Fixed-width integers *)

Definition u8 (x : Z) : Z := x mod 2 ^ 8.
Definition u32 (x : Z) : Z := x mod 2 ^ 32.
Definition u64 (x : Z) : Z := x mod 2 ^ 64.

Definition is_u8 (x : Z) : Prop := 0 <= x < 2 ^ 8.
Definition is_u32 (x : Z) : Prop := 0 <= x < 2 ^ 32.
Definition is_u64 (x : Z) : Prop := 0 <= x < 2 ^ 64.

Definition is_u8b (x : Z) : bool := (0 <=? x) && (x <? 2 ^ 8).

(** Array read [a[i]]. *)
Definition at_ (a : list Z) (i : nat) : Z := nth i a 0.

(** The indices visited by [for(i = from; i < to; i += step)], [step > 0]. *)
Definition range_step (from to step : nat) : list nat :=
  map (fun k => (from + k * step)%nat) (seq 0 ((to - from + step - 1) / step)).

(** Modelled from the spec: the fixed-width load/store and rotation helpers
    (loadstor.h, rotate.h, bit_ops.h are not among the sources).  [get_byte n x]
    is byte [n] of the 32-bit word [x] counted from the most significant one,
    [make_uint32] assembles a big-endian word, [load_be]/[store_be] are the
    big-endian state load and store, [rotr]/[rotl] rotate a 32-bit word, and
    [bit_permute_step] is the delta swap its call sites describe. *)
Definition get_byte (n : nat) (x : Z) : Z :=
  u8 (Z.shiftr x (8 * (3 - Z.of_nat n))).

Definition make_uint32 (i0 i1 i2 i3 : Z) : Z :=
  Z.lor (Z.lor (Z.lor (u32 (Z.shiftl i0 24)) (u32 (Z.shiftl i1 16)))
               (u32 (Z.shiftl i2 8))) i3.

Definition rotr (n : Z) (x : Z) : Z :=
  Z.lor (Z.shiftr x n) (u32 (Z.shiftl x (32 - n))).

Definition rotl (n : Z) (x : Z) : Z :=
  Z.lor (u32 (Z.shiftl x n)) (Z.shiftr x (32 - n)).

Definition load_be (inp : list Z) (off : nat) : Z :=
  make_uint32 (at_ inp (4 * off)) (at_ inp (4 * off + 1))
              (at_ inp (4 * off + 2)) (at_ inp (4 * off + 3)).

Definition store_be (w : Z) : list Z :=
  [get_byte 0 w; get_byte 1 w; get_byte 2 w; get_byte 3 w].

Definition bit_permute_step (x mask shift : Z) : Z :=
  let swap := Z.land (Z.lxor (Z.shiftr x shift) x) mask in
  Z.lxor (Z.lxor x swap) (u32 (Z.shiftl swap shift)).

(** Modelled from the spec: the constant-time primitives of ct_utils.h (not
    among the sources), for a word of [w] bits: [expand_mask] widens a
    boolean to 0 / all-ones, [is_equal] returns all-ones on equal arguments
    and 0 otherwise, [select mask a b] is [(a & mask) | (b & ~mask)]. *)
Module CT.

Definition all_ones (w : Z) : Z := 2 ^ w - 1.

Definition lnot_w (w : Z) (x : Z) : Z := (Z.lnot x) mod 2 ^ w.

Definition expand_mask (w : Z) (p : bool) : Z :=
  if p then all_ones w else 0.

Definition is_zero (w : Z) (x : Z) : Z :=
  if x =? 0 then all_ones w else 0.

Definition is_equal (w : Z) (x y : Z) : Z := is_zero w (Z.lxor x y).

Definition select (w : Z) (mask a b : Z) : Z :=
  Z.lor (Z.land a mask) (Z.land b (lnot_w w mask)).

End CT.

(** ** AES (src/lib/block/aes/aes.cpp) *)

Module AES.

Definition SE : list Z :=
  [
   0x63; 0x7c; 0x77; 0x7b; 0xf2; 0x6b; 0x6f; 0xc5; 0x30; 0x01; 0x67; 0x2b;
   0xfe; 0xd7; 0xab; 0x76; 0xca; 0x82; 0xc9; 0x7d; 0xfa; 0x59; 0x47; 0xf0;
   0xad; 0xd4; 0xa2; 0xaf; 0x9c; 0xa4; 0x72; 0xc0; 0xb7; 0xfd; 0x93; 0x26;
   0x36; 0x3f; 0xf7; 0xcc; 0x34; 0xa5; 0xe5; 0xf1; 0x71; 0xd8; 0x31; 0x15;
   0x04; 0xc7; 0x23; 0xc3; 0x18; 0x96; 0x05; 0x9a; 0x07; 0x12; 0x80; 0xe2;
   0xeb; 0x27; 0xb2; 0x75; 0x09; 0x83; 0x2c; 0x1a; 0x1b; 0x6e; 0x5a; 0xa0;
   0x52; 0x3b; 0xd6; 0xb3; 0x29; 0xe3; 0x2f; 0x84; 0x53; 0xd1; 0x00; 0xed;
   0x20; 0xfc; 0xb1; 0x5b; 0x6a; 0xcb; 0xbe; 0x39; 0x4a; 0x4c; 0x58; 0xcf;
   0xd0; 0xef; 0xaa; 0xfb; 0x43; 0x4d; 0x33; 0x85; 0x45; 0xf9; 0x02; 0x7f;
   0x50; 0x3c; 0x9f; 0xa8; 0x51; 0xa3; 0x40; 0x8f; 0x92; 0x9d; 0x38; 0xf5;
   0xbc; 0xb6; 0xda; 0x21; 0x10; 0xff; 0xf3; 0xd2; 0xcd; 0x0c; 0x13; 0xec;
   0x5f; 0x97; 0x44; 0x17; 0xc4; 0xa7; 0x7e; 0x3d; 0x64; 0x5d; 0x19; 0x73;
   0x60; 0x81; 0x4f; 0xdc; 0x22; 0x2a; 0x90; 0x88; 0x46; 0xee; 0xb8; 0x14;
   0xde; 0x5e; 0x0b; 0xdb; 0xe0; 0x32; 0x3a; 0x0a; 0x49; 0x06; 0x24; 0x5c;
   0xc2; 0xd3; 0xac; 0x62; 0x91; 0x95; 0xe4; 0x79; 0xe7; 0xc8; 0x37; 0x6d;
   0x8d; 0xd5; 0x4e; 0xa9; 0x6c; 0x56; 0xf4; 0xea; 0x65; 0x7a; 0xae; 0x08;
   0xba; 0x78; 0x25; 0x2e; 0x1c; 0xa6; 0xb4; 0xc6; 0xe8; 0xdd; 0x74; 0x1f;
   0x4b; 0xbd; 0x8b; 0x8a; 0x70; 0x3e; 0xb5; 0x66; 0x48; 0x03; 0xf6; 0x0e;
   0x61; 0x35; 0x57; 0xb9; 0x86; 0xc1; 0x1d; 0x9e; 0xe1; 0xf8; 0x98; 0x11;
   0x69; 0xd9; 0x8e; 0x94; 0x9b; 0x1e; 0x87; 0xe9; 0xce; 0x55; 0x28; 0xdf;
   0x8c; 0xa1; 0x89; 0x0d; 0xbf; 0xe6; 0x42; 0x68; 0x41; 0x99; 0x2d; 0x0f;
   0xb0; 0x54; 0xbb; 0x16 ].

Definition SD : list Z :=
  [
   0x52; 0x09; 0x6a; 0xd5; 0x30; 0x36; 0xa5; 0x38; 0xbf; 0x40; 0xa3; 0x9e;
   0x81; 0xf3; 0xd7; 0xfb; 0x7c; 0xe3; 0x39; 0x82; 0x9b; 0x2f; 0xff; 0x87;
   0x34; 0x8e; 0x43; 0x44; 0xc4; 0xde; 0xe9; 0xcb; 0x54; 0x7b; 0x94; 0x32;
   0xa6; 0xc2; 0x23; 0x3d; 0xee; 0x4c; 0x95; 0x0b; 0x42; 0xfa; 0xc3; 0x4e;
   0x08; 0x2e; 0xa1; 0x66; 0x28; 0xd9; 0x24; 0xb2; 0x76; 0x5b; 0xa2; 0x49;
   0x6d; 0x8b; 0xd1; 0x25; 0x72; 0xf8; 0xf6; 0x64; 0x86; 0x68; 0x98; 0x16;
   0xd4; 0xa4; 0x5c; 0xcc; 0x5d; 0x65; 0xb6; 0x92; 0x6c; 0x70; 0x48; 0x50;
   0xfd; 0xed; 0xb9; 0xda; 0x5e; 0x15; 0x46; 0x57; 0xa7; 0x8d; 0x9d; 0x84;
   0x90; 0xd8; 0xab; 0x00; 0x8c; 0xbc; 0xd3; 0x0a; 0xf7; 0xe4; 0x58; 0x05;
   0xb8; 0xb3; 0x45; 0x06; 0xd0; 0x2c; 0x1e; 0x8f; 0xca; 0x3f; 0x0f; 0x02;
   0xc1; 0xaf; 0xbd; 0x03; 0x01; 0x13; 0x8a; 0x6b; 0x3a; 0x91; 0x11; 0x41;
   0x4f; 0x67; 0xdc; 0xea; 0x97; 0xf2; 0xcf; 0xce; 0xf0; 0xb4; 0xe6; 0x73;
   0x96; 0xac; 0x74; 0x22; 0xe7; 0xad; 0x35; 0x85; 0xe2; 0xf9; 0x37; 0xe8;
   0x1c; 0x75; 0xdf; 0x6e; 0x47; 0xf1; 0x1a; 0x71; 0x1d; 0x29; 0xc5; 0x89;
   0x6f; 0xb7; 0x62; 0x0e; 0xaa; 0x18; 0xbe; 0x1b; 0xfc; 0x56; 0x3e; 0x4b;
   0xc6; 0xd2; 0x79; 0x20; 0x9a; 0xdb; 0xc0; 0xfe; 0x78; 0xcd; 0x5a; 0xf4;
   0x1f; 0xdd; 0xa8; 0x33; 0x88; 0x07; 0xc7; 0x31; 0xb1; 0x12; 0x10; 0x59;
   0x27; 0x80; 0xec; 0x5f; 0x60; 0x51; 0x7f; 0xa9; 0x19; 0xb5; 0x4a; 0x0d;
   0x2d; 0xe5; 0x7a; 0x9f; 0x93; 0xc9; 0x9c; 0xef; 0xa0; 0xe0; 0x3b; 0x4d;
   0xae; 0x2a; 0xf5; 0xb0; 0xc8; 0xeb; 0xbb; 0x3c; 0x83; 0x53; 0x99; 0x61;
   0x17; 0x2b; 0x04; 0x7e; 0xba; 0x77; 0xd6; 0x26; 0xe1; 0x69; 0x14; 0x63;
   0x55; 0x21; 0x0c; 0x7d ].

(** Table read [T[i]] with a byte index. *)
Definition tab (T : list Z) (i : Z) : Z := nth (Z.to_nat i) T 0.

Definition xtime (s : Z) : Z :=
  u8 (Z.lxor (u8 (Z.shiftl s 1)) (Z.shiftr s 7 * 0x1B)).

Definition xtime3 (s : Z) : Z := u8 (Z.lxor (xtime s) s).

Definition InvMixColumn (s1 : Z) : Z :=
  let s2 := xtime s1 in
  let s4 := xtime s2 in
  let s8 := xtime s4 in
  let s9 := u8 (Z.lxor s8 s1) in
  let s11 := u8 (Z.lxor s9 s2) in
  let s13 := u8 (Z.lxor s9 s4) in
  let s14 := u8 (Z.lxor (Z.lxor s8 s4) s2) in
  make_uint32 s14 s9 s13 s11.

(** The bitsliced S-box circuit of Boyar and Peralta on eight 32-bit words. *)
Definition AES_SBOX (V : Z * Z * Z * Z * Z * Z * Z * Z)
  : Z * Z * Z * Z * Z * Z * Z * Z :=
  let '(I0, I1, I2, I3, I4, I5, I6, I7) := V in
  let T1 := Z.lxor I0 I3 in
  let T2 := Z.lxor I0 I5 in
  let T3 := Z.lxor I0 I6 in
  let T4 := Z.lxor I3 I5 in
  let T5 := Z.lxor I4 I6 in
  let T6 := Z.lxor T1 T5 in
  let T7 := Z.lxor I1 I2 in
  let T8 := Z.lxor I7 T6 in
  let T9 := Z.lxor I7 T7 in
  let T10 := Z.lxor T6 T7 in
  let T11 := Z.lxor I1 I5 in
  let T12 := Z.lxor I2 I5 in
  let T13 := Z.lxor T3 T4 in
  let T14 := Z.lxor T6 T11 in
  let T15 := Z.lxor T5 T11 in
  let T16 := Z.lxor T5 T12 in
  let T17 := Z.lxor T9 T16 in
  let T18 := Z.lxor I3 I7 in
  let T19 := Z.lxor T7 T18 in
  let T20 := Z.lxor T1 T19 in
  let T21 := Z.lxor I6 I7 in
  let T22 := Z.lxor T7 T21 in
  let T23 := Z.lxor T2 T22 in
  let T24 := Z.lxor T2 T10 in
  let T25 := Z.lxor T20 T17 in
  let T26 := Z.lxor T3 T16 in
  let T27 := Z.lxor T1 T12 in
  let D := I7 in
  let M1 := Z.land T13 T6 in
  let M2 := Z.land T23 T8 in
  let M3 := Z.lxor T14 M1 in
  let M4 := Z.land T19 D in
  let M5 := Z.lxor M4 M1 in
  let M6 := Z.land T3 T16 in
  let M7 := Z.land T22 T9 in
  let M8 := Z.lxor T26 M6 in
  let M9 := Z.land T20 T17 in
  let M10 := Z.lxor M9 M6 in
  let M11 := Z.land T1 T15 in
  let M12 := Z.land T4 T27 in
  let M13 := Z.lxor M12 M11 in
  let M14 := Z.land T2 T10 in
  let M15 := Z.lxor M14 M11 in
  let M16 := Z.lxor M3 M2 in
  let M17 := Z.lxor M5 T24 in
  let M18 := Z.lxor M8 M7 in
  let M19 := Z.lxor M10 M15 in
  let M20 := Z.lxor M16 M13 in
  let M21 := Z.lxor M17 M15 in
  let M22 := Z.lxor M18 M13 in
  let M23 := Z.lxor M19 T25 in
  let M24 := Z.lxor M22 M23 in
  let M25 := Z.land M22 M20 in
  let M26 := Z.lxor M21 M25 in
  let M27 := Z.lxor M20 M21 in
  let M28 := Z.lxor M23 M25 in
  let M29 := Z.land M28 M27 in
  let M30 := Z.land M26 M24 in
  let M31 := Z.land M20 M23 in
  let M32 := Z.land M27 M31 in
  let M33 := Z.lxor M27 M25 in
  let M34 := Z.land M21 M22 in
  let M35 := Z.land M24 M34 in
  let M36 := Z.lxor M24 M25 in
  let M37 := Z.lxor M21 M29 in
  let M38 := Z.lxor M32 M33 in
  let M39 := Z.lxor M23 M30 in
  let M40 := Z.lxor M35 M36 in
  let M41 := Z.lxor M38 M40 in
  let M42 := Z.lxor M37 M39 in
  let M43 := Z.lxor M37 M38 in
  let M44 := Z.lxor M39 M40 in
  let M45 := Z.lxor M42 M41 in
  let M46 := Z.land M44 T6 in
  let M47 := Z.land M40 T8 in
  let M48 := Z.land M39 D in
  let M49 := Z.land M43 T16 in
  let M50 := Z.land M38 T9 in
  let M51 := Z.land M37 T17 in
  let M52 := Z.land M42 T15 in
  let M53 := Z.land M45 T27 in
  let M54 := Z.land M41 T10 in
  let M55 := Z.land M44 T13 in
  let M56 := Z.land M40 T23 in
  let M57 := Z.land M39 T19 in
  let M58 := Z.land M43 T3 in
  let M59 := Z.land M38 T22 in
  let M60 := Z.land M37 T20 in
  let M61 := Z.land M42 T1 in
  let M62 := Z.land M45 T4 in
  let M63 := Z.land M41 T2 in
  let L0 := Z.lxor M61 M62 in
  let L1 := Z.lxor M50 M56 in
  let L2 := Z.lxor M46 M48 in
  let L3 := Z.lxor M47 M55 in
  let L4 := Z.lxor M54 M58 in
  let L5 := Z.lxor M49 M61 in
  let L6 := Z.lxor M62 L5 in
  let L7 := Z.lxor M46 L3 in
  let L8 := Z.lxor M51 M59 in
  let L9 := Z.lxor M52 M53 in
  let L10 := Z.lxor M53 L4 in
  let L11 := Z.lxor M60 L2 in
  let L12 := Z.lxor M48 M51 in
  let L13 := Z.lxor M50 L0 in
  let L14 := Z.lxor M52 M61 in
  let L15 := Z.lxor M55 L1 in
  let L16 := Z.lxor M56 L0 in
  let L17 := Z.lxor M57 L1 in
  let L18 := Z.lxor M58 L8 in
  let L19 := Z.lxor M63 L4 in
  let L20 := Z.lxor L0 L1 in
  let L21 := Z.lxor L1 L7 in
  let L22 := Z.lxor L3 L12 in
  let L23 := Z.lxor L18 L2 in
  let L24 := Z.lxor L15 L9 in
  let L25 := Z.lxor L6 L10 in
  let L26 := Z.lxor L7 L9 in
  let L27 := Z.lxor L8 L10 in
  let L28 := Z.lxor L11 L14 in
  let L29 := Z.lxor L11 L17 in
  let S0 := Z.lxor L6 L24 in
  let S1 := u32 (Z.lnot (Z.lxor L16 L26)) in
  let S2 := u32 (Z.lnot (Z.lxor L19 L28)) in
  let S3 := Z.lxor L6 L21 in
  let S4 := Z.lxor L20 L22 in
  let S5 := Z.lxor L25 L29 in
  let S6 := u32 (Z.lnot (Z.lxor L13 L27)) in
  let S7 := u32 (Z.lnot (Z.lxor L6 L23)) in
  (S0, S1, S2, S3, S4, S5, S6, S7).

Definition SE_word (x : Z) : Z :=
  let x := bit_permute_step x 0x00aa00aa 7 in
  let x := bit_permute_step x 0x0000cccc 14 in
  let x := bit_permute_step x 0x00f000f0 4 in
  let x := bit_permute_step x 0x0000ff00 8 in
  let I := fun i : Z => Z.land (Z.shiftr x (28 - 4 * i)) 0xF in
  let '(S0, S1, S2, S3, S4, S5, S6, S7) :=
    AES_SBOX (I 0, I 1, I 2, I 3, I 4, I 5, I 6, I 7) in
  let x := fold_left (fun x Ii => u32 (u32 (Z.shiftl x 4) + Z.land Ii 0xF))
                     [S0; S1; S2; S3; S4; S5; S6; S7] 0 in
  let x := bit_permute_step x 0x0a0a0a0a 3 in
  let x := bit_permute_step x 0x00cc00cc 6 in
  let x := bit_permute_step x 0x0000f0f0 12 in
  let x := bit_permute_step x 0x0000ff00 8 in
  x.

(** The T-tables, computed at start-up from the S-boxes. *)
Definition AES_TE : list Z :=
  map (fun s => make_uint32 (xtime s) s s (xtime3 s)) SE.

Definition AES_TD : list Z := map InvMixColumn SD.

(** The macro AES_T. *)
Definition AES_T (T : list Z) (K V0 V1 V2 V3 : Z) : Z :=
  Z.lxor (Z.lxor (Z.lxor (Z.lxor K (tab T (get_byte 0 V0)))
                         (rotr 8 (tab T (get_byte 1 V1))))
                 (rotr 16 (tab T (get_byte 2 V2))))
         (rotr 24 (tab T (get_byte 3 V3))).

Definition state : Type := Z * Z * Z * Z.

(** Four AES_T lines of the encryption loop, with the key words [K[r..r+3]]. *)
Definition enc_round (K : list Z) (r : nat) (V : state) : state :=
  let '(V0, V1, V2, V3) := V in
  (AES_T AES_TE (at_ K r) V0 V1 V2 V3,
   AES_T AES_TE (at_ K (r + 1)) V1 V2 V3 V0,
   AES_T AES_TE (at_ K (r + 2)) V2 V3 V0 V1,
   AES_T AES_TE (at_ K (r + 3)) V3 V0 V1 V2).

(** Four AES_T lines of the decryption loop. *)
Definition dec_round (K : list Z) (r : nat) (V : state) : state :=
  let '(V0, V1, V2, V3) := V in
  (AES_T AES_TD (at_ K r) V0 V3 V2 V1,
   AES_T AES_TD (at_ K (r + 1)) V1 V0 V3 V2,
   AES_T AES_TD (at_ K (r + 2)) V2 V1 V0 V3,
   AES_T AES_TD (at_ K (r + 3)) V3 V2 V1 V0).

(** The cache sweep of aes_encrypt_n: every cache line of TE is read into
    the accumulator, which is then masked with TE[82]. *)
Definition sweep_TE (cache_line_size : nat) : Z :=
  let Zacc := fold_left (fun Zacc i => Z.lor Zacc (at_ AES_TE i))
                        (range_step 0 256 (cache_line_size / 4)) 0 in
  Z.land Zacc (at_ AES_TE 82).

(** The cache sweep of aes_decrypt_n over TD and SD, masked with TD[99]. *)
Definition sweep_TD (cache_line_size : nat) : Z :=
  let Zacc := fold_left (fun Zacc i => Z.lor Zacc (at_ AES_TD i))
                        (range_step 0 256 (cache_line_size / 4)) 0 in
  let Zacc := fold_left (fun Zacc i => Z.lor Zacc (at_ SD i))
                        (range_step 0 256 cache_line_size) Zacc in
  Z.land Zacc (at_ AES_TD 99).

(** One iteration of the block loop of aes_encrypt_n, for block [i] of [inp]
    and the accumulator [Zacc]. *)
Definition aes_encrypt_block (Zacc : Z) (EK ME inp : list Z) (i : nat) : list Z :=
  let blk := drop (16 * i) inp in
  let T0 := Z.lxor (load_be blk 0) (at_ EK 0) in
  let T1 := Z.lxor (load_be blk 1) (at_ EK 1) in
  let T2 := Z.lxor (load_be blk 2) (at_ EK 2) in
  let T3 := Z.lxor (load_be blk 3) (at_ EK 3) in
  let T0 := Z.lxor T0 Zacc in
  let B := enc_round EK 4 (T0, T1, T2, T3) in
  let '(B0, B1, B2, B3) :=
    fold_left (fun B r => enc_round EK (r + 4) (enc_round EK r B))
              (range_step 8 (length EK) 8) B in
  let S := fun n V => u8 (Z.shiftr (tab AES_TE (get_byte n V)) 8) in
  [ Z.lxor (S 0%nat B0) (at_ ME 0);  Z.lxor (S 1%nat B1) (at_ ME 1);
    Z.lxor (S 2%nat B2) (at_ ME 2);  Z.lxor (S 3%nat B3) (at_ ME 3);
    Z.lxor (S 0%nat B1) (at_ ME 4);  Z.lxor (S 1%nat B2) (at_ ME 5);
    Z.lxor (S 2%nat B3) (at_ ME 6);  Z.lxor (S 3%nat B0) (at_ ME 7);
    Z.lxor (S 0%nat B2) (at_ ME 8);  Z.lxor (S 1%nat B3) (at_ ME 9);
    Z.lxor (S 2%nat B0) (at_ ME 10); Z.lxor (S 3%nat B1) (at_ ME 11);
    Z.lxor (S 0%nat B3) (at_ ME 12); Z.lxor (S 1%nat B0) (at_ ME 13);
    Z.lxor (S 2%nat B1) (at_ ME 14); Z.lxor (S 3%nat B2) (at_ ME 15) ].

(** The block loop of aes_encrypt_n with the accumulator value [Zacc]. *)
Definition aes_encrypt_blocks (Zacc : Z) (inp : list Z) (blocks : nat)
    (EK ME : list Z) : list Z :=
  flat_map (aes_encrypt_block Zacc EK ME inp) (seq 0 blocks).

(** aes_encrypt_n.  [cache_line_size] is the value of CPUID::cache_line_size();
    a sweep step of zero words never leaves the sweep loop. *)
Definition aes_encrypt_n (cache_line_size : nat) (inp : list Z) (blocks : nat)
    (EK ME : list Z) : outcome (list Z) :=
  _ ← BOTAN_ASSERT (negb (length EK =? 0)%nat && (length ME =? 16)%nat);
  if (cache_line_size / 4 =? 0)%nat then Hang
  else Done (aes_encrypt_blocks (sweep_TE cache_line_size) inp blocks EK ME).

(** One iteration of the block loop of aes_decrypt_n. *)
Definition aes_decrypt_block (Zacc : Z) (DK MD inp : list Z) (i : nat) : list Z :=
  let blk := drop (16 * i) inp in
  let T0 := Z.lxor (load_be blk 0) (at_ DK 0) in
  let T1 := Z.lxor (load_be blk 1) (at_ DK 1) in
  let T2 := Z.lxor (load_be blk 2) (at_ DK 2) in
  let T3 := Z.lxor (load_be blk 3) (at_ DK 3) in
  let T0 := Z.lxor T0 Zacc in
  let B := dec_round DK 4 (T0, T1, T2, T3) in
  let '(B0, B1, B2, B3) :=
    fold_left (fun B r => dec_round DK (r + 4) (dec_round DK r B))
              (range_step 8 (length DK) 8) B in
  let S := fun n V => tab SD (get_byte n V) in
  [ Z.lxor (S 0%nat B0) (at_ MD 0);  Z.lxor (S 1%nat B3) (at_ MD 1);
    Z.lxor (S 2%nat B2) (at_ MD 2);  Z.lxor (S 3%nat B1) (at_ MD 3);
    Z.lxor (S 0%nat B1) (at_ MD 4);  Z.lxor (S 1%nat B0) (at_ MD 5);
    Z.lxor (S 2%nat B3) (at_ MD 6);  Z.lxor (S 3%nat B2) (at_ MD 7);
    Z.lxor (S 0%nat B2) (at_ MD 8);  Z.lxor (S 1%nat B1) (at_ MD 9);
    Z.lxor (S 2%nat B0) (at_ MD 10); Z.lxor (S 3%nat B3) (at_ MD 11);
    Z.lxor (S 0%nat B3) (at_ MD 12); Z.lxor (S 1%nat B2) (at_ MD 13);
    Z.lxor (S 2%nat B1) (at_ MD 14); Z.lxor (S 3%nat B0) (at_ MD 15) ].

Definition aes_decrypt_blocks (Zacc : Z) (inp : list Z) (blocks : nat)
    (DK MD : list Z) : list Z :=
  flat_map (aes_decrypt_block Zacc DK MD inp) (seq 0 blocks).

Definition aes_decrypt_n (cache_line_size : nat) (inp : list Z) (blocks : nat)
    (DK MD : list Z) : outcome (list Z) :=
  _ ← BOTAN_ASSERT (negb (length DK =? 0)%nat && (length MD =? 16)%nat);
  if (cache_line_size / 4 =? 0)%nat then Hang
  else Done (aes_decrypt_blocks (sweep_TD cache_line_size) inp blocks DK MD).

Definition RC : list Z :=
  [ 0x01000000; 0x02000000; 0x04000000; 0x08000000; 0x10000000;
    0x20000000; 0x40000000; 0x80000000; 0x1B000000; 0x36000000 ].

Definition reverse_bytes (x : Z) : Z :=
  make_uint32 (get_byte 3 x) (get_byte 2 x) (get_byte 1 x) (get_byte 0 x).

(** The InvMixColumn step applied to a word of the decryption schedule. *)
Definition imc_word (w : Z) : Z :=
  let s0 := get_byte 0 w in
  let s1 := get_byte 1 w in
  let s2 := get_byte 2 w in
  let s3 := get_byte 3 w in
  Z.lxor (Z.lxor (Z.lxor (InvMixColumn s0) (rotr 8 (InvMixColumn s1)))
                 (rotr 16 (InvMixColumn s2)))
         (rotr 24 (InvMixColumn s3)).

Record key_schedule : Type := KeySchedule {
  EK : list Z;
  DK : list Z;
  ME : list Z;
  MD : list Z
}.

(** The expansion loop of the key schedule over XEK. *)
Definition expand_key (X rounds : nat) (XEK : list Z) : list Z :=
  fold_left
    (fun (XEK : list Z) i =>
       let XEK := <[ i := Z.lxor (Z.lxor (at_ XEK (i - X)) (at_ RC ((i - X) / X)))
                               (rotl 8 (SE_word (at_ XEK (i - 1)))) ]> XEK in
       fold_left
         (fun (XEK : list Z) j =>
            let XEK := <[ (i + j)%nat := at_ XEK (i + j - X) ]> XEK in
            if (X =? 8)%nat && (j =? 4)%nat
            then <[ (i + j)%nat := Z.lxor (at_ XEK (i + j)) (SE_word (at_ XEK (i + j - 1))) ]> XEK
            else <[ (i + j)%nat := Z.lxor (at_ XEK (i + j)) (at_ XEK (i + j - 1)) ]> XEK)
         (seq 1 (X - 1)) XEK)
    (range_step X (4 * (rounds + 1)) X) XEK.

(** The loop that fills XDK with the round keys in reverse order. *)
Definition reverse_keys (rounds : nat) (XEK XDK : list Z) : list Z :=
  fold_left
    (fun (XDK : list Z) i =>
       let XDK := <[ i := at_ XEK (4 * rounds - i) ]> XDK in
       let XDK := <[ (i + 1)%nat := at_ XEK (4 * rounds - i + 1) ]> XDK in
       let XDK := <[ (i + 2)%nat := at_ XEK (4 * rounds - i + 2) ]> XDK in
       <[ (i + 3)%nat := at_ XEK (4 * rounds - i + 3) ]> XDK)
    (range_step 0 (4 * (rounds + 1)) 4) XDK.

(** The loop that applies InvMixColumn to XDK[4 .. length+24). *)
Definition imc_keys (len : nat) (XDK : list Z) : list Z :=
  fold_left (fun (XDK : list Z) i => <[ i := imc_word (at_ XDK i) ]> XDK)
            (seq 4 (len + 24 - 4)) XDK.

(** aes_key_schedule.  [arm_aes] stands for BOTAN_HAS_AES_ARMV8 being defined
    and CPUID::has_arm_aes() holding; the T-table code runs when it does not. *)
Definition aes_key_schedule (arm_aes : bool) (key : list Z) : outcome key_schedule :=
  let len := length key in
  let X := (len / 4)%nat in
  _ ← BOTAN_ASSERT ((X =? 4)%nat || (X =? 6)%nat || (X =? 8)%nat);
  let rounds := (len / 4 + 6)%nat in
  let XEK := replicate (len + 32) 0 in
  let XDK := replicate (len + 32) 0 in
  let XEK := fold_left (fun (XEK : list Z) i => <[ i := load_be key i ]> XEK)
                       (seq 0 X) XEK in
  let XEK := expand_key X rounds XEK in
  let XDK := reverse_keys rounds XEK XDK in
  let XDK := imc_keys len XDK in
  let ME := flat_map (fun i => store_be (at_ XEK (i + 4 * rounds))) (seq 0 4) in
  let MD := flat_map (fun i => store_be (at_ XEK i)) (seq 0 4) in
  let EK := take (len + 24) XEK in
  let DK := take (len + 24) XDK in
  let EK := if arm_aes then map reverse_bytes EK else EK in
  let DK := if arm_aes then map reverse_bytes DK else DK in
  Done (KeySchedule EK DK ME MD).

End AES.

(** * Facts about the fixed-width helpers *)

Module Bits.

Lemma u8_range x : is_u8 (u8 x).
Proof. unfold is_u8, u8. apply Z.mod_pos_bound. lia. Qed.

Lemma u8_id x : is_u8 x -> u8 x = x.
Proof. unfold is_u8, u8. intros. apply Z.mod_small. lia. Qed.

Lemma u8_lxor a b : u8 (Z.lxor a b) = Z.lxor (u8 a) (u8 b).
Proof.
  unfold u8. apply Z.bits_inj'. intros n Hn.
  rewrite Z.lxor_spec, !Z.testbit_mod_pow2, Z.lxor_spec by lia.
  destruct (n <? 8); reflexivity.
Qed.

Lemma lxor_u8 a b : is_u8 a -> is_u8 b -> is_u8 (Z.lxor a b).
Proof.
  intros Ha Hb. rewrite <- (u8_id a Ha), <- (u8_id b Hb), <- u8_lxor.
  apply u8_range.
Qed.

Lemma get_byte_range n x : is_u8 (get_byte n x).
Proof. apply u8_range. Qed.

Lemma get_byte_lxor n a b :
  get_byte n (Z.lxor a b) = Z.lxor (get_byte n a) (get_byte n b).
Proof. unfold get_byte. rewrite Z.shiftr_lxor. apply u8_lxor. Qed.

Lemma land_disjoint a b k :
  0 <= k -> 0 <= b < 2 ^ k -> Z.land (a * 2 ^ k) b = 0.
Proof.
  intros Hk Hb. apply Z.bits_inj'. intros n Hn.
  rewrite Z.land_spec, Z.bits_0.
  destruct (Z.lt_ge_cases n k) as [Hlt|Hge].
  - rewrite (Z.mul_pow2_bits_low a k n) by lia. reflexivity.
  - destruct (Z.eq_dec b 0) as [-> | Hne].
    + rewrite Z.bits_0. apply andb_false_r.
    + rewrite (Z.bits_above_log2 b n), andb_false_r; try reflexivity; try lia.
      apply Z.lt_le_trans with k; [apply Z.log2_lt_pow2; lia | lia].
Qed.

Lemma lor_disjoint_add a b k :
  0 <= k -> 0 <= b < 2 ^ k -> Z.lor (a * 2 ^ k) b = a * 2 ^ k + b.
Proof.
  intros Hk Hb. pose proof (land_disjoint a b k Hk Hb) as H.
  rewrite <- (Z.lxor_lor _ _ H). symmetry. apply Z.add_nocarry_lxor, H.
Qed.

Ltac pow2 :=
  change (2 ^ 8) with 256 in *; change (2 ^ 16) with 65536 in *;
  change (2 ^ 24) with 16777216 in *; change (2 ^ 32) with 4294967296 in *.

Lemma make_uint32_sum b0 b1 b2 b3 :
  is_u8 b0 -> is_u8 b1 -> is_u8 b2 -> is_u8 b3 ->
  make_uint32 b0 b1 b2 b3 = b0 * 2 ^ 24 + b1 * 2 ^ 16 + b2 * 2 ^ 8 + b3.
Proof.
  unfold is_u8, make_uint32, u32. intros H0 H1 H2 H3.
  rewrite !Z.shiftl_mul_pow2 by lia.
  rewrite !Z.mod_small by (pow2; lia).
  rewrite (lor_disjoint_add b0 (b1 * 2 ^ 16) 24) by (pow2; lia).
  replace (b0 * 2 ^ 24 + b1 * 2 ^ 16) with ((b0 * 2 ^ 8 + b1) * 2 ^ 16) by (pow2; lia).
  rewrite (lor_disjoint_add _ (b2 * 2 ^ 8) 16) by (pow2; lia).
  replace ((b0 * 2 ^ 8 + b1) * 2 ^ 16 + b2 * 2 ^ 8)
    with ((b0 * 2 ^ 16 + b1 * 2 ^ 8 + b2) * 2 ^ 8) by (pow2; lia).
  rewrite lor_disjoint_add by (pow2; lia). pow2; lia.
Qed.

Lemma get_byte_make n b0 b1 b2 b3 :
  is_u8 b0 -> is_u8 b1 -> is_u8 b2 -> is_u8 b3 ->
  get_byte n (make_uint32 b0 b1 b2 b3) =
  match n with 0%nat => b0 | 1%nat => b1 | 2%nat => b2 | 3%nat => b3
  | _ => u8 (Z.shiftr (make_uint32 b0 b1 b2 b3) (8 * (3 - Z.of_nat n))) end.
Proof.
  intros H0 H1 H2 H3.
  destruct n as [|[|[|[|n]]]]; try reflexivity;
    unfold get_byte, u8; rewrite make_uint32_sum by assumption;
    rewrite Z.shiftr_div_pow2 by lia; unfold is_u8 in *;
    cbn [Z.of_nat Z.sub Z.mul Z.opp Z.add Pos.of_succ_nat Pos.succ Z.pos_sub Pos.mul Z.succ_double Z.pred_double Pos.pred_double Z.double];
    pow2; change (2 ^ 0) with 1; Z.div_mod_to_equations; lia.
Qed.

Lemma rotr8_make a b c d :
  is_u8 a -> is_u8 b -> is_u8 c -> is_u8 d ->
  rotr 8 (make_uint32 a b c d) = make_uint32 d a b c.
Proof.
  intros. unfold rotr, u32. rewrite !make_uint32_sum by assumption.
  rewrite Z.shiftr_div_pow2, Z.shiftl_mul_pow2 by lia.
  unfold is_u8 in *.
  change (32 - 8) with 24.
  replace ((a * 2 ^ 24 + b * 2 ^ 16 + c * 2 ^ 8 + d) / 2 ^ 8)
    with (a * 2 ^ 16 + b * 2 ^ 8 + c) by (pow2; Z.div_mod_to_equations; lia).
  replace (((a * 2 ^ 24 + b * 2 ^ 16 + c * 2 ^ 8 + d) * 2 ^ 24) mod 2 ^ 32)
    with (d * 2 ^ 24) by (pow2; Z.div_mod_to_equations; lia).
  rewrite Z.lor_comm, lor_disjoint_add by (pow2; lia). pow2; lia.
Qed.

Lemma rotr16_make a b c d :
  is_u8 a -> is_u8 b -> is_u8 c -> is_u8 d ->
  rotr 16 (make_uint32 a b c d) = make_uint32 c d a b.
Proof.
  intros. unfold rotr, u32. rewrite !make_uint32_sum by assumption.
  rewrite Z.shiftr_div_pow2, Z.shiftl_mul_pow2 by lia.
  unfold is_u8 in *.
  change (32 - 16) with 16.
  replace ((a * 2 ^ 24 + b * 2 ^ 16 + c * 2 ^ 8 + d) / 2 ^ 16)
    with (a * 2 ^ 8 + b) by (pow2; Z.div_mod_to_equations; lia).
  replace (((a * 2 ^ 24 + b * 2 ^ 16 + c * 2 ^ 8 + d) * 2 ^ 16) mod 2 ^ 32)
    with ((c * 2 ^ 8 + d) * 2 ^ 16) by (pow2; Z.div_mod_to_equations; lia).
  rewrite Z.lor_comm, lor_disjoint_add by (pow2; lia). pow2; lia.
Qed.

Lemma rotr24_make a b c d :
  is_u8 a -> is_u8 b -> is_u8 c -> is_u8 d ->
  rotr 24 (make_uint32 a b c d) = make_uint32 b c d a.
Proof.
  intros. unfold rotr, u32. rewrite !make_uint32_sum by assumption.
  rewrite Z.shiftr_div_pow2, Z.shiftl_mul_pow2 by lia.
  unfold is_u8 in *.
  change (32 - 24) with 8.
  replace ((a * 2 ^ 24 + b * 2 ^ 16 + c * 2 ^ 8 + d) / 2 ^ 24)
    with a by (pow2; Z.div_mod_to_equations; lia).
  replace (((a * 2 ^ 24 + b * 2 ^ 16 + c * 2 ^ 8 + d) * 2 ^ 8) mod 2 ^ 32)
    with ((b * 2 ^ 16 + c * 2 ^ 8 + d) * 2 ^ 8) by (pow2; Z.div_mod_to_equations; lia).
  rewrite Z.lor_comm, lor_disjoint_add by (pow2; lia). pow2; lia.
Qed.

End Bits.

(** * AES: the S-boxes and the GF(2^8) coefficients of MixColumns *)

Module AESField.
Import Bits AES.

(** Bytes as a finite domain. *)
Definition all_bytes : list Z := map Z.of_nat (seq 0 256).

Lemma forall_bytes (P : Z -> bool) :
  forallb P all_bytes = true -> forall x, is_u8 x -> P x = true.
Proof.
  intros H x Hx. rewrite forallb_forall in H. apply H.
  unfold all_bytes. rewrite <- (Z2Nat.id x) by (unfold is_u8 in Hx; lia).
  apply in_map, in_seq. unfold is_u8 in Hx. pow2. lia.
Qed.

Lemma forall_bytes2 (P : Z -> Z -> bool) :
  forallb (fun a => forallb (P a) all_bytes) all_bytes = true ->
  forall a b, is_u8 a -> is_u8 b -> P a b = true.
Proof.
  intros H a b Ha Hb.
  apply (forall_bytes (P a)); [|assumption].
  apply (forall_bytes (fun a => forallb (P a) all_bytes)); assumption.
Qed.

Lemma tab_range T x : forallb is_u8b T = true -> is_u8 (tab T x).
Proof.
  intros H. unfold tab. rewrite forallb_forall in H.
  destruct (nth_in_or_default (Z.to_nat x) T 0) as [Hin | ->].
  - apply H in Hin. unfold is_u8b in Hin. unfold is_u8. lia.
  - unfold is_u8. lia.
Qed.

Lemma SE_range x : is_u8 (tab SE x).
Proof. apply tab_range. vm_compute. reflexivity. Qed.

Lemma SD_range x : is_u8 (tab SD x).
Proof. apply tab_range. vm_compute. reflexivity. Qed.

Lemma SD_SE x : is_u8 x -> tab SD (tab SE x) = x.
Proof.
  intros H. apply Z.eqb_eq.
  apply (forall_bytes (fun x => tab SD (tab SE x) =? x)); [|assumption].
  vm_compute. reflexivity.
Qed.

Lemma xtime_range s : is_u8 (xtime s).
Proof. apply u8_range. Qed.

Lemma xtime3_range s : is_u8 (xtime3 s).
Proof. apply u8_range. Qed.

(** The multiples by 9, 11, 13 and 14 in GF(2^8), as InvMixColumn forms them. *)
Definition g9 (s : Z) : Z := u8 (Z.lxor (xtime (xtime (xtime s))) s).
Definition g11 (s : Z) : Z := u8 (Z.lxor (g9 s) (xtime s)).
Definition g13 (s : Z) : Z := u8 (Z.lxor (g9 s) (xtime (xtime s))).
Definition g14 (s : Z) : Z :=
  u8 (Z.lxor (Z.lxor (xtime (xtime (xtime s))) (xtime (xtime s))) (xtime s)).

Lemma InvMixColumn_make s :
  InvMixColumn s = make_uint32 (g14 s) (g9 s) (g13 s) (g11 s).
Proof. cbv beta zeta delta [InvMixColumn g9 g11 g13 g14]. reflexivity. Qed.

Lemma g9_range s : is_u8 (g9 s).  Proof. apply u8_range. Qed.
Lemma g11_range s : is_u8 (g11 s). Proof. apply u8_range. Qed.
Lemma g13_range s : is_u8 (g13 s). Proof. apply u8_range. Qed.
Lemma g14_range s : is_u8 (g14 s). Proof. apply u8_range. Qed.

(** Equations between xor-combinations of the same operands: bitwise, with
    the operands' bits taken as boolean unknowns. *)
Ltac abstract_bits :=
  repeat match goal with
  | |- context [Z.testbit ?a ?n] => generalize (Z.testbit a n); intro
  end.

Ltac xor_ac :=
  apply Z.bits_inj'; intros ?n ?Hn; rewrite ?Z.lxor_spec, ?Z.bits_0;
  abstract_bits; btauto.

Definition linear8 (f : Z -> Z) : Prop :=
  forall a b, is_u8 a -> is_u8 b -> f (Z.lxor a b) = Z.lxor (f a) (f b).

Lemma top_bit s : is_u8 s -> Z.shiftr s 7 = 0 \/ Z.shiftr s 7 = 1.
Proof.
  unfold is_u8. intros H. rewrite Z.shiftr_div_pow2 by lia.
  change (2 ^ 7) with 128. pow2. Z.div_mod_to_equations. lia.
Qed.

Lemma xtime_linear : linear8 xtime.
Proof.
  intros a b Ha Hb. unfold xtime.
  rewrite <- !u8_lxor. f_equal.
  rewrite Z.shiftl_lxor, Z.shiftr_lxor, u8_lxor.
  destruct (top_bit a Ha) as [-> | ->], (top_bit b Hb) as [-> | ->];
    change (Z.lxor 0 0 * 27) with 0; change (Z.lxor 0 1 * 27) with 27;
    change (Z.lxor 1 0 * 27) with 27; change (Z.lxor 1 1 * 27) with 0;
    change (0 * 27) with 0; change (1 * 27) with 27; xor_ac.
Qed.

Lemma xtime2_linear : linear8 (fun s => xtime (xtime s)).
Proof.
  intros a b Ha Hb. cbv beta.
  rewrite (xtime_linear a b), xtime_linear; auto using xtime_range.
Qed.

Lemma xtime4_linear : linear8 (fun s => xtime (xtime (xtime s))).
Proof.
  intros a b Ha Hb. cbv beta.
  rewrite (xtime2_linear a b), xtime_linear; auto using xtime_range.
Qed.

Lemma xtime3_linear : linear8 xtime3.
Proof.
  intros a b Ha Hb. unfold xtime3.
  rewrite xtime_linear, <- !u8_lxor by assumption. f_equal. xor_ac.
Qed.

Lemma g9_linear : linear8 g9.
Proof.
  intros a b Ha Hb. unfold g9.
  rewrite (xtime4_linear a b), <- !u8_lxor by assumption. f_equal. xor_ac.
Qed.

Lemma g11_linear : linear8 g11.
Proof.
  intros a b Ha Hb. unfold g11.
  rewrite g9_linear, xtime_linear, <- !u8_lxor by assumption. f_equal. xor_ac.
Qed.

Lemma g13_linear : linear8 g13.
Proof.
  intros a b Ha Hb. unfold g13.
  rewrite g9_linear, (xtime2_linear a b), <- !u8_lxor by assumption. f_equal. xor_ac.
Qed.

Lemma g14_linear : linear8 g14.
Proof.
  intros a b Ha Hb. unfold g14.
  rewrite (xtime4_linear a b), (xtime2_linear a b), xtime_linear, <- !u8_lxor by assumption.
  f_equal. xor_ac.
Qed.

(** InvMixColumns undoes MixColumns, coefficient by coefficient. *)
Lemma inv_mix_coeffs s :
  is_u8 s ->
  Z.lxor (Z.lxor (Z.lxor (g14 (xtime s)) (g11 s)) (g13 s)) (g9 (xtime3 s)) = s /\
  Z.lxor (Z.lxor (Z.lxor (g14 (xtime3 s)) (g11 (xtime s))) (g13 s)) (g9 s) = 0 /\
  Z.lxor (Z.lxor (Z.lxor (g14 s) (g11 (xtime3 s))) (g13 (xtime s))) (g9 s) = 0 /\
  Z.lxor (Z.lxor (Z.lxor (g14 s) (g11 s)) (g13 (xtime3 s))) (g9 (xtime s)) = 0.
Proof.
  intros H. repeat split; apply Z.eqb_eq.
  - apply (forall_bytes (fun s =>
      Z.lxor (Z.lxor (Z.lxor (g14 (xtime s)) (g11 s)) (g13 s)) (g9 (xtime3 s)) =? s));
      [vm_compute; reflexivity | assumption].
  - apply (forall_bytes (fun s =>
      Z.lxor (Z.lxor (Z.lxor (g14 (xtime3 s)) (g11 (xtime s))) (g13 s)) (g9 s) =? 0));
      [vm_compute; reflexivity | assumption].
  - apply (forall_bytes (fun s =>
      Z.lxor (Z.lxor (Z.lxor (g14 s) (g11 (xtime3 s))) (g13 (xtime s))) (g9 s) =? 0));
      [vm_compute; reflexivity | assumption].
  - apply (forall_bytes (fun s =>
      Z.lxor (Z.lxor (Z.lxor (g14 s) (g11 s)) (g13 (xtime3 s))) (g9 (xtime s)) =? 0));
      [vm_compute; reflexivity | assumption].
Qed.

End AESField.

(** * AES: one T-table round on the bytes of the state *)

Module AESColumns.
Import Bits AES AESField.

(** ** Columns and byte states *)

Definition col : Type := Z * Z * Z * Z.
Definition bstate : Type := col * col * col * col.

Definition col_of (w : Z) : col :=
  (get_byte 0 w, get_byte 1 w, get_byte 2 w, get_byte 3 w).

Definition col_ok (c : col) : Prop :=
  let '(a, b, c, d) := c in is_u8 a /\ is_u8 b /\ is_u8 c /\ is_u8 d.

Definition cxor (x y : col) : col :=
  let '(a, b, c, d) := x in
  let '(a', b', c', d') := y in
  (Z.lxor a a', Z.lxor b b', Z.lxor c c', Z.lxor d d').

Definition mix_col (c : col) : col :=
  let '(s0, s1, s2, s3) := c in
  (Z.lxor (Z.lxor (Z.lxor (xtime s0) (xtime3 s1)) s2) s3,
   Z.lxor (Z.lxor (Z.lxor s0 (xtime s1)) (xtime3 s2)) s3,
   Z.lxor (Z.lxor (Z.lxor s0 s1) (xtime s2)) (xtime3 s3),
   Z.lxor (Z.lxor (Z.lxor (xtime3 s0) s1) s2) (xtime s3)).

Definition inv_mix_col (c : col) : col :=
  let '(s0, s1, s2, s3) := c in
  (Z.lxor (Z.lxor (Z.lxor (g14 s0) (g11 s1)) (g13 s2)) (g9 s3),
   Z.lxor (Z.lxor (Z.lxor (g9 s0) (g14 s1)) (g11 s2)) (g13 s3),
   Z.lxor (Z.lxor (Z.lxor (g13 s0) (g9 s1)) (g14 s2)) (g11 s3),
   Z.lxor (Z.lxor (Z.lxor (g11 s0) (g13 s1)) (g9 s2)) (g14 s3)).

Lemma tuple4 (a b c d a' b' c' d' : Z) :
  a = a' -> b = b' -> c = c' -> d = d' -> (a, b, c, d) = (a', b', c', d').
Proof. congruence. Qed.

Lemma col_of_ok w : col_ok (col_of w).
Proof. unfold col_ok, col_of. auto using get_byte_range. Qed.

Lemma col_of_lxor a b : col_of (Z.lxor a b) = cxor (col_of a) (col_of b).
Proof. unfold col_of, cxor. rewrite !get_byte_lxor. reflexivity. Qed.

Lemma col_of_make a b c d :
  is_u8 a -> is_u8 b -> is_u8 c -> is_u8 d ->
  col_of (make_uint32 a b c d) = (a, b, c, d).
Proof.
  intros. unfold col_of.
  rewrite !get_byte_make by assumption. reflexivity.
Qed.

Lemma cxor_ok x y : col_ok x -> col_ok y -> col_ok (cxor x y).
Proof.
  destruct x as [[[a b] c] d], y as [[[a' b'] c'] d']. cbn.
  intros (?&?&?&?) (?&?&?&?). auto using lxor_u8.
Qed.

Lemma cxor_cancel x y : cxor x (cxor x y) = y.
Proof.
  destruct x as [[[a b] c] d], y as [[[a' b'] c'] d']. cbn.
  rewrite <- !Z.lxor_assoc, !Z.lxor_nilpotent, !Z.lxor_0_l. reflexivity.
Qed.

Lemma mix_col_ok c : col_ok c -> col_ok (mix_col c).
Proof.
  destruct c as [[[a b] c] d]. cbn. intros (?&?&?&?).
  repeat split; repeat apply lxor_u8; auto using xtime_range, xtime3_range.
Qed.

Lemma tab_map (f : Z -> Z) T x : f 0 = 0 -> tab (map f T) x = f (tab T x).
Proof.
  intros H. unfold tab. rewrite <- H at 1. apply map_nth.
Qed.

Lemma tab_TE x :
  tab AES_TE x = make_uint32 (xtime (tab SE x)) (tab SE x) (tab SE x) (xtime3 (tab SE x)).
Proof.
  unfold AES_TE.
  apply (tab_map (fun s => make_uint32 (xtime s) s s (xtime3 s))). reflexivity.
Qed.

Lemma tab_TD x : tab AES_TD x = InvMixColumn (tab SD x).
Proof. unfold AES_TD. apply tab_map. reflexivity. Qed.

Lemma cols_TE x :
  let s := tab SE x in
  col_of (tab AES_TE x) = (xtime s, s, s, xtime3 s) /\
  col_of (rotr 8 (tab AES_TE x)) = (xtime3 s, xtime s, s, s) /\
  col_of (rotr 16 (tab AES_TE x)) = (s, xtime3 s, xtime s, s) /\
  col_of (rotr 24 (tab AES_TE x)) = (s, s, xtime3 s, xtime s).
Proof.
  intros s. rewrite tab_TE. fold s.
  pose proof (SE_range x : is_u8 s) as Hs.
  pose proof (xtime_range s) as H2. pose proof (xtime3_range s) as H3.
  rewrite (rotr8_make _ _ _ _ H2 Hs Hs H3), (rotr16_make _ _ _ _ H2 Hs Hs H3),
          (rotr24_make _ _ _ _ H2 Hs Hs H3).
  repeat split; apply col_of_make; assumption.
Qed.

Lemma cols_IMC s :
  col_of (InvMixColumn s) = (g14 s, g9 s, g13 s, g11 s) /\
  col_of (rotr 8 (InvMixColumn s)) = (g11 s, g14 s, g9 s, g13 s) /\
  col_of (rotr 16 (InvMixColumn s)) = (g13 s, g11 s, g14 s, g9 s) /\
  col_of (rotr 24 (InvMixColumn s)) = (g9 s, g13 s, g11 s, g14 s).
Proof.
  rewrite InvMixColumn_make.
  pose proof (g14_range s) as H14. pose proof (g9_range s) as H9.
  pose proof (g13_range s) as H13. pose proof (g11_range s) as H11.
  rewrite (rotr8_make _ _ _ _ H14 H9 H13 H11), (rotr16_make _ _ _ _ H14 H9 H13 H11),
          (rotr24_make _ _ _ _ H14 H9 H13 H11).
  repeat split; apply col_of_make; assumption.
Qed.

Lemma AES_T_TE K V0 V1 V2 V3 :
  col_of (AES_T AES_TE K V0 V1 V2 V3) =
  cxor (col_of K)
       (mix_col (tab SE (get_byte 0 V0), tab SE (get_byte 1 V1),
                 tab SE (get_byte 2 V2), tab SE (get_byte 3 V3))).
Proof.
  unfold AES_T. rewrite !col_of_lxor.
  destruct (cols_TE (get_byte 0 V0)) as (-> & _).
  destruct (cols_TE (get_byte 1 V1)) as (_ & -> & _).
  destruct (cols_TE (get_byte 2 V2)) as (_ & _ & -> & _).
  destruct (cols_TE (get_byte 3 V3)) as (_ & _ & _ & ->).
  destruct (col_of K) as [[[k0 k1] k2] k3]. cbn [cxor mix_col].
  apply tuple4; xor_ac.
Qed.

Lemma AES_T_TD K V0 V1 V2 V3 :
  col_of (AES_T AES_TD K V0 V1 V2 V3) =
  cxor (col_of K)
       (inv_mix_col (tab SD (get_byte 0 V0), tab SD (get_byte 1 V1),
                     tab SD (get_byte 2 V2), tab SD (get_byte 3 V3))).
Proof.
  unfold AES_T. rewrite !col_of_lxor, !tab_TD.
  destruct (cols_IMC (tab SD (get_byte 0 V0))) as (-> & _).
  destruct (cols_IMC (tab SD (get_byte 1 V1))) as (_ & -> & _).
  destruct (cols_IMC (tab SD (get_byte 2 V2))) as (_ & _ & -> & _).
  destruct (cols_IMC (tab SD (get_byte 3 V3))) as (_ & _ & _ & ->).
  destruct (col_of K) as [[[k0 k1] k2] k3]. cbn [cxor inv_mix_col].
  apply tuple4; xor_ac.
Qed.

Lemma col_of_imc_word w : col_of (imc_word w) = inv_mix_col (col_of w).
Proof.
  unfold imc_word. cbv zeta. rewrite !col_of_lxor.
  destruct (cols_IMC (get_byte 0 w)) as (-> & _).
  destruct (cols_IMC (get_byte 1 w)) as (_ & -> & _).
  destruct (cols_IMC (get_byte 2 w)) as (_ & _ & -> & _).
  destruct (cols_IMC (get_byte 3 w)) as (_ & _ & _ & ->).
  unfold col_of. cbn [cxor inv_mix_col]. apply tuple4; xor_ac.
Qed.

Ltac lin f lem :=
  repeat match goal with
  | |- context [f (Z.lxor ?a ?b)] =>
      rewrite (lem a b) by (repeat apply lxor_u8; assumption)
  end.

Ltac lin_all :=
  lin g9 g9_linear; lin g11 g11_linear; lin g13 g13_linear; lin g14 g14_linear.

Lemma inv_mix_col_linear x y :
  col_ok x -> col_ok y ->
  inv_mix_col (cxor x y) = cxor (inv_mix_col x) (inv_mix_col y).
Proof.
  destruct x as [[[a b] c] d], y as [[[a' b'] c'] d']. cbn [col_ok cxor inv_mix_col].
  intros (?&?&?&?) (?&?&?&?).
  lin_all. apply tuple4; xor_ac.
Qed.

Lemma inv_mix_mix c : col_ok c -> inv_mix_col (mix_col c) = c.
Proof.
  destruct c as [[[s0 s1] s2] s3]. cbn [col_ok mix_col inv_mix_col]. intros (H0&H1&H2&H3).
  pose proof (xtime_range s0). pose proof (xtime_range s1).
  pose proof (xtime_range s2). pose proof (xtime_range s3).
  pose proof (xtime3_range s0). pose proof (xtime3_range s1).
  pose proof (xtime3_range s2). pose proof (xtime3_range s3).
  lin_all.
  destruct (inv_mix_coeffs s0 H0) as (D0&A0&B0&C0).
  destruct (inv_mix_coeffs s1 H1) as (D1&A1&B1&C1).
  destruct (inv_mix_coeffs s2 H2) as (D2&A2&B2&C2).
  destruct (inv_mix_coeffs s3 H3) as (D3&A3&B3&C3).
  apply tuple4.
  - etransitivity; [|etransitivity; [exact (f_equal2 Z.lxor (f_equal2 Z.lxor (f_equal2 Z.lxor D0 A1) B2) C3) | rewrite ?Z.lxor_0_r, ?Z.lxor_0_l; reflexivity]].
    xor_ac.
  - etransitivity; [|etransitivity; [exact (f_equal2 Z.lxor (f_equal2 Z.lxor (f_equal2 Z.lxor C0 D1) A2) B3) | rewrite ?Z.lxor_0_r, ?Z.lxor_0_l; reflexivity]].
    xor_ac.
  - etransitivity; [|etransitivity; [exact (f_equal2 Z.lxor (f_equal2 Z.lxor (f_equal2 Z.lxor B0 C1) D2) A3) | rewrite ?Z.lxor_0_r, ?Z.lxor_0_l; reflexivity]].
    xor_ac.
  - etransitivity; [|etransitivity; [exact (f_equal2 Z.lxor (f_equal2 Z.lxor (f_equal2 Z.lxor A0 B1) C2) D3) | rewrite ?Z.lxor_0_r, ?Z.lxor_0_l; reflexivity]].
    xor_ac.
Qed.

End AESColumns.

(** * AES: chains of rounds *)

Module AESRounds.
Import Bits AES AESField AESColumns.

Definition bytes_of (V : state) : bstate :=
  let '(V0, V1, V2, V3) := V in (col_of V0, col_of V1, col_of V2, col_of V3).

Definition bstate_ok (b : bstate) : Prop :=
  let '(c0, c1, c2, c3) := b in col_ok c0 /\ col_ok c1 /\ col_ok c2 /\ col_ok c3.

Definition sxor (x y : bstate) : bstate :=
  let '(x0, x1, x2, x3) := x in
  let '(y0, y1, y2, y3) := y in
  (cxor x0 y0, cxor x1 y1, cxor x2 y2, cxor x3 y3).

Definition smap (f : col -> col) (x : bstate) : bstate :=
  let '(x0, x1, x2, x3) := x in (f x0, f x1, f x2, f x3).

(** SubBytes followed by ShiftRows, on a state stored by columns. *)
Definition sub_shift (b : bstate) : bstate :=
  let '((a0, a1, a2, a3), (b0, b1, b2, b3), (c0, c1, c2, c3), (d0, d1, d2, d3)) := b in
  ((tab SE a0, tab SE b1, tab SE c2, tab SE d3),
   (tab SE b0, tab SE c1, tab SE d2, tab SE a3),
   (tab SE c0, tab SE d1, tab SE a2, tab SE b3),
   (tab SE d0, tab SE a1, tab SE b2, tab SE c3)).

(** InvShiftRows followed by InvSubBytes. *)
Definition inv_sub_shift (b : bstate) : bstate :=
  let '((a0, a1, a2, a3), (b0, b1, b2, b3), (c0, c1, c2, c3), (d0, d1, d2, d3)) := b in
  ((tab SD a0, tab SD d1, tab SD c2, tab SD b3),
   (tab SD b0, tab SD a1, tab SD d2, tab SD c3),
   (tab SD c0, tab SD b1, tab SD a2, tab SD d3),
   (tab SD d0, tab SD c1, tab SD b2, tab SD a3)).

(** The four key words [K[r..r+3]] as columns. *)
Definition key_cols (K : list Z) (r : nat) : bstate :=
  (col_of (at_ K r), col_of (at_ K (r + 1)),
   col_of (at_ K (r + 2)), col_of (at_ K (r + 3))).

Lemma bytes_of_ok V : bstate_ok (bytes_of V).
Proof. destruct V as [[[V0 V1] V2] V3]. repeat split; apply get_byte_range. Qed.

Lemma key_cols_ok K r : bstate_ok (key_cols K r).
Proof. repeat split; apply get_byte_range. Qed.

Lemma sub_shift_ok b : bstate_ok (sub_shift b).
Proof.
  destruct b as [[[[[[a0 a1] a2] a3] [[[b0 b1] b2] b3]] [[[c0 c1] c2] c3]] [[[d0 d1] d2] d3]].
  repeat split; apply SE_range.
Qed.

Lemma smap_mix_ok b : bstate_ok b -> bstate_ok (smap mix_col b).
Proof.
  destruct b as [[[c0 c1] c2] c3]. cbn [smap bstate_ok].
  intros (?&?&?&?). repeat split; apply mix_col_ok; assumption.
Qed.

Lemma inv_sub_shift_sub_shift b : bstate_ok b -> inv_sub_shift (sub_shift b) = b.
Proof.
  destruct b as [[[[[[a0 a1] a2] a3] [[[b0 b1] b2] b3]] [[[c0 c1] c2] c3]] [[[d0 d1] d2] d3]].
  cbn [sub_shift inv_sub_shift bstate_ok col_ok].
  intros ((?&?&?&?)&(?&?&?&?)&(?&?&?&?)&(?&?&?&?)).
  rewrite !SD_SE by assumption. reflexivity.
Qed.

Lemma sxor_cancel x y : sxor x (sxor x y) = y.
Proof.
  destruct x as [[[x0 x1] x2] x3], y as [[[y0 y1] y2] y3]. cbn [sxor].
  rewrite !cxor_cancel. reflexivity.
Qed.

Lemma smap_inv_mix_sxor x y :
  bstate_ok x -> bstate_ok y ->
  smap inv_mix_col (sxor x y) = sxor (smap inv_mix_col x) (smap inv_mix_col y).
Proof.
  destruct x as [[[x0 x1] x2] x3], y as [[[y0 y1] y2] y3]. cbn [sxor smap bstate_ok].
  intros (?&?&?&?) (?&?&?&?).
  rewrite !inv_mix_col_linear by assumption. reflexivity.
Qed.

Lemma smap_inv_mix_mix x : bstate_ok x -> smap inv_mix_col (smap mix_col x) = x.
Proof.
  destruct x as [[[x0 x1] x2] x3]. cbn [smap bstate_ok].
  intros (?&?&?&?). rewrite !inv_mix_mix by assumption. reflexivity.
Qed.

Lemma enc_round_bytes K r V :
  bytes_of (enc_round K r V) =
  sxor (key_cols K r) (smap mix_col (sub_shift (bytes_of V))).
Proof.
  destruct V as [[[V0 V1] V2] V3].
  unfold enc_round, bytes_of. rewrite !AES_T_TE. reflexivity.
Qed.

Lemma dec_round_bytes K r V :
  bytes_of (dec_round K r V) =
  sxor (key_cols K r) (smap inv_mix_col (inv_sub_shift (bytes_of V))).
Proof.
  destruct V as [[[V0 V1] V2] V3].
  unfold dec_round, bytes_of. rewrite !AES_T_TD. reflexivity.
Qed.

(** A decryption round with the InvMixColumn-transformed key undoes an
    encryption round, on states taken after SubBytes/ShiftRows. *)
Lemma dec_round_enc_round EK DK r r' V D :
  key_cols DK r' = smap inv_mix_col (key_cols EK r) ->
  bytes_of D = sub_shift (bytes_of (enc_round EK r V)) ->
  bytes_of (dec_round DK r' D) = sub_shift (bytes_of V).
Proof.
  intros HK HD.
  rewrite dec_round_bytes, HD, HK.
  rewrite inv_sub_shift_sub_shift by apply bytes_of_ok.
  rewrite enc_round_bytes.
  rewrite smap_inv_mix_sxor
    by auto using key_cols_ok, smap_mix_ok, sub_shift_ok.
  rewrite sxor_cancel.
  apply smap_inv_mix_mix, sub_shift_ok.
Qed.

(** Rounds applied one after the other, with the key offsets [rs]. *)
Definition enc_chain (K : list Z) (rs : list nat) (V : state) : state :=
  fold_left (fun V r => enc_round K r V) rs V.

Definition dec_chain (K : list Z) (rs : list nat) (V : state) : state :=
  fold_left (fun V r => dec_round K r V) rs V.

Lemma dec_chain_enc_chain EK DK n rs :
  (forall r, In r rs -> key_cols DK (n - r) = smap inv_mix_col (key_cols EK r)) ->
  forall V D,
  bytes_of D = sub_shift (bytes_of (enc_chain EK rs V)) ->
  bytes_of (dec_chain DK (map (fun r => (n - r)%nat) (rev rs)) D) =
  sub_shift (bytes_of V).
Proof.
  induction rs as [|r rs IH] using rev_ind; intros HK V D HD.
  - exact HD.
  - unfold enc_chain in HD. rewrite fold_left_app in HD. cbn [fold_left] in HD.
    rewrite rev_app_distr. cbn [rev app map].
    unfold dec_chain. cbn [fold_left].
    apply IH.
    + intros r0 Hr0. apply HK, in_or_app. left. exact Hr0.
    + eapply dec_round_enc_round; [|exact HD].
      apply HK, in_or_app. right. left. reflexivity.
Qed.

End AESRounds.

(** * AES: one block through encryption and decryption *)

Module AESBlock.
Import Bits AES AESField AESColumns AESRounds.

(** The sixteen bytes of a state in output order, xor-ed with a mask. *)
Definition xor16 (b : bstate) (M : list Z) : list Z :=
  let '((a0, a1, a2, a3), (b0, b1, b2, b3), (c0, c1, c2, c3), (d0, d1, d2, d3)) := b in
  [ Z.lxor a0 (at_ M 0);  Z.lxor a1 (at_ M 1);  Z.lxor a2 (at_ M 2);  Z.lxor a3 (at_ M 3);
    Z.lxor b0 (at_ M 4);  Z.lxor b1 (at_ M 5);  Z.lxor b2 (at_ M 6);  Z.lxor b3 (at_ M 7);
    Z.lxor c0 (at_ M 8);  Z.lxor c1 (at_ M 9);  Z.lxor c2 (at_ M 10); Z.lxor c3 (at_ M 11);
    Z.lxor d0 (at_ M 12); Z.lxor d1 (at_ M 13); Z.lxor d2 (at_ M 14); Z.lxor d3 (at_ M 15) ].

(** The state loaded from a block and whitened with [K[0..3]]. *)
Definition whiten (Zacc : Z) (K blk : list Z) : state :=
  (Z.lxor (Z.lxor (load_be blk 0) (at_ K 0)) Zacc,
   Z.lxor (load_be blk 1) (at_ K 1),
   Z.lxor (load_be blk 2) (at_ K 2),
   Z.lxor (load_be blk 3) (at_ K 3)).

(** The key offsets of the rounds after whitening, for a schedule of [L] words. *)
Definition round_offsets (L : nat) : list nat :=
  map (fun k => (4 + 4 * k)%nat) (seq 0 (L / 4 - 1)).

Definition sched_len (L : nat) : Prop := L = 40%nat \/ L = 48%nat \/ L = 56%nat.

Lemma TE_shift8 x : u8 (Z.shiftr (tab AES_TE x) 8) = tab SE x.
Proof.
  change (u8 (Z.shiftr (tab AES_TE x) 8)) with (get_byte 2 (tab AES_TE x)).
  rewrite tab_TE.
  rewrite get_byte_make by auto using xtime_range, xtime3_range, SE_range.
  reflexivity.
Qed.

Lemma enc_loop_chain K V :
  sched_len (length K) ->
  fold_left (fun B r => enc_round K (r + 4) (enc_round K r B))
            (range_step 8 (length K) 8) (enc_round K 4 V) =
  enc_chain K (round_offsets (length K)) V.
Proof. intros [-> | [-> | ->]]; reflexivity. Qed.

Lemma dec_loop_chain K V :
  sched_len (length K) ->
  fold_left (fun B r => dec_round K (r + 4) (dec_round K r B))
            (range_step 8 (length K) 8) (dec_round K 4 V) =
  dec_chain K (round_offsets (length K)) V.
Proof. intros [-> | [-> | ->]]; reflexivity. Qed.

Lemma round_offsets_rev L :
  sched_len L ->
  map (fun r => (L - r)%nat) (rev (round_offsets L)) = round_offsets L.
Proof. intros [-> | [-> | ->]]; reflexivity. Qed.

Lemma aes_encrypt_block_eq Zacc K M inp i :
  sched_len (length K) ->
  aes_encrypt_block Zacc K M inp i =
  xor16 (sub_shift (bytes_of (enc_chain K (round_offsets (length K))
                                        (whiten Zacc K (drop (16 * i) inp))))) M.
Proof.
  intros HL. unfold aes_encrypt_block. cbv zeta.
  rewrite (enc_loop_chain K _ HL). fold (whiten Zacc K (drop (16 * i) inp)).
  destruct (enc_chain K (round_offsets (length K)) (whiten Zacc K (drop (16 * i) inp)))
    as [[[B0 B1] B2] B3].
  rewrite !TE_shift8. reflexivity.
Qed.

Lemma aes_decrypt_block_eq Zacc K M inp i :
  sched_len (length K) ->
  aes_decrypt_block Zacc K M inp i =
  xor16 (inv_sub_shift (bytes_of (dec_chain K (round_offsets (length K))
                                            (whiten Zacc K (drop (16 * i) inp))))) M.
Proof.
  intros HL. unfold aes_decrypt_block. cbv zeta.
  rewrite (dec_loop_chain K _ HL). fold (whiten Zacc K (drop (16 * i) inp)).
  destruct (dec_chain K (round_offsets (length K)) (whiten Zacc K (drop (16 * i) inp)))
    as [[[B0 B1] B2] B3].
  reflexivity.
Qed.

(** The relation aes_key_schedule establishes between its four outputs. *)
Record schedule_ok (K D M M' : list Z) : Prop := {
  sk_len : sched_len (length K);
  sk_len' : length D = length K;
  sk_rounds : forall r, In r (round_offsets (length K)) ->
      key_cols D (length K - r) = smap inv_mix_col (key_cols K r);
  sk_last : forall c, (c < 4)%nat ->
      col_of (at_ D c) =
      (at_ M (4 * c), at_ M (4 * c + 1), at_ M (4 * c + 2), at_ M (4 * c + 3));
  sk_first : forall c, (c < 4)%nat ->
      col_of (at_ K c) =
      (at_ M' (4 * c), at_ M' (4 * c + 1), at_ M' (4 * c + 2), at_ M' (4 * c + 3))
}.

Lemma col_of_load_be blk c :
  Forall is_u8 (take 16 blk) -> (16 <= length blk)%nat -> (c < 4)%nat ->
  col_of (load_be blk c) =
  (at_ blk (4 * c), at_ blk (4 * c + 1), at_ blk (4 * c + 2), at_ blk (4 * c + 3)).
Proof.
  intros Hb Hlen Hc. unfold load_be.
  assert (forall j, (j < 16)%nat -> is_u8 (at_ blk j)) as Hj.
  { intros j Hlt. rewrite List.Forall_forall in Hb. apply Hb.
    unfold at_. rewrite <- (firstn_skipn 16 blk) at 1.
    change (firstn 16 blk) with (take 16 blk).
    rewrite app_nth1 by (rewrite length_take; lia).
    apply nth_In. rewrite length_take. lia. }
  apply col_of_make; apply Hj; lia.
Qed.

Lemma whiten_bytes K blk :
  Forall is_u8 (take 16 blk) -> (16 <= length blk)%nat ->
  bytes_of (whiten 0 K blk) =
  sxor ((at_ blk 0, at_ blk 1, at_ blk 2, at_ blk 3),
        (at_ blk 4, at_ blk 5, at_ blk 6, at_ blk 7),
        (at_ blk 8, at_ blk 9, at_ blk 10, at_ blk 11),
        (at_ blk 12, at_ blk 13, at_ blk 14, at_ blk 15))
       (key_cols K 0).
Proof.
  intros Hb Hlen. unfold whiten, bytes_of. rewrite Z.lxor_0_r.
  rewrite !col_of_lxor.
  rewrite (col_of_load_be blk 0), (col_of_load_be blk 1),
          (col_of_load_be blk 2), (col_of_load_be blk 3) by (assumption || lia).
  reflexivity.
Qed.

Lemma xor16_is_u8 b M :
  bstate_ok b -> (forall j, (j < 16)%nat -> is_u8 (at_ M j)) ->
  Forall is_u8 (xor16 b M).
Proof.
  destruct b as [[[[[[a0 a1] a2] a3] [[[b0 b1] b2] b3]] [[[c0 c1] c2] c3]] [[[d0 d1] d2] d3]].
  cbn [bstate_ok col_ok xor16].
  intros ((?&?&?&?)&(?&?&?&?)&(?&?&?&?)&(?&?&?&?)) HM.
  repeat (apply List.Forall_cons; [apply lxor_u8; [assumption | apply HM; lia] |]).
  apply List.Forall_nil.
Qed.

Lemma mask_bytes_ok W M :
  (forall c, (c < 4)%nat ->
      col_of (at_ W c) =
      (at_ M (4 * c), at_ M (4 * c + 1), at_ M (4 * c + 2), at_ M (4 * c + 3))) ->
  forall j, (j < 16)%nat -> is_u8 (at_ M j).
Proof.
  intros H j Hj.
  pose proof (col_of_ok (at_ W 0)) as H0. rewrite (H 0%nat) in H0 by lia.
  pose proof (col_of_ok (at_ W 1)) as H1. rewrite (H 1%nat) in H1 by lia.
  pose proof (col_of_ok (at_ W 2)) as H2. rewrite (H 2%nat) in H2 by lia.
  pose proof (col_of_ok (at_ W 3)) as H3. rewrite (H 3%nat) in H3 by lia.
  cbn [col_ok Nat.mul Nat.add] in *.
  do 16 (destruct j as [|j]; [tauto|]). lia.
Qed.

(** The bytes of the state that decryption loads from a ciphertext block. *)
Lemma whiten_xor16 b K M rest :
  bstate_ok b ->
  (forall c, (c < 4)%nat ->
      col_of (at_ K c) =
      (at_ M (4 * c), at_ M (4 * c + 1), at_ M (4 * c + 2), at_ M (4 * c + 3))) ->
  bytes_of (whiten 0 K (xor16 b M ++ rest)) = b.
Proof.
  intros Hb HK.
  pose proof (mask_bytes_ok K M HK) as HM.
  assert (length (xor16 b M) = 16%nat) as Hlen.
  { destruct b as [[[[[[? ?] ?] ?] [[[? ?] ?] ?]] [[[? ?] ?] ?]] [[[? ?] ?] ?]]. reflexivity. }
  rewrite whiten_bytes.
  2:{ rewrite take_app_le, take_ge by lia. apply xor16_is_u8; assumption. }
  2:{ rewrite length_app. lia. }
  unfold key_cols. cbn [Nat.add].
  rewrite (HK 0%nat), (HK 1%nat), (HK 2%nat), (HK 3%nat) by lia.
  destruct b as [[[[[[a0 a1] a2] a3] [[[b0 b1] b2] b3]] [[[c0 c1] c2] c3]] [[[d0 d1] d2] d3]].
  cbn [xor16 at_ nth app sxor cxor Nat.mul Nat.add].
  rewrite !Z.lxor_assoc, !Z.lxor_nilpotent, !Z.lxor_0_r. reflexivity.
Qed.

Lemma xor16_whiten K M blk :
  Forall is_u8 (take 16 blk) -> (16 <= length blk)%nat ->
  (forall c, (c < 4)%nat ->
      col_of (at_ K c) =
      (at_ M (4 * c), at_ M (4 * c + 1), at_ M (4 * c + 2), at_ M (4 * c + 3))) ->
  xor16 (bytes_of (whiten 0 K blk)) M = take 16 blk.
Proof.
  intros Hb Hlen HK. rewrite whiten_bytes by assumption.
  unfold key_cols. cbn [Nat.add].
  rewrite (HK 0%nat), (HK 1%nat), (HK 2%nat), (HK 3%nat) by lia.
  cbn [xor16 sxor cxor Nat.mul Nat.add].
  rewrite !Z.lxor_assoc, !Z.lxor_nilpotent, !Z.lxor_0_r.
  do 16 (destruct blk as [|? blk]; [cbn in Hlen; lia|]). reflexivity.
Qed.

(** Decrypting an encrypted block gives the block back, for any four lists
    related as the key schedule relates them. *)
Lemma decrypt_encrypt_block K D M M' inp i rest :
  schedule_ok K D M M' ->
  Forall is_u8 (take 16 (drop (16 * i) inp)) ->
  (16 <= length (drop (16 * i) inp))%nat ->
  aes_decrypt_block 0 D M' (aes_encrypt_block 0 K M inp i ++ rest) 0 =
  take 16 (drop (16 * i) inp).
Proof.
  intros [HL HL' Hr Hlast Hfirst] Hb Hlen.
  assert (sched_len (length D)) as HLD by (rewrite HL'; exact HL).
  rewrite (aes_decrypt_block_eq 0 D M' _ 0 HLD).
  rewrite (aes_encrypt_block_eq 0 K M inp i HL).
  change (drop (16 * 0) ?l) with l.
  set (blk := drop (16 * i) inp) in *.
  set (E0 := whiten 0 K blk).
  set (ct := xor16 _ M).
  assert (bytes_of (dec_chain D (round_offsets (length D)) (whiten 0 D (ct ++ rest))) =
          sub_shift (bytes_of E0)) as Hdec.
  { rewrite HL'. rewrite <- (round_offsets_rev (length K) HL) at 1.
    apply (dec_chain_enc_chain K D (length K)); [exact Hr|].
    unfold ct. apply whiten_xor16; [apply sub_shift_ok | exact Hlast]. }
  rewrite Hdec, inv_sub_shift_sub_shift by apply bytes_of_ok.
  apply xor16_whiten; assumption.
Qed.

End AESBlock.

(** * AES: what the key schedule stores *)

Module AESSchedule.
Import Bits AES AESField AESColumns AESRounds AESBlock.

(** Word [j] of the decryption schedule in terms of the expanded key [XEK],
    for a schedule of [L] words. *)
Definition dk_word (XEK : list Z) (L j : nat) : Z :=
  if (j <? 4)%nat then at_ XEK (L + j)
  else imc_word (at_ XEK (L - 4 * (j / 4) + j mod 4)).

Definition key_len (n : nat) : Prop := n = 16%nat \/ n = 24%nat \/ n = 32%nat.

Lemma fold_left_length {B : Type} (f : list Z -> B -> list Z) bs l :
  (forall l b, length (f l b) = length l) ->
  length (fold_left f bs l) = length l.
Proof.
  intros Hf. revert l. induction bs as [|b bs IH]; intros l; cbn [fold_left].
  - reflexivity.
  - rewrite IH. apply Hf.
Qed.

Lemma expand_key_length X rounds l : length (expand_key X rounds l) = length l.
Proof.
  unfold expand_key. apply fold_left_length. intros l0 i.
  rewrite fold_left_length.
  - apply length_insert.
  - intros l1 j. destruct (_ && _); rewrite !length_insert; reflexivity.
Qed.

Lemma load_key_length (key : list Z) n l :
  length (fold_left (fun (XEK : list Z) i => <[ i := load_be key i ]> XEK) (seq 0 n) l)
  = length l.
Proof. apply fold_left_length. intros. apply length_insert. Qed.

Lemma DK_closed_form XEK len :
  key_len len ->
  take (len + 24) (imc_keys len (reverse_keys (len / 4 + 6) XEK (replicate (len + 32) 0)))
  = map (dk_word XEK (len + 24)) (seq 0 (len + 24)).
Proof.
  intros [-> | [-> | ->]]; unfold reverse_keys, dk_word;
    generalize (at_ XEK); intros k; cbv -[imc_word]; reflexivity.
Qed.

Lemma at_map_seq (f : nat -> Z) n j : (j < n)%nat -> at_ (map f (seq 0 n)) j = f j.
Proof.
  intros H. unfold at_. rewrite (nth_indep _ 0 (f 0%nat)) by (rewrite length_map, length_seq; lia).
  rewrite map_nth, seq_nth by lia. reflexivity.
Qed.

Lemma at_take l n j : (j < n)%nat -> at_ (take n l) j = at_ l j.
Proof.
  unfold at_. revert l j. induction n as [|n IH]; intros l j H; [lia|].
  destruct l as [|x l]; [destruct j; reflexivity|].
  destruct j as [|j]; [reflexivity|]. cbn. apply IH. lia.
Qed.

(** The expanded key of the schedule, before it is cut into EK and ME. *)
Definition XEK_of (key : list Z) : list Z :=
  expand_key (length key / 4) (length key / 4 + 6)
    (fold_left (fun (XEK : list Z) i => <[ i := load_be key i ]> XEK)
               (seq 0 (length key / 4)) (replicate (length key + 32) 0)).

Lemma XEK_of_length key : length (XEK_of key) = (length key + 32)%nat.
Proof.
  unfold XEK_of. rewrite expand_key_length, load_key_length. apply length_replicate.
Qed.

Lemma aes_key_schedule_eq key :
  key_len (length key) ->
  aes_key_schedule false key =
  Done {| EK := take (length key + 24) (XEK_of key);
          DK := map (dk_word (XEK_of key) (length key + 24)) (seq 0 (length key + 24));
          ME := flat_map (fun i => store_be (at_ (XEK_of key) (i + 4 * (length key / 4 + 6))))
                         (seq 0 4);
          MD := flat_map (fun i => store_be (at_ (XEK_of key) i)) (seq 0 4) |}.
Proof.
  intros Hk. unfold aes_key_schedule. cbv zeta.
  fold (XEK_of key).
  rewrite (DK_closed_form (XEK_of key) (length key) Hk).
  destruct Hk as [-> | [-> | ->]]; reflexivity.
Qed.

Lemma key_schedule_ok key ks :
  key_len (length key) ->
  aes_key_schedule false key = Done ks ->
  schedule_ok (EK ks) (DK ks) (ME ks) (MD ks).
Proof.
  intros Hk Hks. rewrite (aes_key_schedule_eq key Hk) in Hks.
  injection Hks as <-. cbn [EK DK ME MD].
  pose proof (XEK_of_length key) as HX.
  set (X := XEK_of key) in *. clearbody X.
  remember (length key) as n eqn:Hn. clear Hn key.
  assert (length (take (n + 24) X) = (n + 24)%nat) as HEK
    by (rewrite length_take; lia).
  split; rewrite ?HEK.
  - destruct Hk as [-> | [-> | ->]]; [left | right; left | right; right]; reflexivity.
  - rewrite length_map, length_seq. reflexivity.
  - intros r Hr. unfold key_cols.
    assert (forall c, (c < 4)%nat ->
              col_of (at_ (map (dk_word X (n + 24)) (seq 0 (n + 24))) (n + 24 - r + c)) =
              inv_mix_col (col_of (at_ (take (n + 24) X) (r + c)))) as Hc.
    { intros c Hc. rewrite <- col_of_imc_word.
      assert ((r + c < n + 24)%nat /\ (n + 24 - r + c < n + 24)%nat /\
              dk_word X (n + 24) (n + 24 - r + c) = imc_word (at_ X (r + c))) as (H1 & H2 & H3).
      { destruct Hk as [-> | [-> | ->]]; cbn in Hr;
          repeat (destruct Hr as [Hr | Hr];
                  [ subst r; do 4 (destruct c as [|c]; [repeat split; lia|]); lia |]);
          destruct Hr. }
      rewrite at_map_seq, at_take, H3 by assumption. reflexivity. }
    rewrite <- (Nat.add_0_r (n + 24 - r)) at 1.
    rewrite <- (Nat.add_0_r r) at 5.
    rewrite !Hc by lia. reflexivity.
  - intros c Hc. rewrite at_map_seq by lia. unfold dk_word.
    replace (c <? 4)%nat with true by (symmetry; apply Nat.ltb_lt; exact Hc).
    destruct Hk as [-> | [-> | ->]];
      do 4 (destruct c as [|c]; [unfold col_of; cbn -[get_byte]; reflexivity|]); lia.
  - intros c Hc. rewrite at_take by lia.
    do 4 (destruct c as [|c]; [unfold col_of; cbn -[get_byte]; reflexivity|]); lia.
Qed.

End AESSchedule.

(** * AES: correctness of the T-table implementation *)

Module AESTheorems.
Import Bits AES AESField AESColumns AESRounds AESBlock AESSchedule.

Lemma xor16_length b M : length (xor16 b M) = 16%nat.
Proof.
  destruct b as [[[[[[? ?] ?] ?] [[[? ?] ?] ?]] [[[? ?] ?] ?]] [[[? ?] ?] ?]]. reflexivity.
Qed.

Lemma aes_encrypt_block_length Zacc K M inp i :
  sched_len (length K) -> length (aes_encrypt_block Zacc K M inp i) = 16%nat.
Proof. intros HL. rewrite aes_encrypt_block_eq by exact HL. apply xor16_length. Qed.

(** Block [i] of a concatenation of 16-byte blocks. *)
Lemma drop_flat_map_blocks (f : nat -> list Z) a n i :
  (forall j, length (f j) = 16%nat) -> (i < n)%nat ->
  drop (16 * i) (flat_map f (seq a n)) = f (a + i)%nat ++ flat_map f (seq (a + S i) (n - S i)).
Proof.
  intros Hf. revert a i. induction n as [|n IH]; intros a i Hi; [lia|].
  cbn [seq flat_map]. destruct i as [|i].
  - rewrite Nat.add_0_r, Nat.add_1_r, Nat.mul_0_r.
    replace (S n - 1)%nat with n by lia. reflexivity.
  - replace (16 * S i)%nat with (length (f a) + 16 * i)%nat by (rewrite Hf; lia).
    rewrite drop_app_add', IH by (reflexivity || lia).
    replace (S a + i)%nat with (a + S i)%nat by lia.
    replace (S a + S i)%nat with (a + S (S i))%nat by lia.
    reflexivity.
Qed.

Lemma flat_map_take_drop (l : list Z) a n :
  length l = (16 * (a + n))%nat ->
  flat_map (fun i => take 16 (drop (16 * i) l)) (seq a n) = drop (16 * a) l.
Proof.
  revert a. induction n as [|n IH]; intros a Hl; cbn [seq flat_map].
  - rewrite drop_ge by lia. reflexivity.
  - rewrite IH by lia.
    replace (16 * S a)%nat with (16 * a + 16)%nat by lia.
    rewrite <- drop_drop. apply take_drop.
Qed.

Lemma flat_map_ext_on {A : Type} (f g : A -> list Z) l :
  (forall x, In x l -> f x = g x) -> flat_map f l = flat_map g l.
Proof.
  induction l as [|x l IH]; intros H; cbn [flat_map]; [reflexivity|].
  rewrite (H x) by (left; reflexivity).
  rewrite IH by (intros y Hy; apply H; right; exact Hy). reflexivity.
Qed.

Lemma Forall_take_drop (P : Z -> Prop) (l : list Z) n m :
  Forall P l -> Forall P (take n (drop m l)).
Proof. intros H. apply Forall_take, Forall_drop, H. Qed.

Lemma sweep_TE_zero cls : sweep_TE cls = 0.
Proof.
  unfold sweep_TE. cbv zeta.
  replace (at_ AES_TE 82) with 0 by (vm_compute; reflexivity).
  apply Z.land_0_r.
Qed.

Lemma sweep_TD_zero cls : sweep_TD cls = 0.
Proof.
  unfold sweep_TD. cbv zeta.
  replace (at_ AES_TD 99) with 0 by (vm_compute; reflexivity).
  apply Z.land_0_r.
Qed.

Lemma decrypt_encrypt_blocks K D M M' inp blocks :
  schedule_ok K D M M' ->
  length inp = (16 * blocks)%nat -> Forall is_u8 inp ->
  aes_decrypt_blocks 0 (aes_encrypt_blocks 0 inp blocks K M) blocks D M' = inp.
Proof.
  intros Hs Hlen Hb.
  unfold aes_decrypt_blocks, aes_encrypt_blocks.
  transitivity (flat_map (fun i => take 16 (drop (16 * i) inp)) (seq 0 blocks)).
  - apply flat_map_ext_on. intros i Hi. apply in_seq in Hi.
    assert (aes_decrypt_block 0 D M' (drop (16 * i)
              (flat_map (aes_encrypt_block 0 K M inp) (seq 0 blocks))) 0 =
            take 16 (drop (16 * i) inp)) as H.
    { rewrite drop_flat_map_blocks
        by (lia || intros; apply aes_encrypt_block_length, (sk_len _ _ _ _ Hs)).
      apply decrypt_encrypt_block.
      - exact Hs.
      - apply Forall_take_drop, Hb.
      - rewrite length_drop. lia. }
    rewrite <- H. unfold aes_decrypt_block. rewrite drop_drop.
    replace (16 * i + 16 * 0)%nat with (16 * i)%nat by lia. reflexivity.
  - rewrite flat_map_take_drop by (rewrite Hlen; f_equal; lia). reflexivity.
Qed.

Lemma reverse_keys_length rounds XEK XDK :
  length (reverse_keys rounds XEK XDK) = length XDK.
Proof.
  unfold reverse_keys. apply fold_left_length. intros.
  rewrite !length_insert. reflexivity.
Qed.

Lemma imc_keys_length len XDK : length (imc_keys len XDK) = length XDK.
Proof. unfold imc_keys. apply fold_left_length. intros. apply length_insert. Qed.

Lemma key_len_assert n :
  key_len n ->
  BOTAN_ASSERT ((n / 4 =? 4)%nat || (n / 4 =? 6)%nat || (n / 4 =? 8)%nat) = Done tt.
Proof. intros [-> | [-> | ->]]; reflexivity. Qed.

(** The key schedule succeeds on every valid key length and stores
    [length key + 24] words in each of EK and DK, and 16 bytes in each of ME
    and MD, with or without the ARM byte reversal. *)
Lemma aes_key_schedule_lengths arm key :
  key_len (length key) ->
  exists ks, aes_key_schedule arm key = Done ks /\
    length (EK ks) = (length key + 24)%nat /\
    length (DK ks) = (length key + 24)%nat /\
    length (ME ks) = 16%nat /\ length (MD ks) = 16%nat.
Proof.
  intros Hk. unfold aes_key_schedule. cbv zeta.
  rewrite (key_len_assert _ Hk).
  eexists. split; [reflexivity|]. cbn [EK DK ME MD].
  fold (XEK_of key).
  assert (length (take (length key + 24) (XEK_of key)) = (length key + 24)%nat) as H1
    by (rewrite length_take, XEK_of_length; lia).
  assert (length (take (length key + 24)
            (imc_keys (length key)
               (reverse_keys (length key / 4 + 6) (XEK_of key)
                  (replicate (length key + 32) 0)))) = (length key + 24)%nat) as H2
    by (rewrite length_take, imc_keys_length, reverse_keys_length, length_replicate; lia).
  destruct arm; rewrite ?length_map, H1, H2; repeat split; reflexivity.
Qed.

(** C2.  For every key of 16, 24 or 32 bytes and every 16-byte block, the
    T-table decryption of the T-table encryption of the block, both under
    the schedule aes_key_schedule computes from the key, returns the block. *)
Theorem aes_decrypt_encrypt (cache_line_size : nat) (key blk : list Z) :
  (4 <= cache_line_size)%nat ->
  key_len (length key) ->
  length blk = 16%nat ->
  Forall is_u8 blk ->
  (ks ← aes_key_schedule false key;
   ct ← aes_encrypt_n cache_line_size blk 1 (EK ks) (ME ks);
   aes_decrypt_n cache_line_size ct 1 (DK ks) (MD ks)) = Done blk.
Proof.
  intros Hc Hk Hlen Hb.
  destruct (aes_key_schedule_lengths false key Hk) as (ks & Hks & HE & HD & HM & HM').
  pose proof (key_schedule_ok key ks Hk Hks) as Hok.
  rewrite Hks. cbn [mbind outcome_bind].
  unfold aes_encrypt_n, aes_decrypt_n.
  rewrite HE, HD, HM, HM'.
  replace (negb (length key + 24 =? 0)%nat && (16 =? 16)%nat) with true
    by (symmetry; apply andb_true_intro; split;
        [apply negb_true_iff, Nat.eqb_neq; lia | reflexivity]).
  cbn [BOTAN_ASSERT mbind outcome_bind].
  replace (cache_line_size / 4 =? 0)%nat with false
    by (symmetry; apply Nat.eqb_neq; intros H0;
        apply Nat.div_small_iff in H0; lia).
  cbn [mbind outcome_bind].
  rewrite sweep_TE_zero, sweep_TD_zero. f_equal.
  apply decrypt_encrypt_blocks; [exact Hok | rewrite Hlen; reflexivity | exact Hb].
Qed.

Definition fips197_key : list Z := map Z.of_nat (seq 0 16).
Definition fips197_block : list Z := map (fun i => 17 * Z.of_nat i) (seq 0 16).

Lemma aes_decrypt_encrypt_witness :
  (ks ← aes_key_schedule false fips197_key;
   ct ← aes_encrypt_n 64 fips197_block 1 (EK ks) (ME ks);
   aes_decrypt_n 64 ct 1 (DK ks) (MD ks)) = Done fips197_block.
Proof.
  apply (aes_decrypt_encrypt 64 fips197_key fips197_block).
  - lia.
  - left. reflexivity.
  - reflexivity.
  - repeat (apply List.Forall_cons; [unfold is_u8; cbn; lia|]). apply List.Forall_nil.
Defined.

(** C5.  TE[82] and TD[99] are zero because SE[82] and SD[99] are, so the
    masked accumulator is zero for every cache line size, xor-ing it into the
    state changes nothing, and aes_encrypt_n / aes_decrypt_n return what the
    block loops return with the accumulator 0. *)
Theorem sweep_accumulator_is_zero :
  at_ SE 82 = 0 /\ at_ AES_TE 82 = 0 /\ at_ SD 99 = 0 /\ at_ AES_TD 99 = 0 /\
  (forall cache_line_size T0,
      sweep_TE cache_line_size = 0 /\ sweep_TD cache_line_size = 0 /\
      Z.lxor T0 (sweep_TE cache_line_size) = T0 /\
      Z.lxor T0 (sweep_TD cache_line_size) = T0) /\
  (forall cache_line_size inp blocks K M,
      aes_encrypt_n cache_line_size inp blocks K M =
      (_ ← BOTAN_ASSERT (negb (length K =? 0)%nat && (length M =? 16)%nat);
       if (cache_line_size / 4 =? 0)%nat then Hang
       else Done (aes_encrypt_blocks 0 inp blocks K M)) /\
      aes_decrypt_n cache_line_size inp blocks K M =
      (_ ← BOTAN_ASSERT (negb (length K =? 0)%nat && (length M =? 16)%nat);
       if (cache_line_size / 4 =? 0)%nat then Hang
       else Done (aes_decrypt_blocks 0 inp blocks K M))).
Proof.
  split; [vm_compute; reflexivity|].
  split; [vm_compute; reflexivity|].
  split; [vm_compute; reflexivity|].
  split; [vm_compute; reflexivity|].
  split.
  - intros cls T0. rewrite sweep_TE_zero, sweep_TD_zero, Z.lxor_0_r. auto.
  - intros cls inp blocks K M. unfold aes_encrypt_n, aes_decrypt_n.
    rewrite sweep_TE_zero, sweep_TD_zero. split; reflexivity.
Qed.

(** C6 (as the code has it).  After the key schedule on a key of 16, 24 or
    32 bytes, EK and DK each hold [length key + 24] words. *)
Theorem key_schedule_lengths (arm_aes : bool) (key : list Z) :
  key_len (length key) ->
  exists ks, aes_key_schedule arm_aes key = Done ks /\
    length (EK ks) = (length key + 24)%nat /\
    length (DK ks) = (length key + 24)%nat.
Proof.
  intros Hk.
  destruct (aes_key_schedule_lengths arm_aes key Hk) as (ks & Hks & HE & HD & _).
  exists ks. auto.
Qed.

Lemma key_schedule_lengths_witness :
  exists ks, aes_key_schedule false fips197_key = Done ks /\
    length (EK ks) = 40%nat /\ length (DK ks) = 40%nat.
Proof.
  apply (key_schedule_lengths false fips197_key). left. reflexivity.
Defined.

(** C6 as stated fails: a 16-byte key gives 40 words, not 16/4 + 24 = 28. *)
Lemma key_schedule_lengths_not_quarter :
  ~ (forall key ks,
       key_len (length key) -> aes_key_schedule false key = Done ks ->
       length (EK ks) = (length key / 4 + 24)%nat /\
       length (DK ks) = (length key / 4 + 24)%nat).
Proof.
  intros H.
  destruct (aes_key_schedule_lengths false fips197_key) as (ks & Hks & HE & _).
  { left. reflexivity. }
  destruct (H fips197_key ks) as [H1 _]; [left; reflexivity | exact Hks |].
  rewrite HE in H1. discriminate H1.
Qed.

End AESTheorems.

(** ** BigInt (src/lib/math/bigint/bigint.cpp) *)

Module BigInt.

Inductive Sign : Type := Negative | Positive.

(** A BigInt: the word register (least significant word first) and the sign. *)
Record t : Type := Build {
  m_reg : list Z;
  m_signedness : Sign
}.

Section Words.

(** BOTAN_MP_WORD_BITS, fixed by the build configuration (32 or 64); size_t
    is taken to be as wide as a word. *)
Variable MP_WORD_BITS : Z.

(** The number of words a growing register gets beyond the requested size;
    it depends on the capacity of the allocation, which is not modelled. *)
Variable slack : nat -> nat.

Definition is_word (x : Z) : Prop := 0 <= x < 2 ^ MP_WORD_BITS.

Definition wf (x : t) : Prop := Forall is_word (m_reg x).

(** Modelled from the spec: the accessors of bigint.h (not among the
    sources).  [size] is the length of the register, [word_at n] is word [n]
    or 0 beyond the register, [grow_to n] extends a shorter register with
    zero words to at least [n] words, and [set_word_at i w] grows the
    register to [i + 1] words when needed and then writes word [i]. *)
Definition size (x : t) : nat := length (m_reg x).

Definition word_at (x : t) (n : nat) : Z :=
  if (n <? size x)%nat then at_ (m_reg x) n else 0.

Definition grow_to (x : t) (n : nat) : t :=
  if (size x <? n)%nat
  then Build (m_reg x ++ replicate (n + slack n - size x) 0) (m_signedness x)
  else x.

Definition set_word_at (x : t) (i : nat) (w : Z) : t :=
  let x := if (size x <=? i)%nat then grow_to x (i + 1) else x in
  Build (<[ i := w ]> (m_reg x)) (m_signedness x).

Definition sign (x : t) : Sign := m_signedness x.

(** BigInt::ct_cond_assign *)
Definition ct_cond_assign (this : t) (predicate : bool) (other : t) : t :=
  let t_words := size this in
  let o_words := size other in
  let r_words := Nat.max t_words o_words in
  let mask := CT.expand_mask MP_WORD_BITS predicate in
  fold_left
    (fun this i =>
       set_word_at this i
         (CT.select MP_WORD_BITS mask (word_at other i) (word_at this i)))
    (seq 0 r_words) this.

(** BigInt::const_time_lookup: the new contents of [output]. *)
Definition const_time_lookup (output : list Z) (vec : list t) (idx : nat)
  : outcome (list Z) :=
  let words := length output in
  let output := replicate words 0 in
  fold_left
    (fun (acc : outcome (list Z)) i =>
       output ← acc;
       _ ← BOTAN_ASSERT (words <=? size (nth i vec (Build [] Positive)))%nat;
       let mask := CT.is_equal MP_WORD_BITS (Z.of_nat i) (Z.of_nat idx) in
       Done (fold_left
               (fun (output : list Z) w =>
                  <[ w := Z.lor (at_ output w)
                            (CT.select MP_WORD_BITS mask
                               (word_at (nth i vec (Build [] Positive)) w) 0) ]> output)
               (seq 0 words) output))
    (seq 0 (length vec)) (Done output).

End Words.

End BigInt.

(** * BigInt: conditional assignment and table lookup in constant time *)

Module BigIntFacts.
Import BigInt.

Lemma at_insert (l : list Z) i j v :
  (i < length l)%nat ->
  at_ (<[ i := v ]> l) j = if (j =? i)%nat then v else at_ l j.
Proof.
  unfold at_. revert i j. induction l as [|x l IH]; intros i j Hi; [cbn in Hi; lia|].
  destruct i as [|i], j as [|j]; cbn; try reflexivity.
  apply IH. cbn in Hi. lia.
Qed.

Lemma at_ge (l : list Z) j : (length l <= j)%nat -> at_ l j = 0.
Proof. intros H. unfold at_. apply nth_overflow. exact H. Qed.

Lemma at_replicate_0 n j : at_ (replicate n 0) j = 0.
Proof.
  unfold at_. revert j. induction n as [|n IH]; intros [|j]; cbn; auto.
Qed.

Lemma at_app_zeros (l : list Z) n j :
  at_ (l ++ replicate n 0) j = if (j <? length l)%nat then at_ l j else 0.
Proof.
  unfold at_. destruct (Nat.ltb_spec j (length l)) as [H | H].
  - apply app_nth1. exact H.
  - rewrite app_nth2 by exact H.
    apply (at_replicate_0 n (j - length l)).
Qed.

Section Words.

Variable W : Z.
Variable slack : nat -> nat.
Hypothesis W_nonneg : 0 <= W.

Lemma all_ones_land a : is_word W a -> Z.land a (CT.all_ones W) = a.
Proof.
  unfold is_word, CT.all_ones. intros H.
  change (2 ^ W - 1) with (Z.pred (2 ^ W)). rewrite <- Z.ones_equiv.
  rewrite Z.land_ones by exact W_nonneg. apply Z.mod_small. exact H.
Qed.

Lemma lnot_w_ones : CT.lnot_w W (CT.all_ones W) = 0.
Proof.
  unfold CT.lnot_w, CT.all_ones, Z.lnot.
  replace (Z.pred (- (2 ^ W - 1))) with (-1 * 2 ^ W) by lia.
  apply Z.mod_mul. pose proof (Z.pow_pos_nonneg 2 W). lia.
Qed.

Lemma lnot_w_zero : CT.lnot_w W 0 = CT.all_ones W.
Proof.
  unfold CT.lnot_w, CT.all_ones. change (Z.lnot 0) with (-1).
  pose proof (Z.pow_pos_nonneg 2 W ltac:(lia) W_nonneg).
  symmetry. apply (Z.mod_unique _ _ (-1)); lia.
Qed.

Lemma select_ones a b : is_word W a -> CT.select W (CT.all_ones W) a b = a.
Proof.
  intros H. unfold CT.select.
  rewrite lnot_w_ones, Z.land_0_r, Z.lor_0_r. apply all_ones_land, H.
Qed.

Lemma select_zero a b : is_word W b -> CT.select W 0 a b = b.
Proof.
  intros H. unfold CT.select.
  rewrite lnot_w_zero, Z.land_0_r, Z.lor_0_l. apply all_ones_land, H.
Qed.

Lemma select_expand_mask (p : bool) a b :
  is_word W a -> is_word W b ->
  CT.select W (CT.expand_mask W p) a b = if p then a else b.
Proof.
  intros Ha Hb. destruct p; cbn [CT.expand_mask];
    [apply select_ones | apply select_zero]; assumption.
Qed.

Lemma is_word_0 : is_word W 0.
Proof. unfold is_word. pose proof (Z.pow_pos_nonneg 2 W). lia. Qed.

Lemma word_at_is_word x n : wf W x -> is_word W (word_at x n).
Proof.
  unfold wf, word_at, size. intros H.
  destruct (Nat.ltb_spec n (length (m_reg x))) as [Hn | Hn]; [|apply is_word_0].
  rewrite List.Forall_forall in H. apply H, nth_In, Hn.
Qed.

Lemma word_at_set_word_at x i w j :
  word_at (set_word_at slack x i w) j = if (j =? i)%nat then w else word_at x j.
Proof.
  unfold set_word_at, grow_to, word_at, size. cbv zeta.
  destruct (Nat.leb_spec (length (m_reg x)) i) as [Hi | Hi].
  - replace (length (m_reg x) <? i + 1)%nat with true
      by (symmetry; apply Nat.ltb_lt; lia).
    cbn [m_reg]. rewrite length_insert, length_app, length_replicate.
    destruct (Nat.ltb_spec j
                (length (m_reg x) + (i + 1 + slack (i + 1) - length (m_reg x)))) as [Hj | Hj].
    + rewrite at_insert by (rewrite length_app, length_replicate; lia).
      rewrite at_app_zeros. reflexivity.
    + destruct (Nat.eqb_spec j i) as [-> | _]; [lia|].
      destruct (Nat.ltb_spec j (length (m_reg x))); [lia | reflexivity].
  - cbn [m_reg]. rewrite length_insert.
    destruct (Nat.ltb_spec j (length (m_reg x))) as [Hj | Hj].
    + apply at_insert. exact Hi.
    + destruct (Nat.eqb_spec j i) as [-> | _]; [lia | reflexivity].
Qed.

Lemma sign_set_word_at x i w : sign (set_word_at slack x i w) = sign x.
Proof.
  unfold set_word_at, grow_to, sign. cbv zeta.
  destruct (_ <=? _)%nat; [destruct (_ <? _)%nat|]; reflexivity.
Qed.

Lemma Forall_insert_word (l : list Z) i w :
  Forall (is_word W) l -> is_word W w -> Forall (is_word W) (<[ i := w ]> l).
Proof.
  revert i. induction l as [|x l IH]; intros i Hl Hw; [exact Hl|].
  inversion Hl; subst. destruct i; cbn; constructor; auto.
Qed.

Lemma wf_set_word_at x i w :
  wf W x -> is_word W w -> wf W (set_word_at slack x i w).
Proof.
  unfold wf, set_word_at, grow_to. cbv zeta. intros Hx Hw.
  destruct (_ <=? _)%nat; [destruct (_ <? _)%nat|]; cbn [m_reg];
    apply Forall_insert_word; try assumption.
  apply Forall_app. split; [exact Hx|].
  apply Forall_replicate, is_word_0.
Qed.

Lemma size_set_word_at x i w :
  (size x <= size (set_word_at slack x i w) /\ i < size (set_word_at slack x i w))%nat.
Proof.
  unfold set_word_at, grow_to, size. cbv zeta.
  destruct (Nat.leb_spec (length (m_reg x)) i) as [Hi | Hi].
  - replace (length (m_reg x) <? i + 1)%nat with true
      by (symmetry; apply Nat.ltb_lt; lia).
    cbn [m_reg]. rewrite length_insert, length_app, length_replicate. lia.
  - cbn [m_reg]. rewrite length_insert. lia.
Qed.

(** The loop of ct_cond_assign over the words [a .. a+n). *)
Lemma cond_assign_loop (p : bool) other n :
  wf W other ->
  forall a this, wf W this ->
  let this' :=
    fold_left
      (fun this i =>
         set_word_at slack this i
           (CT.select W (CT.expand_mask W p) (word_at other i) (word_at this i)))
      (seq a n) this in
  wf W this' /\ sign this' = sign this /\
  (size this <= size this')%nat /\
  (forall i, (a <= i < a + n)%nat -> (i < size this')%nat) /\
  forall i, word_at this' i =
            if (a <=? i)%nat && (i <? a + n)%nat
            then (if p then word_at other i else word_at this i)
            else word_at this i.
Proof.
  intros Ho. induction n as [|n IH]; intros a this Ht; cbn [seq fold_left].
  - repeat split; try assumption; try lia.
    intros i. destruct (a <=? i)%nat eqn:E1, (i <? a + 0)%nat eqn:E2; try reflexivity.
    apply Nat.leb_le in E1. apply Nat.ltb_lt in E2. lia.
  - set (w := CT.select W (CT.expand_mask W p) (word_at other a) (word_at this a)).
    assert (w = if p then word_at other a else word_at this a) as Hw
      by (apply select_expand_mask; apply word_at_is_word; assumption).
    assert (is_word W w) as Hww
      by (rewrite Hw; destruct p; apply word_at_is_word; assumption).
    destruct (IH (S a) (set_word_at slack this a w) (wf_set_word_at _ _ _ Ht Hww))
      as (H1 & H2 & H3 & H4 & H5).
    pose proof (size_set_word_at this a w) as (Hs1 & Hs2).
    repeat split.
    + exact H1.
    + rewrite H2. apply sign_set_word_at.
    + lia.
    + intros i Hi. destruct (Nat.eq_dec i a) as [-> | Hne]; [lia|]. apply H4. lia.
    + intros i. rewrite H5, word_at_set_word_at.
      destruct (Nat.eqb_spec i a) as [-> | Hne].
      * replace (S a <=? a)%nat with false by (symmetry; apply Nat.leb_gt; lia).
        replace (a <=? a)%nat with true by (symmetry; apply Nat.leb_le; lia).
        replace (a <? a + S n)%nat with true by (symmetry; apply Nat.ltb_lt; lia).
        cbn [andb]. exact Hw.
      * destruct (Nat.leb_spec (S a) i), (Nat.leb_spec a i),
                 (Nat.ltb_spec i (S a + n)), (Nat.ltb_spec i (a + S n));
          cbn [andb]; try reflexivity; lia.
Qed.

End Words.

(** C10.  a.ct_cond_assign(p, b) leaves the sign of [a] as it is, and every
    word of the result is the word of [b] when [p] holds and the word of [a]
    otherwise; so a negative [b] assigned to a positive [a] gives the
    magnitude of [b] with the positive sign of [a]. *)
Theorem ct_cond_assign_words_only (W : Z) (slack : nat -> nat) (a b : t) (p : bool) :
  0 <= W -> wf W a -> wf W b ->
  let a' := ct_cond_assign W slack a p b in
  sign a' = sign a /\
  (forall i, word_at a' i = if p then word_at b i else word_at a i) /\
  (sign a = Positive -> sign b = Negative -> p = true ->
   sign a' = Positive /\ forall i, word_at a' i = word_at b i).
Proof.
  intros HW Ha Hb a'.
  destruct (cond_assign_loop W slack HW p b (Nat.max (size a) (size b)) Hb 0%nat a Ha)
    as (_ & Hs & _ & _ & Hw).
  fold (ct_cond_assign W slack a p b) in Hs, Hw. fold a' in Hs, Hw.
  assert (forall i, word_at a' i = if p then word_at b i else word_at a i) as Hall.
  { intros i. rewrite Hw. cbn [Nat.leb Nat.add].
    destruct (Nat.ltb_spec i (Nat.max (size a) (size b))) as [Hi | Hi]; [reflexivity|].
    cbn [andb]. unfold word_at.
    replace (i <? size a)%nat with false by (symmetry; apply Nat.ltb_ge; lia).
    replace (i <? size b)%nat with false by (symmetry; apply Nat.ltb_ge; lia).
    destruct p; reflexivity. }
  split; [exact Hs|]. split; [exact Hall|].
  intros Hpos _ ->. split; [rewrite Hs; exact Hpos | exact Hall].
Qed.

Lemma ct_cond_assign_words_only_witness :
  let a := Build [5; 7] Positive in
  let b := Build [1; 2; 3] Negative in
  let a' := ct_cond_assign 64 (fun n => (8 - n mod 8)%nat) a true b in
  sign a' = Positive /\ forall i, word_at a' i = word_at b i.
Proof.
  intros a b a'.
  apply (ct_cond_assign_words_only 64 (fun n => (8 - n mod 8)%nat) a b true).
  - lia.
  - repeat (apply List.Forall_cons; [unfold is_word; lia|]). apply List.Forall_nil.
  - repeat (apply List.Forall_cons; [unfold is_word; lia|]). apply List.Forall_nil.
  - reflexivity.
  - reflexivity.
  - reflexivity.
Defined.

Lemma fold_insert_pointwise (g : nat -> Z -> Z) k :
  forall a (o : list Z), (a + k <= length o)%nat ->
  let o' := fold_left (fun (o : list Z) w => <[ w := g w (at_ o w) ]> o) (seq a k) o in
  length o' = length o /\
  forall j, at_ o' j = if (a <=? j)%nat && (j <? a + k)%nat then g j (at_ o j) else at_ o j.
Proof.
  induction k as [|k IH]; intros a o Hlen; cbn [seq fold_left].
  - split; [reflexivity|]. intros j.
    destruct (Nat.leb_spec a j), (Nat.ltb_spec j (a + 0)); cbn [andb]; try reflexivity; lia.
  - destruct (IH (S a) (<[ a := g a (at_ o a) ]> o)) as [H1 H2].
    { rewrite length_insert. lia. }
    split; [rewrite H1; apply length_insert|].
    intros j. rewrite H2, at_insert by lia.
    destruct (Nat.eqb_spec j a) as [-> | Hne].
    + replace (S a <=? a)%nat with false by (symmetry; apply Nat.leb_gt; lia).
      replace (a <=? a)%nat with true by (symmetry; apply Nat.leb_le; lia).
      replace (a <? a + S k)%nat with true by (symmetry; apply Nat.ltb_lt; lia).
      reflexivity.
    + destruct (Nat.leb_spec (S a) j), (Nat.leb_spec a j),
               (Nat.ltb_spec j (S a + k)), (Nat.ltb_spec j (a + S k));
        cbn [andb]; try reflexivity; lia.
Qed.

Lemma list_eq_at (l l' : list Z) :
  length l = length l' -> (forall j, at_ l j = at_ l' j) -> l = l'.
Proof. intros Hlen H. apply (nth_ext l l' 0 0 Hlen). intros n _. apply H. Qed.

Lemma at_take_reg (l : list Z) n j :
  (n <= length l)%nat ->
  at_ (take n l) j = if (j <? n)%nat then at_ l j else 0.
Proof.
  intros Hn. destruct (Nat.ltb_spec j n) as [Hj | Hj].
  - unfold at_. revert l j Hn Hj. induction n as [|n IH]; intros l j Hn Hj; [lia|].
    destruct l as [|x l]; [cbn in Hn; lia|].
    destruct j as [|j]; [reflexivity|]. cbn. apply IH; cbn in Hn; lia.
  - apply at_ge. rewrite length_take. lia.
Qed.

Section Lookup.

Variable W : Z.
Hypothesis W_nonneg : 0 <= W.

(** One pass of the inner loop of const_time_lookup over the output words. *)
Definition lookup_pass (mask : Z) (v : t) (output : list Z) : list Z :=
  fold_left
    (fun (output : list Z) w =>
       <[ w := Z.lor (at_ output w) (CT.select W mask (word_at v w) 0) ]> output)
    (seq 0 (length output)) output.

Lemma lookup_pass_miss v output : lookup_pass 0 v output = output.
Proof.
  unfold lookup_pass.
  destruct (fold_insert_pointwise
              (fun w x => Z.lor x (CT.select W 0 (word_at v w) 0))
              (length output) 0 output) as [H1 H2]; [lia|].
  apply list_eq_at; [exact H1|]. intros j. rewrite H2.
  destruct (_ && _); [|reflexivity].
  rewrite (select_zero W W_nonneg) by apply (is_word_0 W W_nonneg).
  apply Z.lor_0_r.
Qed.

Lemma lookup_pass_hit v n :
  wf W v -> (n <= size v)%nat ->
  lookup_pass (CT.all_ones W) v (replicate n 0) = take n (m_reg v).
Proof.
  intros Hv Hn. unfold lookup_pass. rewrite length_replicate.
  destruct (fold_insert_pointwise
              (fun w x => Z.lor x (CT.select W (CT.all_ones W) (word_at v w) 0))
              n 0 (replicate n 0)) as [H1 H2]; [rewrite length_replicate; lia|].
  apply list_eq_at.
  - rewrite H1, length_replicate, length_take. unfold size in Hn. lia.
  - intros j. rewrite H2, at_replicate_0, at_take_reg by exact Hn.
    cbn [Nat.leb Nat.add andb].
    destruct (Nat.ltb_spec j n) as [Hj | Hj]; [|reflexivity].
    rewrite (select_ones W W_nonneg) by (apply word_at_is_word; assumption).
    rewrite Z.lor_0_l. unfold word_at.
    replace (j <? size v)%nat with true by (symmetry; apply Nat.ltb_lt; lia).
    reflexivity.
Qed.

Lemma is_equal_index i idx :
  CT.is_equal W (Z.of_nat i) (Z.of_nat idx) =
  if (i =? idx)%nat then CT.all_ones W else 0.
Proof.
  unfold CT.is_equal, CT.is_zero.
  destruct (Nat.eqb_spec i idx) as [-> | Hne].
  - rewrite Z.lxor_nilpotent. reflexivity.
  - destruct (Z.eqb_spec (Z.lxor (Z.of_nat i) (Z.of_nat idx)) 0) as [H | H]; [|reflexivity].
    apply Z.lxor_eq in H. lia.
Qed.

Definition lookup_result (n : nat) (vec : list t) (idx k : nat) : list Z :=
  if (idx <? k)%nat then take n (m_reg (nth idx vec (Build [] Positive)))
  else replicate n 0.

Lemma lookup_loop n vec idx :
  (forall v, In v vec -> wf W v /\ (n <= size v)%nat) ->
  forall k a, (a + k <= length vec)%nat ->
  fold_left
    (fun (acc : outcome (list Z)) i =>
       output ← acc;
       _ ← BOTAN_ASSERT (n <=? size (nth i vec (Build [] Positive)))%nat;
       let mask := CT.is_equal W (Z.of_nat i) (Z.of_nat idx) in
       Done (fold_left
               (fun (output : list Z) w =>
                  <[ w := Z.lor (at_ output w)
                            (CT.select W mask
                               (word_at (nth i vec (Build [] Positive)) w) 0) ]> output)
               (seq 0 n) output))
    (seq a k) (Done (lookup_result n vec idx a))
  = Done (lookup_result n vec idx (a + k)).
Proof.
  intros Hvec. induction k as [|k IH]; intros a Hak; cbn [seq fold_left].
  - rewrite Nat.add_0_r. reflexivity.
  - replace (a + S k)%nat with (S a + k)%nat by lia.
    rewrite <- IH by lia. f_equal.
    cbn [mbind outcome_bind].
    destruct (Hvec (nth a vec (Build [] Positive))) as [Hwf Hsz]; [apply nth_In; lia|].
    replace (n <=? size (nth a vec (Build [] Positive)))%nat with true
      by (symmetry; apply Nat.leb_le; exact Hsz).
    cbn [BOTAN_ASSERT mbind outcome_bind]. f_equal.
    assert (length (lookup_result n vec idx a) = n) as Hlen.
    { unfold lookup_result. destruct (idx <? a)%nat eqn:E.
      - apply Nat.ltb_lt in E.
        destruct (Hvec (nth idx vec (Build [] Positive))) as [_ Hs]; [apply nth_In; lia|].
        rewrite length_take. unfold size in Hs. lia.
      - apply length_replicate. }
    rewrite <- Hlen at 1.
    fold (lookup_pass (CT.is_equal W (Z.of_nat a) (Z.of_nat idx))
            (nth a vec (Build [] Positive)) (lookup_result n vec idx a)).
    rewrite is_equal_index. unfold lookup_result.
    destruct (Nat.eqb_spec a idx) as [-> | Hne].
    + replace (idx <? idx)%nat with false by (symmetry; apply Nat.ltb_ge; lia).
      replace (idx <? S idx)%nat with true by (symmetry; apply Nat.ltb_lt; lia).
      apply lookup_pass_hit; assumption.
    + rewrite lookup_pass_miss.
      destruct (Nat.ltb_spec idx a), (Nat.ltb_spec idx (S a)); try reflexivity; lia.
Qed.

End Lookup.

(** C9.  With every entry of [vec] at least as long as [output],
    const_time_lookup raises nothing and leaves in [output] the low words of
    vec[idx], or zeros when [idx] is not an index of [vec]. *)
Theorem const_time_lookup_spec (W : Z) (output : list Z) (vec : list t) (idx : nat) :
  0 <= W ->
  (forall v, In v vec -> wf W v /\ (length output <= size v)%nat) ->
  const_time_lookup W output vec idx =
  Done (if (idx <? length vec)%nat
        then take (length output) (m_reg (nth idx vec (Build [] Positive)))
        else replicate (length output) 0).
Proof.
  intros HW Hvec. unfold const_time_lookup. cbv zeta.
  pose proof (lookup_loop W HW (length output) vec idx Hvec (length vec) 0%nat) as H.
  unfold lookup_result in H. cbn [Nat.ltb Nat.leb Nat.add] in H.
  apply H. lia.
Qed.

Lemma const_time_lookup_spec_witness :
  const_time_lookup 64 [9; 9] [Build [1; 2; 3] Positive; Build [4; 5] Negative] 1 =
  Done [4; 5] /\
  const_time_lookup 64 [9; 9] [Build [1; 2; 3] Positive; Build [4; 5] Negative] 2 =
  Done [0; 0].
Proof.
  split.
  - apply (const_time_lookup_spec 64 [9; 9]
             [Build [1; 2; 3] Positive; Build [4; 5] Negative] 1); [lia|].
    intros v [<- | [<- | []]]; (split; [|cbn; lia]);
      repeat (apply List.Forall_cons; [unfold is_word; lia|]); apply List.Forall_nil.
  - apply (const_time_lookup_spec 64 [9; 9]
             [Build [1; 2; 3] Positive; Build [4; 5] Negative] 2); [lia|].
    intros v [<- | [<- | []]]; (split; [|cbn; lia]);
      repeat (apply List.Forall_cons; [unfold is_word; lia|]); apply List.Forall_nil.
Defined.

End BigIntFacts.

(** ** XMSS parameter sets (src/lib/pubkey/xmss/xmss_parameters.cpp) *)

Module XMSS.

Local Open Scope string_scope.

(** Modelled from the spec: the algorithm identifiers of xmss_parameters.h and
    xmss_wots_parameters.h (not among the sources): the six SHA-2 sets the
    code supports and the six SHAKE sets it names in its disabled cases. *)
Inductive xmss_algorithm_t : Type :=
  | XMSS_SHA2_256_W16_H10 | XMSS_SHA2_256_W16_H16 | XMSS_SHA2_256_W16_H20
  | XMSS_SHA2_512_W16_H10 | XMSS_SHA2_512_W16_H16 | XMSS_SHA2_512_W16_H20
  | XMSS_SHAKE128_W16_H10 | XMSS_SHAKE128_W16_H16 | XMSS_SHAKE128_W16_H20
  | XMSS_SHAKE256_W16_H10 | XMSS_SHAKE256_W16_H16 | XMSS_SHAKE256_W16_H20.

Inductive ots_algorithm_t : Type :=
  | WOTSP_SHA2_256_W16 | WOTSP_SHA2_512_W16
  | WOTSP_SHAKE128_W16 | WOTSP_SHAKE256_W16.

Record XMSS_Parameters : Type := Build_XMSS_Parameters {
  m_oid : xmss_algorithm_t;
  m_element_size : nat;
  m_w : nat;
  m_len : nat;
  m_tree_height : nat;
  m_name : string;
  m_hash_name : string;
  m_strength : nat;
  m_wots_oid : ots_algorithm_t
}.

(** XMSS_Parameters::m_oid_name_lut *)
Definition m_oid_name_lut : gmap string xmss_algorithm_t :=
  list_to_map
    [ ("XMSS_SHA2-256_W16_H10", XMSS_SHA2_256_W16_H10);
      ("XMSS_SHA2-256_W16_H16", XMSS_SHA2_256_W16_H16);
      ("XMSS_SHA2-256_W16_H20", XMSS_SHA2_256_W16_H20);
      ("XMSS_SHA2-512_W16_H10", XMSS_SHA2_512_W16_H10);
      ("XMSS_SHA2-512_W16_H16", XMSS_SHA2_512_W16_H16);
      ("XMSS_SHA2-512_W16_H20", XMSS_SHA2_512_W16_H20) ].

(** XMSS_Parameters::XMSS_Parameters(xmss_algorithm_t) *)
Definition XMSS_Parameters_of_oid (oid : xmss_algorithm_t) : outcome XMSS_Parameters :=
  match oid with
  | XMSS_SHA2_256_W16_H10 =>
      Done (Build_XMSS_Parameters oid 32 16 67 10 "XMSS_SHA2-256_W16_H10" "SHA-256" 256
              WOTSP_SHA2_256_W16)
  | XMSS_SHA2_256_W16_H16 =>
      Done (Build_XMSS_Parameters oid 32 16 67 16 "XMSS_SHA2-256_W16_H16" "SHA-256" 256
              WOTSP_SHA2_256_W16)
  | XMSS_SHA2_256_W16_H20 =>
      Done (Build_XMSS_Parameters oid 32 16 67 20 "XMSS_SHA2-256_W16_H20" "SHA-256" 256
              WOTSP_SHA2_256_W16)
  | XMSS_SHA2_512_W16_H10 =>
      Done (Build_XMSS_Parameters oid 64 16 131 10 "XMSS_SHA2-512_W16_H10" "SHA-512" 512
              WOTSP_SHA2_512_W16)
  | XMSS_SHA2_512_W16_H16 =>
      Done (Build_XMSS_Parameters oid 64 16 131 16 "XMSS_SHA2-512_W16_H16" "SHA-512" 512
              WOTSP_SHA2_512_W16)
  | XMSS_SHA2_512_W16_H20 =>
      Done (Build_XMSS_Parameters oid 64 16 131 20 "XMSS_SHA2-512_W16_H20" "SHA-512" 512
              WOTSP_SHA2_512_W16)
  | _ => Raise Unsupported_Argument
  end.

(** XMSS_Parameters::XMSS_Parameters(const std::string&): std::map::at throws
    std::out_of_range for a key that is not in the map. *)
Definition XMSS_Parameters_of_name (algo_name : string) : outcome XMSS_Parameters :=
  match m_oid_name_lut !! algo_name with
  | Some oid => XMSS_Parameters_of_oid oid
  | None => Raise Std_out_of_range
  end.

End XMSS.

(** * XMSS: resolving a parameter set *)

Module XMSSFacts.
Import XMSS.

Local Open Scope string_scope.

Definition supported_names : list string :=
  [ "XMSS_SHA2-256_W16_H10"; "XMSS_SHA2-256_W16_H16"; "XMSS_SHA2-256_W16_H20";
    "XMSS_SHA2-512_W16_H10"; "XMSS_SHA2-512_W16_H16"; "XMSS_SHA2-512_W16_H20" ].

Lemma lut_unknown name : ~ In name supported_names -> m_oid_name_lut !! name = None.
Proof.
  intros H. unfold m_oid_name_lut. apply not_elem_of_list_to_map_1.
  intros Hin. apply H. apply list_elem_of_In. exact Hin.
Qed.

Lemma lut_known :
  m_oid_name_lut !! "XMSS_SHA2-256_W16_H10" = Some XMSS_SHA2_256_W16_H10 /\
  m_oid_name_lut !! "XMSS_SHA2-256_W16_H16" = Some XMSS_SHA2_256_W16_H16 /\
  m_oid_name_lut !! "XMSS_SHA2-256_W16_H20" = Some XMSS_SHA2_256_W16_H20 /\
  m_oid_name_lut !! "XMSS_SHA2-512_W16_H10" = Some XMSS_SHA2_512_W16_H10 /\
  m_oid_name_lut !! "XMSS_SHA2-512_W16_H16" = Some XMSS_SHA2_512_W16_H16 /\
  m_oid_name_lut !! "XMSS_SHA2-512_W16_H20" = Some XMSS_SHA2_512_W16_H20.
Proof.
  unfold m_oid_name_lut.
  repeat split; apply elem_of_list_to_map_1;
    try (cbn; repeat constructor; set_solver);
    repeat (first [apply list_elem_of_here | apply list_elem_of_further]).
Qed.

Lemma lut_unknown_raise name :
  ~ In name supported_names -> XMSS_Parameters_of_name name = Raise Std_out_of_range.
Proof.
  intros H. unfold XMSS_Parameters_of_name. rewrite (lut_unknown name H). reflexivity.
Qed.

(** C8 (as the code has it).  A name that is not one of the six supported
    ones makes the constructor throw std::out_of_range, the exception of
    std::map::at; each of the six supported names gives its parameter record. *)
Theorem XMSS_Parameters_of_name_spec :
  (forall name, ~ In name supported_names ->
     XMSS_Parameters_of_name name = Raise Std_out_of_range) /\
  XMSS_Parameters_of_name "XMSS_SHA2-256_W16_H10" =
    Done (Build_XMSS_Parameters XMSS_SHA2_256_W16_H10 32 16 67 10
            "XMSS_SHA2-256_W16_H10" "SHA-256" 256 WOTSP_SHA2_256_W16) /\
  XMSS_Parameters_of_name "XMSS_SHA2-256_W16_H16" =
    Done (Build_XMSS_Parameters XMSS_SHA2_256_W16_H16 32 16 67 16
            "XMSS_SHA2-256_W16_H16" "SHA-256" 256 WOTSP_SHA2_256_W16) /\
  XMSS_Parameters_of_name "XMSS_SHA2-256_W16_H20" =
    Done (Build_XMSS_Parameters XMSS_SHA2_256_W16_H20 32 16 67 20
            "XMSS_SHA2-256_W16_H20" "SHA-256" 256 WOTSP_SHA2_256_W16) /\
  XMSS_Parameters_of_name "XMSS_SHA2-512_W16_H10" =
    Done (Build_XMSS_Parameters XMSS_SHA2_512_W16_H10 64 16 131 10
            "XMSS_SHA2-512_W16_H10" "SHA-512" 512 WOTSP_SHA2_512_W16) /\
  XMSS_Parameters_of_name "XMSS_SHA2-512_W16_H16" =
    Done (Build_XMSS_Parameters XMSS_SHA2_512_W16_H16 64 16 131 16
            "XMSS_SHA2-512_W16_H16" "SHA-512" 512 WOTSP_SHA2_512_W16) /\
  XMSS_Parameters_of_name "XMSS_SHA2-512_W16_H20" =
    Done (Build_XMSS_Parameters XMSS_SHA2_512_W16_H20 64 16 131 20
            "XMSS_SHA2-512_W16_H20" "SHA-512" 512 WOTSP_SHA2_512_W16).
Proof.
  destruct lut_known as (H1 & H2 & H3 & H4 & H5 & H6).
  unfold XMSS_Parameters_of_name.
  split; [intros name Hn; rewrite (lut_unknown name Hn); reflexivity|].
  rewrite H1, H2, H3, H4, H5, H6. repeat split; reflexivity.
Qed.

Lemma not_supported_shake : ~ In "XMSS_SHAKE128_W16_H10" supported_names.
Proof. cbn. intros H. repeat (destruct H as [H | H]; [discriminate H|]). exact H. Qed.

Lemma XMSS_Parameters_of_name_spec_witness :
  XMSS_Parameters_of_name "XMSS_SHAKE128_W16_H10" = Raise Std_out_of_range.
Proof.
  apply (proj1 XMSS_Parameters_of_name_spec "XMSS_SHAKE128_W16_H10").
  exact not_supported_shake.
Defined.

(** C8 as stated fails: the exception for an unknown name is not
    Invalid_Argument. *)
Lemma XMSS_unknown_name_not_Invalid_Argument :
  ~ In "XMSS_SHAKE128_W16_H10" supported_names /\
  XMSS_Parameters_of_name "XMSS_SHAKE128_W16_H10" <> Raise Invalid_Argument.
Proof.
  split; [exact not_supported_shake|].
  rewrite (lut_unknown_raise "XMSS_SHAKE128_W16_H10" not_supported_shake).
  discriminate.
Qed.

End XMSSFacts.

(** ** Ed448 (src/lib/pubkey/curve448/ed448/ed448_internal.cpp) *)

Module Ed448.

Definition ED448_LEN : nat := 57.
Definition WORDS_448 : nat := 7.
Definition MINUS_D : Z := 39081.

(** Little-endian byte strings and word arrays as integers. *)
Fixpoint le_to_Z (base : Z) (l : list Z) : Z :=
  match l with
  | [] => 0
  | b :: l' => b + base * le_to_Z base l'
  end.

Definition Z_to_le (base : Z) (n : nat) (v : Z) : list Z :=
  map (fun i => (v / base ^ Z.of_nat i) mod base) (seq 0 n).

(** Modelled from the spec: Gf448Elem (curve448_gf.h is not among the
    sources), a field element modulo p = 2^448 - 2^224 - 1 held as its
    canonical representative, with +, -, *, square, inverse, root (the
    (p-3)/4 power), the canonical byte encoding and the check that 56 bytes
    encode a value below p. *)
Module Gf.

(** p = 2^448 - 2^224 - 1 *)
Definition p : Z := Eval cbv in 2 ^ 448 - 2 ^ 224 - 1.

Definition add (a b : Z) : Z := (a + b) mod p.
Definition sub (a b : Z) : Z := (a - b) mod p.
Definition neg (a : Z) : Z := (- a) mod p.
Definition mul (a b : Z) : Z := (a * b) mod p.
Definition square (a : Z) : Z := mul a a.

(** [a ^ e] modulo p by square and multiply. *)
Fixpoint pow_pos (a : Z) (e : positive) : Z :=
  match e with
  | xH => a mod p
  | xO e' => square (pow_pos a e')
  | xI e' => mul (square (pow_pos a e')) a
  end.

Definition pow (a e : Z) : Z :=
  match e with
  | Zpos e' => pow_pos a e'
  | _ => 1
  end.

Definition root_exponent : Z := Eval cbv in (p - 3) / 4.
Definition inverse_exponent : Z := Eval cbv in p - 2.

Definition root (a : Z) : Z := pow a root_exponent.
Definition inverse (a : Z) : Z := pow a inverse_exponent.
Definition div (a b : Z) : Z := mul a (inverse b).

Definition of_u64 (w : Z) : Z := w mod p.
Definition of_bytes (b : list Z) : Z := le_to_Z 256 b mod p.
Definition of_words (w : list Z) : Z := le_to_Z (2 ^ 64) w mod p.
Definition to_bytes (a : Z) : list Z := Z_to_le 256 56 a.
Definition words (a : Z) : list Z := Z_to_le (2 ^ 64) 7 a.

Definition is_zero (a : Z) : bool := a =? 0.
Definition is_odd (a : Z) : bool := Z.odd a.
Definition eqb (a b : Z) : bool := a =? b.

Definition bytes_are_canonical_representation (b : list Z) : bool :=
  le_to_Z 256 b <? p.

Definition ct_cond_assign (a : Z) (cond : bool) (b : Z) : Z := if cond then b else a.

End Gf.

(** Modelled from the spec: Scalar448 (ed448_internal.h is not among the
    sources), an integer modulo the group order L, built from little-endian
    bytes by reduction, with +, *, get_bit, the 57-byte encoding and the check
    that 57 bytes encode a value below L. *)
Module Sc.

(** L = 2^446 - 13818066809895115352007386748515426880336692474882178609894547503885 *)
Definition L : Z :=
  Eval cbv in
    2 ^ 446 - 13818066809895115352007386748515426880336692474882178609894547503885.

Definition of_bytes (b : list Z) : Z := le_to_Z 256 b mod L.
Definition add (a b : Z) : Z := (a + b) mod L.
Definition mul (a b : Z) : Z := (a * b) mod L.
Definition get_bit (s : Z) (i : nat) : bool := Z.testbit s (Z.of_nat i).
Definition to_bytes (s : Z) : list Z := Z_to_le 256 57 s.
Definition bytes_are_reduced (b : list Z) : bool := le_to_Z 256 b <? L.

End Sc.

(** A point in projective coordinates. *)
Record Ed448Point : Type := Point {
  m_x : Z;
  m_y : Z;
  m_z : Z
}.

(** Modelled from the spec: the two-coordinate constructor and the affine
    accessors of Ed448Point (ed448_internal.h is not among the sources). *)
Definition Point_xy (x y : Z) : Ed448Point := Point x y 1.
Definition x (P : Ed448Point) : Z := Gf.div (m_x P) (m_z P).
Definition y (P : Ed448Point) : Z := Gf.div (m_y P) (m_z P).

(** dom4 *)
Definition dom4 (x : Z) (y : list Z) : outcome (list Z) :=
  _ ← BOTAN_ARG_CHECK (length y <? 256)%nat;
  Done ([83; 105; 103; 69; 100; 52; 52; 56] ++ [x] ++ [u8 (Z.of_nat (length y))] ++ y).

(** The candidate root of Ed448Point::decode for the y-coordinate [y]. *)
Definition decode_u (y : Z) : Z := Gf.sub (Gf.square y) (Gf.of_u64 1).

Definition decode_v (y : Z) : Z :=
  let d := Gf.neg (Gf.of_u64 MINUS_D) in
  Gf.sub (Gf.mul d (Gf.square y)) (Gf.of_u64 1).

Definition decode_maybe_x (y : Z) : Z :=
  let u := decode_u y in
  let v := decode_v y in
  Gf.mul (Gf.mul (Gf.mul u (Gf.square u)) v)
         (Gf.root (Gf.mul (Gf.mul (Gf.mul (Gf.square (Gf.square u)) u) (Gf.square v)) v)).

(** CT::Mask<uint64_t>::expand(c).select_n(out, x, y, len) *)
Definition select_n (c : bool) (x y : list Z) (len : nat) : list Z :=
  map (fun i => CT.select 64 (CT.expand_mask 64 c) (at_ x i) (at_ y i)) (seq 0 len).

(** Ed448Point::decode *)
Definition decode (enc : list Z) : outcome Ed448Point :=
  let back := at_ enc (ED448_LEN - 1) in
  if negb (Z.land back 0x7F =? 0) then Raise Decoding_Error
  else
    let x_distinguisher := negb (back =? 0) in
    let y_data := take 56 enc in
    if negb (Gf.bytes_are_canonical_representation y_data) then Raise Decoding_Error
    else
      let y := Gf.of_bytes y_data in
      let u := decode_u y in
      let v := decode_v y in
      let maybe_x := decode_maybe_x y in
      if negb (Gf.eqb (Gf.mul v (Gf.square maybe_x)) u) then Raise Decoding_Error
      else if Gf.is_zero maybe_x && x_distinguisher then Raise Decoding_Error
      else
        let maybe_x_parity := Gf.is_odd maybe_x in
        let x_data :=
          select_n (Bool.eqb maybe_x_parity x_distinguisher)
                   (Gf.words maybe_x) (Gf.words (Gf.neg maybe_x)) 7 in
        Done (Point_xy (Gf.of_words x_data) y).

(** Ed448Point::base_point *)
Definition base_point : Ed448Point :=
  Point_xy
    (Gf.of_words [0x2626a82bc70cc05e; 0x433b80e18b00938e; 0x12ae1af72ab66511;
                  0xea6de324a3d3a464; 0x9e146570470f1767; 0x221d15a622bf36da;
                  0x4f1970c66bed0ded])
    (Gf.of_words [0x9808795bf230fa14; 0xfdbd132c4ed7c8ad; 0x3ad3ff1ce67c39c4;
                  0x87789c1e05a0c2d7; 0x4bea73736ca39840; 0x8876203756c9c762;
                  0x693f46716eb6bc24]).

(** Ed448Point::encode *)
Definition encode (P : Ed448Point) : list Z :=
  Gf.to_bytes (y P) ++ [Z.shiftl (Z.b2z (Gf.is_odd (x P))) 7].

(** Ed448Point::operator+ *)
Definition point_add (P Q : Ed448Point) : Ed448Point :=
  let A := Gf.mul (m_z P) (m_z Q) in
  let B := Gf.square A in
  let C := Gf.mul (m_x P) (m_x Q) in
  let D := Gf.mul (m_y P) (m_y Q) in
  let E := Gf.mul (Gf.mul (Gf.neg (Gf.of_u64 MINUS_D)) C) D in
  let F := Gf.sub B E in
  let G := Gf.add B E in
  let H := Gf.mul (Gf.add (m_x P) (m_y P)) (Gf.add (m_x Q) (m_y Q)) in
  let X3 := Gf.mul (Gf.mul A F) (Gf.sub (Gf.sub H C) D) in
  let Y3 := Gf.mul (Gf.mul A G) (Gf.sub D C) in
  let Z3 := Gf.mul F G in
  Point X3 Y3 Z3.

(** Ed448Point::double_point *)
Definition double_point (P : Ed448Point) : Ed448Point :=
  let B := Gf.square (Gf.add (m_x P) (m_y P)) in
  let C := Gf.square (m_x P) in
  let D := Gf.square (m_y P) in
  let E := Gf.add C D in
  let H := Gf.square (m_z P) in
  let J := Gf.sub E (Gf.add H H) in
  let X3 := Gf.mul (Gf.sub B E) J in
  let Y3 := Gf.mul E (Gf.sub C D) in
  let Z3 := Gf.mul E J in
  Point X3 Y3 Z3.

(** Ed448Point::ct_conditional_assign *)
Definition ct_conditional_assign (P : Ed448Point) (cond : bool) (Q : Ed448Point)
  : Ed448Point :=
  Point (Gf.ct_cond_assign (m_x P) cond (m_x Q))
        (Gf.ct_cond_assign (m_y P) cond (m_y Q))
        (Gf.ct_cond_assign (m_z P) cond (m_z Q)).

(** Ed448Point::scalar_mul: the bits 445 .. 0 of the scalar, most
    significant first. *)
Definition scalar_mul (P : Ed448Point) (s : Z) : Ed448Point :=
  fold_left
    (fun res i =>
       let res := double_point res in
       let add_sum := point_add res P in
       ct_conditional_assign res (Sc.get_bit s i) add_sum)
    (rev (seq 0 446)) (Point_xy 0 1).

(** Ed448Point::operator== *)
Definition point_eqb (P Q : Ed448Point) : bool :=
  Gf.eqb (x P) (x Q) && Gf.eqb (y P) (y Q).

Section Shake.

(** SHAKE-256 as an extendable-output function (shake_xof.h is not among the
    sources): byte [i] of the output stream for the absorbed input. *)
Variable SHAKE_256_XOF : list Z -> nat -> Z.

(** [n] output bytes from position [pos] of the stream. *)
Definition xof_output (input : list Z) (pos n : nat) : list Z :=
  map (SHAKE_256_XOF input) (seq pos n).

(** shake(f, context, xs...): 114 bytes of SHAKE256(dom4(f, context) || xs). *)
Definition shake (f : bool) (context : list Z) (xs : list Z) : outcome (list Z) :=
  d ← dom4 (Z.b2z f) context;
  Done (xof_output (d ++ xs) 0 (2 * ED448_LEN)).

(** scalar_from_xof: the first 57 output bytes, pruned. *)
Definition scalar_from_xof (input : list Z) : Z :=
  let raw_s := xof_output input 0 ED448_LEN in
  let raw_s := <[ 0%nat := Z.land (at_ raw_s 0) 0xFC ]> raw_s in
  let raw_s := <[ 55%nat := Z.lor (at_ raw_s 55) 0x80 ]> raw_s in
  let raw_s := <[ 56%nat := 0 ]> raw_s in
  Sc.of_bytes raw_s.

(** create_pk_from_sk *)
Definition create_pk_from_sk (sk : list Z) : list Z :=
  let s := scalar_from_xof sk in
  encode (scalar_mul base_point s).

(** sign_message *)
Definition sign_message (sk pk : list Z) (pgflag : bool) (context msg : list Z)
  : outcome (list Z) :=
  let s := scalar_from_xof sk in
  let prefix := xof_output sk ED448_LEN ED448_LEN in
  h ← shake pgflag context (prefix ++ msg);
  let r := Sc.of_bytes h in
  let big_r := encode (scalar_mul base_point r) in
  h' ← shake pgflag context (big_r ++ pk ++ msg);
  let k := Sc.of_bytes h' in
  let big_s := Sc.add r (Sc.mul k s) in
  let sig := big_r ++ Sc.to_bytes big_s in
  _ ← BOTAN_ASSERT (length sig =? 2 * ED448_LEN)%nat;
  Done sig.

(** verify_signature *)
Definition verify_signature (pk : list Z) (phflag : bool) (context sig msg : list Z)
  : outcome bool :=
  if negb (length sig =? 2 * ED448_LEN)%nat then Raise Decoding_Error
  else
    let big_r_bytes := take ED448_LEN sig in
    let big_s_bytes := take ED448_LEN (drop ED448_LEN sig) in
    big_r ← decode big_r_bytes;
    if negb (Sc.bytes_are_reduced big_s_bytes) then Raise Decoding_Error
    else
      let big_s := Sc.of_bytes big_s_bytes in
      h ← shake phflag context (big_r_bytes ++ pk ++ msg);
      let k := Sc.of_bytes h in
      A ← decode pk;
      Done (point_eqb (scalar_mul base_point big_s)
                      (point_add big_r (scalar_mul A k))).

End Shake.

End Ed448.

(** * Ed448: the domain separation prefix and the context length *)

Module Ed448Context.
Import Ed448.

Definition SigEd448 : list Z := [83; 105; 103; 69; 100; 52; 52; 56].

Lemma dom4_short x y :
  (length y < 256)%nat ->
  dom4 x y = Done (SigEd448 ++ [x] ++ [Z.of_nat (length y)] ++ y).
Proof.
  intros H. unfold dom4.
  replace (length y <? 256)%nat with true by (symmetry; apply Nat.ltb_lt; exact H).
  cbn [BOTAN_ARG_CHECK mbind outcome_bind].
  unfold u8. rewrite Z.mod_small by (change (2 ^ 8) with 256; lia). reflexivity.
Qed.

Lemma dom4_long x y : (256 <= length y)%nat -> dom4 x y = Raise Invalid_Argument.
Proof.
  intros H. unfold dom4.
  replace (length y <? 256)%nat with false by (symmetry; apply Nat.ltb_ge; exact H).
  reflexivity.
Qed.

Lemma Z_to_le_length base n v : length (Z_to_le base n v) = n.
Proof. unfold Z_to_le. rewrite length_map. apply length_seq. Qed.

Lemma encode_length P : length (encode P) = 57%nat.
Proof.
  unfold encode, Gf.to_bytes. rewrite length_app, Z_to_le_length. reflexivity.
Qed.

Section Shake.

Variable XOF : list Z -> nat -> Z.

Lemma shake_short f context xs :
  (length context < 256)%nat ->
  exists h, shake XOF f context xs = Done h /\ length h = 114%nat.
Proof.
  intros H. unfold shake. rewrite dom4_short by exact H.
  cbn [mbind outcome_bind]. eexists. split; [reflexivity|].
  unfold xof_output. rewrite length_map, length_seq. reflexivity.
Qed.

Lemma shake_long f context xs :
  (256 <= length context)%nat -> shake XOF f context xs = Raise Invalid_Argument.
Proof. intros H. unfold shake. rewrite dom4_long by exact H. reflexivity. Qed.

Lemma sign_message_short sk pk pgflag context msg :
  (length context < 256)%nat ->
  exists sig, sign_message XOF sk pk pgflag context msg = Done sig /\
              length sig = 114%nat.
Proof.
  intros H. unfold sign_message. cbv zeta.
  destruct (shake_short pgflag context
              (xof_output XOF sk ED448_LEN ED448_LEN ++ msg) H) as (h & -> & _).
  cbn [mbind outcome_bind].
  destruct (shake_short pgflag context
              (encode (scalar_mul base_point (Sc.of_bytes h)) ++ pk ++ msg) H)
    as (h' & -> & _).
  cbn [mbind outcome_bind].
  set (sig := _ ++ Sc.to_bytes _).
  assert (length sig = 114%nat) as Hlen.
  { unfold sig, Sc.to_bytes. rewrite length_app, encode_length, Z_to_le_length. reflexivity. }
  rewrite Hlen. cbn [Nat.eqb Nat.mul Nat.add ED448_LEN BOTAN_ASSERT mbind outcome_bind].
  exists sig. split; [reflexivity | exact Hlen].
Qed.

Lemma sign_message_long sk pk pgflag context msg :
  (256 <= length context)%nat ->
  sign_message XOF sk pk pgflag context msg = Raise Invalid_Argument.
Proof.
  intros H. unfold sign_message. cbv zeta.
  rewrite shake_long by exact H. reflexivity.
Qed.

Lemma verify_signature_long pk phflag context sig msg :
  (256 <= length context)%nat ->
  verify_signature XOF pk phflag context sig msg = Raise Decoding_Error \/
  verify_signature XOF pk phflag context sig msg = Raise Invalid_Argument.
Proof.
  intros H. unfold verify_signature. cbv zeta.
  destruct (negb _); [left; reflexivity|].
  destruct (decode (take ED448_LEN sig)) as [R | e | ] eqn:HR; cbn [mbind outcome_bind].
  - destruct (negb _); [left; reflexivity|].
    rewrite shake_long by exact H. right. reflexivity.
  - left. f_equal.
    unfold decode in HR. cbv zeta in HR.
    repeat (destruct (negb _) in HR; [injection HR as <-; reflexivity|]).
    destruct (_ && _) in HR; [injection HR as <-; reflexivity | discriminate HR].
  - exfalso. unfold decode in HR. cbv zeta in HR.
    repeat (destruct (negb _) in HR; [discriminate HR|]).
    destruct (_ && _) in HR; discriminate HR.
Qed.

End Shake.

End Ed448Context.

(** * Ed448: the candidate root of point decoding *)

Module Ed448Root.
Import Ed448.
Import coqutil.Z.PushPullMod.

Lemma p_pos : 0 < Gf.p.
Proof. reflexivity. Qed.

Lemma pow_pos_spec a e : Gf.pow_pos a e = a ^ Zpos e mod Gf.p.
Proof.
  induction e as [e IH | e IH |]; cbn [Gf.pow_pos]; unfold Gf.square, Gf.mul.
  - rewrite IH, Pos2Z.inj_xI.
    replace (2 * Z.pos e + 1) with (Z.pos e + Z.pos e + 1) by lia.
    rewrite !Z.pow_add_r, Z.pow_1_r by lia.
    generalize (a ^ Z.pos e). intros t. Z.mod_equality.
  - rewrite IH, Pos2Z.inj_xO.
    replace (2 * Z.pos e) with (Z.pos e + Z.pos e) by lia.
    rewrite !Z.pow_add_r by lia.
    generalize (a ^ Z.pos e). intros t. Z.mod_equality.
  - rewrite Z.pow_1_r. reflexivity.
Qed.

Lemma pow_spec a e : 0 <= e -> Gf.pow a e = a ^ e mod Gf.p.
Proof.
  intros He. destruct e as [|e|e]; cbn [Gf.pow].
  - reflexivity.
  - apply pow_pos_spec.
  - lia.
Qed.

Lemma pow_mod_base a e : 0 <= e -> Gf.pow (a mod Gf.p) e = Gf.pow a e.
Proof.
  intros He. rewrite !pow_spec by exact He.
  symmetry. apply Zpower_mod. exact p_pos.
Qed.

(** The candidate root as RFC 8032 has it: u^3 v (u^5 v^3)^((p-3)/4). *)
Definition candidate_rfc (u v : Z) : Z :=
  (u ^ 3 * v * (u ^ 5 * v ^ 3) ^ ((Gf.p - 3) / 4)) mod Gf.p.

(** The candidate root in the words of the specification:
    (u v) (u^5 v^3)^((p-3)/4). *)
Definition candidate_spec (u v : Z) : Z :=
  (u * v * (u ^ 5 * v ^ 3) ^ ((Gf.p - 3) / 4)) mod Gf.p.

Lemma decode_u_spec y : decode_u y = (y ^ 2 - 1) mod Gf.p.
Proof.
  unfold decode_u, Gf.sub, Gf.square, Gf.mul, Gf.of_u64.
  rewrite Z.pow_2_r. Z.mod_equality.
Qed.

Lemma decode_v_spec y : decode_v y = (- MINUS_D * y ^ 2 - 1) mod Gf.p.
Proof.
  unfold decode_v, Gf.sub, Gf.square, Gf.mul, Gf.neg, Gf.of_u64. cbv zeta.
  rewrite Z.pow_2_r. generalize MINUS_D. intros d. Z.mod_equality.
Qed.

Lemma decode_maybe_x_rfc y :
  decode_maybe_x y = candidate_rfc (decode_u y) (decode_v y).
Proof.
  unfold decode_maybe_x, candidate_rfc. cbv zeta.
  generalize (decode_u y) (decode_v y). intros u v.
  unfold Gf.root. rewrite pow_spec by (vm_compute; discriminate).
  change Gf.root_exponent with ((Gf.p - 3) / 4).
  set (e := (Gf.p - 3) / 4).
  assert (Gf.mul (Gf.mul (Gf.mul (Gf.square (Gf.square u)) u) (Gf.square v)) v
          = (u ^ 5 * v ^ 3) mod Gf.p) as ->.
  { unfold Gf.square, Gf.mul.
    replace (u ^ 5) with (u * u * (u * u) * u) by ring.
    replace (v ^ 3) with (v * v * v) by ring.
    Z.mod_equality. }
  rewrite <- (Zpower_mod (u ^ 5 * v ^ 3) e Gf.p) by exact p_pos.
  generalize ((u ^ 5 * v ^ 3) ^ e). intros r.
  unfold Gf.square, Gf.mul.
  replace (u ^ 3) with (u * (u * u)) by ring.
  Z.mod_equality.
Qed.

(** A power of a unit of GF(p) is a unit. *)
Lemma pow_unit a s e :
  0 <= e -> (a * s) mod Gf.p = 1 -> (a ^ e * s ^ e) mod Gf.p = 1.
Proof.
  intros He H. rewrite <- Z.pow_mul_l, Zpower_mod by exact p_pos.
  rewrite H, Z.pow_1_l by exact He. reflexivity.
Qed.

(** C4 (as the code has it).  For every y, the candidate root the code
    computes is u^3 v (u^5 v^3)^((p-3)/4) in GF(p), with u = y^2 - 1 and
    v = d y^2 - 1, d = -39081. *)
Theorem decode_candidate_root (y : Z) :
  decode_u y = (y ^ 2 - 1) mod Gf.p /\
  decode_v y = (- MINUS_D * y ^ 2 - 1) mod Gf.p /\
  decode_maybe_x y = candidate_rfc (decode_u y) (decode_v y).
Proof.
  split; [apply decode_u_spec|]. split; [apply decode_v_spec|].
  apply decode_maybe_x_rfc.
Qed.

(** C4 as worded fails at y = 2: there u = 3 and v = p - 156325 are units
    of GF(p), so is (u^5 v^3)^((p-3)/4), and the code's candidate is u^2 = 9
    times the product (u v) (u^5 v^3)^((p-3)/4), which is not zero. *)
Lemma decode_candidate_not_spec :
  decode_maybe_x 2 <> candidate_spec (decode_u 2) (decode_v 2).
Proof.
  rewrite decode_maybe_x_rfc.
  replace (decode_u 2) with 3 by (vm_compute; reflexivity).
  replace (decode_v 2) with (Gf.p - 156325) by (vm_compute; reflexivity).
  unfold candidate_rfc, candidate_spec.
  set (v := Gf.p - 156325). set (e := (Gf.p - 3) / 4).
  set (s := 133619855915785578692418809335836927976104472311273964785334483580669916585165465353868130872718162500154536909894863479422769450103302).
  set (v' := 294473716709022656683517505509540247425258416361878151478444908203453709848787633182921660420099026770742040035224083982887972131745765).
  assert (Hr : ((3 ^ 5 * v ^ 3) ^ e * s ^ e) mod Gf.p = 1).
  { apply pow_unit; [vm_compute; discriminate | vm_compute; reflexivity]. }
  assert (Hv : (v * v') mod Gf.p = 1) by (vm_compute; reflexivity).
  revert Hr. generalize ((3 ^ 5 * v ^ 3) ^ e) (s ^ e). intros r t Hr.
  revert Hv. generalize v v'. clear v v'. intros v v' Hv H.
  assert (H9 : (3 ^ 3 * ((v * v') mod Gf.p) * ((r * t) mod Gf.p)) mod Gf.p
             = (3 * ((v * v') mod Gf.p) * ((r * t) mod Gf.p)) mod Gf.p).
  { transitivity ((((3 ^ 3 * v * r) mod Gf.p) * (v' * t)) mod Gf.p);
      [Z.mod_equality|].
    rewrite H. Z.mod_equality. }
  rewrite Hv, Hr in H9. vm_compute in H9. discriminate.
Qed.

End Ed448Root.

(** * Gaussian integers: the ring Z[i] *)

Module Gauss.

Record gauss : Type := G { re : Z; im : Z }.

Definition gzero : gauss := G 0 0.
Definition gone : gauss := G 1 0.
Definition gi : gauss := G 0 1.
Definition gz (c : Z) : gauss := G c 0.
Definition gadd (x y : gauss) : gauss := G (re x + re y) (im x + im y).
Definition gopp (x : gauss) : gauss := G (- re x) (- im x).
Definition gsub (x y : gauss) : gauss := G (re x - re y) (im x - im y).
Definition gmul (x y : gauss) : gauss :=
  G (re x * re y - im x * im y) (re x * im y + im x * re y).
Definition gconj (x : gauss) : gauss := G (re x) (- im x).
Definition gnorm (x : gauss) : Z := re x * re x + im x * im x.

Fixpoint gpow (x : gauss) (n : nat) : gauss :=
  match n with
  | O => gone
  | S n' => gmul x (gpow x n')
  end.

(** The sum of [f 0 .. f (n-1)]. *)
Fixpoint gsum (f : nat -> gauss) (n : nat) : gauss :=
  match n with
  | O => gzero
  | S n' => gadd (gsum f n') (f n')
  end.

(** Pascal's triangle. *)
Fixpoint binom (n k : nat) : Z :=
  match n, k with
  | _, O => 1
  | O, S _ => 0
  | S n', S k' => binom n' k' + binom n' (S k')
  end.

Ltac gring := intros; repeat match goal with x : gauss |- _ => destruct x end;
  cbv [gadd gmul gopp gsub gzero gone gz gi gconj re im]; f_equal; ring.

Lemma gauss_ring_theory : ring_theory gzero gone gadd gmul gsub gopp eq.
Proof. split; gring. Qed.

Add Ring gauss_ring : gauss_ring_theory.

Lemma gpow_add x n m : gpow x (n + m) = gmul (gpow x n) (gpow x m).
Proof. induction n as [|n IH]; cbn [gpow Nat.add]; [|rewrite IH]; ring. Qed.

Lemma gpow_mul_l x y n : gpow (gmul x y) n = gmul (gpow x n) (gpow y n).
Proof. induction n as [|n IH]; cbn [gpow]; [|rewrite IH]; ring. Qed.

Lemma gpow_one n : gpow gone n = gone.
Proof. induction n as [|n IH]; cbn [gpow]; [|rewrite IH]; ring. Qed.

Lemma gpow_mul x n m : gpow x (n * m) = gpow (gpow x n) m.
Proof.
  induction m as [|m IH].
  - rewrite Nat.mul_0_r. reflexivity.
  - rewrite Nat.mul_succ_r, Nat.add_comm, gpow_add, IH. reflexivity.
Qed.

Lemma gpow_gz c n : gpow (gz c) n = gz (c ^ Z.of_nat n).
Proof.
  induction n as [|n IH].
  - reflexivity.
  - cbn [gpow]. rewrite IH, Nat2Z.inj_succ, Z.pow_succ_r by lia.
    unfold gz, gmul; cbn [re im]. f_equal; ring.
Qed.

(** ** Binomial coefficients *)

Lemma binom_0_r n : binom n 0 = 1.
Proof. destruct n; reflexivity. Qed.

Lemma binom_gt n : forall k, (n < k)%nat -> binom n k = 0.
Proof.
  induction n as [|n IH]; intros [|k] Hk; try lia; cbn [binom].
  - reflexivity.
  - rewrite !IH by lia. reflexivity.
Qed.

Lemma binom_diag n : binom n n = 1.
Proof.
  induction n as [|n IH]; [reflexivity|].
  cbn [binom]. rewrite IH, binom_gt by lia. reflexivity.
Qed.

Lemma binom_absorb n : forall k,
  Z.of_nat (S k) * binom (S n) (S k) = Z.of_nat (S n) * binom n k.
Proof.
  induction n as [|n IH]; intros k.
  - destruct k as [|k]; cbn [binom]; [reflexivity|].
    destruct k; cbn [binom]; lia.
  - change (binom (S (S n)) (S k)) with (binom (S n) k + binom (S n) (S k)).
    rewrite Z.mul_add_distr_l, IH.
    destruct k as [|k].
    + rewrite !binom_0_r. lia.
    + specialize (IH k).
      change (binom (S n) (S k)) with (binom n k + binom n (S k)) in *.
      rewrite !Nat2Z.inj_succ in *. nia.
Qed.

Lemma binom_prime r k :
  Z.prime r -> (0 < k)%nat -> Z.of_nat k < r -> (r | binom (Z.to_nat r) k).
Proof.
  intros Hr Hk Hkr. pose proof (Z.prime_ge_2 r Hr) as H2.
  destruct k as [|k]; [lia|].
  destruct (Z.to_nat r) as [|n] eqn:En; [lia|].
  pose proof (binom_absorb n k) as H.
  assert (Hd : (r | Z.of_nat (S k) * binom (S n) (S k))).
  { rewrite H. exists (binom n k). lia. }
  apply Z.divide_prime_mul in Hd; [|exact Hr].
  destruct Hd as [Hd | Hd]; [|exact Hd].
  apply Z.divide_pos_le in Hd; lia.
Qed.

(** ** Sums and the binomial theorem *)

Lemma gsum_ext f g n :
  (forall k, (k < n)%nat -> f k = g k) -> gsum f n = gsum g n.
Proof.
  induction n as [|n IH]; intros H; cbn [gsum]; [reflexivity|].
  rewrite IH, H by (intros; try apply H; lia). reflexivity.
Qed.

Lemma gsum_add f g n :
  gsum (fun k => gadd (f k) (g k)) n = gadd (gsum f n) (gsum g n).
Proof. induction n as [|n IH]; cbn [gsum]; [|rewrite IH]; ring. Qed.

Lemma gsum_mul_l c f n :
  gsum (fun k => gmul c (f k)) n = gmul c (gsum f n).
Proof. induction n as [|n IH]; cbn [gsum]; [|rewrite IH]; ring. Qed.

Lemma gsum_shift f n :
  gsum f (S n) = gadd (f O) (gsum (fun k => f (S k)) n).
Proof.
  induction n as [|n IH]; [cbn [gsum]; ring|].
  change (gsum f (S (S n))) with (gadd (gsum f (S n)) (f (S n))).
  rewrite IH. cbn [gsum]. ring.
Qed.

Definition bterm (x y : gauss) (n k : nat) : gauss :=
  gmul (gz (binom n k)) (gmul (gpow x k) (gpow y (n - k))).

Lemma gz_add a b : gz (a + b) = gadd (gz a) (gz b).
Proof. unfold gz, gadd; cbn [re im]. f_equal; ring. Qed.

Theorem binomial x y n :
  gpow (gadd x y) n = gsum (bterm x y n) (S n).
Proof.
  induction n as [|n IH].
  - reflexivity.
  - change (gpow (gadd x y) (S n)) with (gmul (gadd x y) (gpow (gadd x y) n)).
    rewrite IH. rewrite (gsum_shift (bterm x y (S n))).
    transitivity (gadd (gsum (fun k => gmul x (bterm x y n k)) (S n))
                       (gsum (fun k => gmul y (bterm x y n k)) (S n))).
    { rewrite (gsum_mul_l x (bterm x y n)), (gsum_mul_l y (bterm x y n)). ring. }
    transitivity (gadd (bterm x y (S n) 0)
      (gadd (gsum (fun k => gmul x (bterm x y n k)) (S n))
            (gsum (fun k => gmul (gz (binom n (S k)))
                                 (gmul (gpow x (S k)) (gpow y (n - k)))) (S n)))).
    2:{ f_equal. rewrite <- gsum_add. apply gsum_ext. intros k Hk.
        unfold bterm. cbn [binom Nat.sub gpow]. rewrite gz_add. ring. }
    rewrite (gsum_shift (fun k => gmul y (bterm x y n k))).
    change (gsum (fun k => gmul (gz (binom n (S k)))
                                 (gmul (gpow x (S k)) (gpow y (n - k)))) (S n))
      with (gadd (gsum (fun k => gmul (gz (binom n (S k)))
                                 (gmul (gpow x (S k)) (gpow y (n - k)))) n)
                 (gmul (gz (binom n (S n))) (gmul (gpow x (S n)) (gpow y (n - n))))).
    rewrite (binom_gt n (S n)) by lia.
    rewrite (gsum_ext (fun k => gmul y (bterm x y n (S k)))
               (fun k => gmul (gz (binom n (S k)))
                              (gmul (gpow x (S k)) (gpow y (n - k)))) n).
    2:{ intros k Hk. unfold bterm.
        replace (n - k)%nat with (S (n - S k)) by lia. cbn [gpow]. ring. }
    unfold bterm. rewrite !binom_0_r, !Nat.sub_0_r. cbn [gpow].
    change (gz 0) with gzero. ring.
Qed.


(** ** Congruence modulo an integer *)

Section Congruence.

Variable r : Z.

Definition geqm (x y : gauss) : Prop :=
  eqm r (re x) (re y) /\ eqm r (im x) (im y).

#[local] Instance geqm_equiv : Equivalence geqm.
Proof.
  split.
  - intros x. split; reflexivity.
  - intros x y [H1 H2]. split; symmetry; assumption.
  - intros x y z [H1 H2] [H3 H4]. split; etransitivity; eassumption.
Qed.

#[local] Instance gadd_proper : Proper (geqm ==> geqm ==> geqm) gadd.
Proof.
  intros x x' [H1 H2] y y' [H3 H4].
  split; cbn [gadd re im]; apply Zplus_eqm; assumption.
Qed.

#[local] Instance gmul_proper : Proper (geqm ==> geqm ==> geqm) gmul.
Proof.
  intros x x' [H1 H2] y y' [H3 H4]. split; cbn [gmul re im].
  - apply Zminus_eqm; apply Zmult_eqm; assumption.
  - apply Zplus_eqm; apply Zmult_eqm; assumption.
Qed.

#[local] Instance gopp_proper : Proper (geqm ==> geqm) gopp.
Proof.
  intros x x' [H1 H2].
  split; cbn [gopp re im]; apply Zopp_eqm; assumption.
Qed.

#[local] Instance gpow_proper : Proper (geqm ==> eq ==> geqm) gpow.
Proof.
  intros x x' H n n' <-. induction n as [|n IH]; cbn [gpow].
  - reflexivity.
  - apply gmul_proper; assumption.
Qed.

Lemma gz_eqm a b : eqm r a b -> geqm (gz a) (gz b).
Proof. intros H. split; cbn [gz re im]; [exact H | reflexivity]. Qed.

Lemma gz_divide c : (r | c) -> geqm (gz c) gzero.
Proof.
  intros [q ->]. apply gz_eqm. unfold eqm.
  rewrite Z_mod_mult. reflexivity.
Qed.

Lemma gsum_eqm_zero f n :
  (forall k, (k < n)%nat -> geqm (f k) gzero) -> geqm (gsum f n) gzero.
Proof.
  induction n as [|n IH]; intros H; cbn [gsum]; [reflexivity|].
  rewrite IH, H by (intros; try apply H; lia). split; reflexivity.
Qed.

(** The freshman's dream: modulo a prime r, (x + y)^r = x^r + y^r. *)
Lemma freshman x y :
  Z.prime r ->
  geqm (gpow (gadd x y) (Z.to_nat r))
       (gadd (gpow x (Z.to_nat r)) (gpow y (Z.to_nat r))).
Proof.
  intros Hr. pose proof (Z.prime_ge_2 r Hr) as H2.
  rewrite binomial.
  remember (Z.to_nat r) as R eqn:ER.
  destruct R as [|m]; [lia|].
  change (gsum (bterm x y (S m)) (S (S m)))
    with (gadd (gsum (bterm x y (S m)) (S m)) (bterm x y (S m) (S m))).
  rewrite gsum_shift.
  rewrite (gsum_eqm_zero (fun k => bterm x y (S m) (S k)) m).
  2:{ intros k Hk. unfold bterm.
      rewrite (gz_divide (binom (S m) (S k))).
      - split; reflexivity.
      - rewrite ER. apply binom_prime; [exact Hr | lia | lia]. }
  unfold bterm. rewrite binom_0_r, binom_diag, Nat.sub_0_r, Nat.sub_diag.
  cbn [gpow]. change (gz 1) with gone.
  replace (gadd (gadd (gmul gone (gmul gone (gmul y (gpow y m)))) gzero)
             (gmul gone (gmul (gmul x (gpow x m)) gone)))
    with (gadd (gmul x (gpow x m)) (gmul y (gpow y m))) by ring.
  reflexivity.
Qed.

Lemma gpow_gi_even n :
  gpow gi (2 * n) = gone \/ gpow gi (2 * n) = gopp gone.
Proof.
  induction n as [|n IH]; [left; reflexivity|].
  replace (2 * S n)%nat with (S (S (2 * n))) by lia. cbn [gpow].
  destruct IH as [-> | ->]; [right | left]; reflexivity.
Qed.

Lemma prime_odd :
  Z.prime r -> 2 < r -> exists h : nat, Z.to_nat r = S (2 * h).
Proof.
  intros [_ Hr] H2. specialize (Hr 2 ltac:(lia)).
  assert (r mod 2 = 1).
  { pose proof (Z.mod_pos_bound r 2 ltac:(lia)).
    assert (r mod 2 <> 0) by (intros E; apply Hr, Z.mod_divide; [lia | exact E]).
    lia. }
  exists (Z.to_nat (r / 2)). pose proof (Z.div_mod r 2 ltac:(lia)).
  assert (0 <= r / 2) by (apply Z.div_pos; lia). lia.
Qed.

(** Modulo an odd prime r, z^r is z or its conjugate. *)
Lemma frobenius z :
  Z.prime r -> 2 < r ->
  geqm (gpow z (Z.to_nat r)) z \/ geqm (gpow z (Z.to_nat r)) (gconj z).
Proof.
  intros Hr H2. destruct (prime_odd Hr H2) as [h Hh].
  assert (Hz : z = gadd (gz (re z)) (gmul (gz (im z)) gi)).
  { destruct z as [a b]. cbv [gadd gmul gz gi re im]. f_equal; ring. }
  assert (Hpow : geqm (gpow z (Z.to_nat r))
                   (gadd (gz (re z)) (gmul (gz (im z)) (gpow gi (Z.to_nat r))))).
  { rewrite Hz at 1. rewrite freshman by exact Hr.
    rewrite gpow_mul_l, !gpow_gz, Z2Nat.id by lia.
    rewrite (gz_eqm (re z ^ r) (re z)) by (apply Z.fermat; exact Hr).
    rewrite (gz_eqm (im z ^ r) (im z)) by (apply Z.fermat; exact Hr).
    reflexivity. }
  rewrite Hpow, Hh. cbn [gpow].
  destruct (gpow_gi_even h) as [-> | ->]; [left | right].
  - rewrite Hz at 3. replace (gmul gi gone) with gi by ring. reflexivity.
  - replace (gadd (gz (re z)) (gmul (gz (im z)) (gmul gi (gopp gone))))
      with (gconj z); [reflexivity|].
    destruct z as [a b]. cbv [gadd gmul gz gi gconj gopp gone re im]. f_equal; ring.
Qed.

Lemma gmul_conj z : gmul z (gconj z) = gz (gnorm z).
Proof. destruct z as [a b]. cbv [gmul gconj gz gnorm re im]. f_equal; ring. Qed.

(** A norm-one element has order dividing r - 1 or r + 1 modulo an odd
    prime r. *)
Lemma norm_one_order t :
  Z.prime r -> 2 < r -> eqm r (gnorm t) 1 ->
  geqm (gpow t (Z.to_nat r - 1)) gone \/ geqm (gpow t (Z.to_nat r + 1)) gone.
Proof.
  intros Hr H2 Hn.
  assert (Hc : geqm (gmul t (gconj t)) gone).
  { rewrite gmul_conj. apply (gz_eqm _ 1). exact Hn. }
  destruct (frobenius t Hr H2) as [H | H]; [left | right].
  - transitivity (gmul (gpow t (Z.to_nat r - 1)) (gmul t (gconj t))).
    { rewrite Hc. replace (gmul (gpow t (Z.to_nat r - 1)) gone)
        with (gpow t (Z.to_nat r - 1)) by ring. reflexivity. }
    replace (gmul (gpow t (Z.to_nat r - 1)) (gmul t (gconj t)))
      with (gmul (gpow t (Z.to_nat r)) (gconj t)).
    { rewrite H. exact Hc. }
    replace (Z.to_nat r) with (S (Z.to_nat r - 1)) at 1 by lia.
    cbn [gpow]. ring.
  - rewrite Nat.add_comm. cbn [gpow Nat.add]. rewrite H. exact Hc.
Qed.

Lemma gpow_opp_one n :
  gpow (gopp gone) (2 * n) = gone /\ gpow (gopp gone) (S (2 * n)) = gopp gone.
Proof.
  induction n as [|n [IH1 IH2]]; [split; reflexivity|].
  replace (2 * S n)%nat with (S (S (2 * n))) by lia.
  split.
  - change (gpow (gopp gone) (S (S (2 * n))))
      with (gmul (gopp gone) (gpow (gopp gone) (S (2 * n)))).
    rewrite IH2. reflexivity.
  - change (gpow (gopp gone) (S (S (S (2 * n)))))
      with (gmul (gopp gone) (gmul (gopp gone) (gpow (gopp gone) (S (2 * n))))).
    rewrite IH2. reflexivity.
Qed.

Lemma gpow_2 s : gpow s 2 = gmul s s.
Proof. cbn [gpow]. ring. Qed.

Lemma order_even k s m :
  ~ geqm (gopp gone) gone ->
  geqm (gpow s (2 ^ k)) (gopp gone) -> geqm (gpow s m) gone ->
  exists q, m = (2 * q)%nat.
Proof.
  intros Hne Hk Hm.
  destruct (Nat.Even_or_Odd m) as [[q Hq] | [q Hq]]; [exists q; exact Hq|].
  exfalso. apply Hne.
  transitivity (gpow (gpow s (2 ^ k)) m).
  { rewrite Hk, Hq, Nat.add_1_r.
    rewrite (proj2 (gpow_opp_one q)). reflexivity. }
  rewrite <- gpow_mul, Nat.mul_comm, gpow_mul, Hm, gpow_one. reflexivity.
Qed.

(** If s^(2^k) = -1 and s^m = 1 then 2^(k+1) divides m. *)
Lemma order_pow2 k : forall s m,
  ~ geqm (gopp gone) gone ->
  geqm (gpow s (2 ^ k)) (gopp gone) -> geqm (gpow s m) gone ->
  exists q, m = (2 ^ S k * q)%nat.
Proof.
  induction k as [|k IH]; intros s m Hne Hk Hm;
    destruct (order_even _ _ _ Hne Hk Hm) as [q ->].
  - exists q. rewrite Nat.pow_1_r. reflexivity.
  - destruct (IH (gmul s s) q Hne) as [q' ->].
    + rewrite <- Hk, <- gpow_2, <- gpow_mul, <- Nat.pow_succ_r'. reflexivity.
    + rewrite <- Hm, <- gpow_2, <- gpow_mul. reflexivity.
    + exists q'. rewrite (Nat.pow_succ_r' 2 (S k)). lia.
Qed.

Lemma opp_one_neq_one : 2 < r -> ~ geqm (gopp gone) gone.
Proof.
  intros H2 [H _]. cbv [gopp gone re im eqm] in H.
  rewrite (Z.mod_small 1) in H by lia.
  change (- (1)) with (-1) in H.
  rewrite <- (Z.mod_add (-1) 1 r), Z.mod_small in H; lia.
Qed.

(** Every odd prime r modulo which t has norm one and t^(2^k) = -1 is
    1 or -1 modulo 2^(k+1). *)
Lemma prime_factor_pow2 t k :
  Z.prime r -> 2 < r -> eqm r (gnorm t) 1 ->
  geqm (gpow t (2 ^ k)) (gopp gone) ->
  (2 ^ Z.of_nat (S k) | r - 1) \/ (2 ^ Z.of_nat (S k) | r + 1).
Proof.
  intros Hr H2 Hn Hk.
  pose proof (opp_one_neq_one H2) as Hne.
  assert (Hpow : forall q : nat,
            Z.of_nat (2 ^ S k * q) = 2 ^ Z.of_nat (S k) * Z.of_nat q).
  { intros q. rewrite Nat2Z.inj_mul, Nat2Z.inj_pow. reflexivity. }
  destruct (norm_one_order t Hr H2 Hn) as [H | H];
    destruct (order_pow2 k t _ Hne Hk H) as [q Hq];
    apply (f_equal Z.of_nat) in Hq; rewrite Hpow in Hq; [left | right];
    exists (Z.of_nat q); lia.
Qed.

End Congruence.

Lemma eqm_divide r N a b : (r | N) -> eqm N a b -> eqm r a b.
Proof.
  unfold eqm. intros Hd H.
  rewrite <- (Z.mod_mod_divide a N r Hd), <- (Z.mod_mod_divide b N r Hd), H.
  reflexivity.
Qed.

Lemma geqm_divide r N x y : (r | N) -> geqm N x y -> geqm r x y.
Proof. intros Hd [H1 H2]. split; eapply eqm_divide; eassumption. Qed.

Lemma gnorm_mul x y : gnorm (gmul x y) = gnorm x * gnorm y.
Proof. destruct x, y. cbv [gnorm gmul re im]. ring. Qed.

Lemma gnorm_pow_eqm N t n : eqm N (gnorm t) 1 -> eqm N (gnorm (gpow t n)) 1.
Proof.
  intros Hn. induction n as [|n IH]; [reflexivity|].
  cbn [gpow]. rewrite gnorm_mul.
  exact (Zmult_eqm N _ _ Hn _ _ IH).
Qed.

(** Squaring a norm-one element sends the real part a to 2 a^2 - 1. *)
Fixpoint gsquare_iter (N : Z) (k : nat) (a : Z) : Z :=
  match k with
  | O => a
  | S k' => gsquare_iter N k' ((2 * a * a - 1) mod N)
  end.

Lemma gsquare_iter_eqm N k : forall a a',
  eqm N a a' -> eqm N (gsquare_iter N k a) (gsquare_iter N k a').
Proof.
  induction k as [|k IH]; intros a a' H; cbn [gsquare_iter]; [exact H|].
  apply IH. unfold eqm. rewrite !Z.mod_mod_divide by reflexivity.
  apply Zminus_eqm; [|reflexivity].
  apply Zmult_eqm; [apply Zmult_eqm; [reflexivity | exact H] | exact H].
Qed.

Lemma re_square_eqm N t :
  eqm N (gnorm t) 1 -> eqm N (re (gmul t t)) ((2 * re t * re t - 1) mod N).
Proof.
  intros Hn. destruct t as [a b]. cbv [gmul gnorm re im] in *.
  unfold eqm at 1. rewrite Z.mod_mod_divide by reflexivity.
  replace (a * a - b * b) with (2 * a * a - (a * a + b * b)) by ring.
  apply Zminus_eqm; [reflexivity | exact Hn].
Qed.

Lemma re_gpow_pow2 N k : forall t,
  eqm N (gnorm t) 1 ->
  eqm N (re (gpow t (2 ^ k))) (gsquare_iter N k (re t)).
Proof.
  induction k as [|k IH]; intros t Hn.
  - rewrite Nat.pow_0_r. cbn [gpow gsquare_iter]. destruct t as [a b].
    cbv [gmul gone re im]. unfold eqm. f_equal. ring.
  - rewrite Nat.pow_succ_r', gpow_mul, gpow_2. cbn [gsquare_iter].
    assert (Hn2 : eqm N (gnorm (gmul t t)) 1).
    { rewrite <- gpow_2. apply gnorm_pow_eqm. exact Hn. }
    etransitivity; [apply (IH _ Hn2)|].
    apply gsquare_iter_eqm, re_square_eqm, Hn.
Qed.

(** A norm-one element whose real part vanishes squares to -1. *)
Lemma square_of_imaginary N s :
  eqm N (gnorm s) 1 -> eqm N (re s) 0 -> geqm N (gmul s s) (gopp gone).
Proof.
  intros Hn Hr. destruct s as [a b]. cbv [gmul gnorm gopp gone re im geqm] in *.
  split.
  - replace (a * a - b * b) with (2 * (a * a) - (a * a + b * b)) by ring.
    enough (H : eqm N (2 * (a * a) - (a * a + b * b)) (2 * (0 * 0) - 1)) by exact H.
    apply Zminus_eqm; [|exact Hn].
    apply Zmult_eqm; [reflexivity|]. apply Zmult_eqm; exact Hr.
  - enough (H : eqm N (a * b + b * a) (0 * b + b * 0)).
    { replace (0 * b + b * 0) with 0 in H by ring. exact H. }
    apply Zplus_eqm; apply Zmult_eqm; (reflexivity || exact Hr).
Qed.

(** The Lucas test for N + 1 with the prime 2 only: if t = a + b i has norm
    one modulo N and the real part of t^(2^k) vanishes modulo N, every odd
    prime factor of N is 1 or -1 modulo 2^(k+2). *)
Theorem lucas_pow2 N a b k r :
  eqm N (a * a + b * b) 1 ->
  gsquare_iter N k a mod N = 0 ->
  Z.prime r -> 2 < r -> (r | N) ->
  (2 ^ Z.of_nat (S (S k)) | r - 1) \/ (2 ^ Z.of_nat (S (S k)) | r + 1).
Proof.
  intros Hn Hk Hr H2 Hd.
  apply (prime_factor_pow2 r (G a b) (S k)); [exact Hr | exact H2 | |].
  - apply (eqm_divide r N); [exact Hd | exact Hn].
  - apply (geqm_divide r N); [exact Hd|].
    rewrite Nat.pow_succ_r', Nat.mul_comm, gpow_mul, gpow_2.
    apply square_of_imaginary.
    + apply gnorm_pow_eqm. exact Hn.
    + etransitivity; [apply re_gpow_pow2; exact Hn|]. exact Hk.
Qed.

End Gauss.

(** * The Ed448 field modulus is prime *)

Module Ed448Prime.
Import Ed448.

Lemma prime_divisor n : 1 < n -> exists r, Z.prime r /\ (r | n).
Proof.
  intros Hn. assert (H0 : 0 <= n) by lia. revert Hn.
  pattern n. apply Zlt_0_ind; [|exact H0]. clear n H0.
  intros n IH _ Hn.
  destruct (prime_dec n) as [Hp | Hnp].
  - exists n. split; [apply prime_alt; exact Hp | reflexivity].
  - destruct (not_prime_divide n Hn Hnp) as (m & Hm & Hd).
    destruct (IH m ltac:(lia) ltac:(lia)) as (r & Hr & Hrm).
    exists r. split; [exact Hr | etransitivity; eassumption].
Qed.

(** A number all of whose prime factors exceed its square root is prime. *)
Lemma prime_of_large_factors N :
  1 < N -> (forall r, Z.prime r -> (r | N) -> N < r * r) -> Z.prime N.
Proof.
  intros HN H. split; [exact HN|]. intros n Hn [m Hm].
  assert (Hm1 : 1 < m) by nia.
  assert (Hc : exists c, 1 < c /\ (c | N) /\ c * c <= N).
  { destruct (Z_le_gt_dec n m).
    - exists n. split; [lia|]. split; [exists m; lia | nia].
    - exists m. split; [lia|]. split; [exists n; lia | nia]. }
  destruct Hc as (c & Hc1 & Hcd & Hcc).
  destruct (prime_divisor c Hc1) as (r & Hr & Hrc).
  pose proof (Z.prime_ge_2 r Hr).
  assert (r <= c) by (apply Z.divide_pos_le; [lia | exact Hrc]).
  specialize (H r Hr ltac:(etransitivity; eassumption)). nia.
Qed.

(** An element of order 2^224 in the norm-one subgroup of GF(p)[i]:
    the ((p+1)/2^224)-th power of (2 + 3i)^(p-1). *)
Definition order_224_re : Z :=
  83904639370364365824545623880476364935724821812772710313074427058000069489637706200288944081133803371966602907755563573535367669034540.
Definition order_224_im : Z :=
  286831906357371884004172641178820064824676768083995904039854135148115629883458222202171693573209994834726152707317115434786146248027760.

Lemma order_224_norm :
  eqm Gf.p (order_224_re * order_224_re + order_224_im * order_224_im) 1.
Proof. vm_compute. reflexivity. Qed.

Lemma order_224_chain :
  Gauss.gsquare_iter Gf.p 222 order_224_re mod Gf.p = 0.
Proof. vm_compute. reflexivity. Qed.

Theorem p_prime : Z.prime Gf.p.
Proof.
  apply prime_of_large_factors; [reflexivity|].
  intros r Hr Hd. pose proof (Z.prime_ge_2 r Hr) as H2.
  assert (Hr2 : r <> 2).
  { intros ->. apply Z.mod_divide in Hd; [|lia]. vm_compute in Hd. discriminate. }
  destruct (Gauss.lucas_pow2 Gf.p order_224_re order_224_im 222 r
              order_224_norm order_224_chain Hr ltac:(lia) Hd) as [[q Hq] | [q Hq]].
  - change (2 ^ Z.of_nat 224) with (2 ^ 224) in Hq.
    assert (0 < 2 ^ 224) by reflexivity.
    assert (1 <= q) by nia.
    assert (2 ^ 224 + 1 <= r) by nia.
    assert ((2 ^ 224 + 1) * (2 ^ 224 + 1) <= r * r) by nia.
    assert (Gf.p < (2 ^ 224 + 1) * (2 ^ 224 + 1)) by reflexivity.
    lia.
  - change (2 ^ Z.of_nat 224) with (2 ^ 224) in Hq.
    assert (0 < 2 ^ 224) by reflexivity.
    assert (1 <= q) by nia.
    assert (q <> 1).
    { intros ->. assert (r = 2 ^ 224 - 1) by lia. subst r.
      apply Z.mod_divide in Hd; [|discriminate]. vm_compute in Hd. discriminate. }
    assert (2 ^ 225 - 1 <= r).
    { change (2 ^ 225) with (2 * 2 ^ 224). nia. }
    assert ((2 ^ 225 - 1) * (2 ^ 225 - 1) <= r * r) by nia.
    assert (Gf.p < (2 ^ 225 - 1) * (2 ^ 225 - 1)) by reflexivity.
    lia.
Qed.

End Ed448Prime.

(** * Ed448: point decoding *)

Module Ed448Decode.
Import Ed448 Ed448Root.
Import coqutil.Z.PushPullMod.

(** ** Little-endian strings *)

Lemma Z_to_le_S base n v :
  0 < base ->
  Z_to_le base (S n) v = (v mod base) :: Z_to_le base n (v / base).
Proof.
  intros Hb. unfold Z_to_le. cbn [seq map]. f_equal.
  - rewrite Z.pow_0_r, Z.div_1_r. reflexivity.
  - rewrite <- seq_shift, map_map. apply map_ext. intros i.
    rewrite Nat2Z.inj_succ, Z.pow_succ_r by lia.
    pose proof (Z.pow_pos_nonneg base (Z.of_nat i) Hb ltac:(lia)).
    rewrite Z.div_div by lia. reflexivity.
Qed.

Lemma le_to_Z_range base l :
  0 < base -> Forall (fun b => 0 <= b < base) l ->
  0 <= le_to_Z base l < base ^ Z.of_nat (length l).
Proof.
  intros Hb H. induction H as [|b l Hbr _ IH]; cbn [le_to_Z length].
  - rewrite Z.pow_0_r. lia.
  - rewrite Nat2Z.inj_succ, Z.pow_succ_r by lia. nia.
Qed.

Lemma Z_to_le_le_to_Z base l :
  0 < base -> Forall (fun b => 0 <= b < base) l ->
  Z_to_le base (length l) (le_to_Z base l) = l.
Proof.
  intros Hb H. induction H as [|b l Hbr _ IH]; [reflexivity|].
  cbn [le_to_Z length]. rewrite Z_to_le_S by exact Hb.
  replace (b + base * le_to_Z base l) with (b + le_to_Z base l * base) by ring.
  f_equal.
  - rewrite Z.mod_add by lia. apply Z.mod_small. exact Hbr.
  - rewrite Z.div_add by lia.
    rewrite (Z.div_small b) by exact Hbr. exact IH.
Qed.

Lemma le_to_Z_Z_to_le base n : forall v,
  0 < base -> 0 <= v < base ^ Z.of_nat n ->
  le_to_Z base (Z_to_le base n v) = v.
Proof.
  induction n as [|n IH]; intros v Hb Hv.
  - rewrite Z.pow_0_r in Hv. cbn. lia.
  - rewrite Z_to_le_S by exact Hb. cbn [le_to_Z].
    rewrite Nat2Z.inj_succ, Z.pow_succ_r in Hv by lia.
    rewrite IH; [|exact Hb|].
    + pose proof (Z.div_mod v base ltac:(lia)). lia.
    + split; [apply Z.div_pos; lia|].
      apply Z.div_lt_upper_bound; lia.
Qed.

Lemma Z_to_le_range base n v :
  0 < base -> Forall (fun b => 0 <= b < base) (Z_to_le base n v).
Proof.
  intros Hb. unfold Z_to_le. apply List.Forall_forall. intros b Hin.
  apply in_map_iff in Hin. destruct Hin as (i & <- & _).
  apply Z.mod_pos_bound. exact Hb.
Qed.

(** ** The field *)

Lemma p_lt_pow : Gf.p < 2 ^ 448.
Proof. reflexivity. Qed.

Lemma mod_p_range a : 0 <= a mod Gf.p < Gf.p.
Proof. apply Z.mod_pos_bound. exact p_pos. Qed.

Lemma pow_one e : Gf.pow 1 e = 1.
Proof.
  destruct e as [|e|e]; try reflexivity.
  cbn [Gf.pow]. rewrite pow_pos_spec, Z.pow_1_l by lia. reflexivity.
Qed.

Lemma x_Point_xy a b : x (Point_xy a b) = a mod Gf.p.
Proof.
  unfold x, Point_xy, Gf.div, Gf.inverse. cbn [m_x m_z].
  rewrite pow_one. unfold Gf.mul. rewrite Z.mul_1_r. reflexivity.
Qed.

Lemma y_Point_xy a b : y (Point_xy a b) = b mod Gf.p.
Proof.
  unfold y, Point_xy, Gf.div, Gf.inverse. cbn [m_y m_z].
  rewrite pow_one. unfold Gf.mul. rewrite Z.mul_1_r. reflexivity.
Qed.

Lemma is_word_64 a : 0 <= a < 2 ^ 64 -> BigInt.is_word 64 a.
Proof. intros H. exact H. Qed.

Lemma words_at a i : BigInt.is_word 64 (at_ (Gf.words a) i).
Proof.
  unfold at_. destruct (nth_in_or_default i (Gf.words a) 0) as [Hin | ->].
  - pose proof (Z_to_le_range (2 ^ 64) 7 a ltac:(reflexivity)) as H.
    rewrite List.Forall_forall in H. apply H. exact Hin.
  - split; [lia | reflexivity].
Qed.

Lemma select_n_words c a b :
  select_n c (Gf.words a) (Gf.words b) 7 = Gf.words (if c then a else b).
Proof.
  unfold select_n.
  assert (H : forall w, map (at_ (Gf.words w)) (seq 0 7) = Gf.words w).
  { intros w. unfold Gf.words, Z_to_le. cbn [seq map]. reflexivity. }
  etransitivity; [|apply H]. apply map_ext. intros i.
  rewrite (BigIntFacts.select_expand_mask 64 ltac:(lia)) by apply words_at.
  destruct c; reflexivity.
Qed.

Lemma of_words_words a : 0 <= a < Gf.p -> Gf.of_words (Gf.words a) = a.
Proof.
  intros Ha. unfold Gf.of_words, Gf.words.
  rewrite le_to_Z_Z_to_le.
  - apply Z.mod_small. exact Ha.
  - reflexivity.
  - pose proof p_lt_pow. change ((2 ^ 64) ^ Z.of_nat 7) with (2 ^ 448). lia.
Qed.

(** ** The square root *)

#[local] Instance eqm_equivalence N : Equivalence (eqm N) := eqm_setoid N.

Lemma eqm_pow N a b n : eqm N a b -> eqm N (a ^ n) (b ^ n).
Proof.
  unfold eqm. intros H.
  rewrite <- (Z.mod_pow_l a), <- (Z.mod_pow_l b), H. reflexivity.
Qed.

Lemma p_mod_4 : Gf.p = 4 * ((Gf.p - 3) / 4) + 3.
Proof. reflexivity. Qed.

Lemma prime_divide_pow r a n : Z.prime r -> 0 <= n -> (r | a ^ n) -> (r | a).
Proof.
  intros Hr Hn. pattern n. apply natlike_ind; [| |exact Hn].
  - rewrite Z.pow_0_r. intros H. apply Z.divide_1_r in H.
    pose proof (Z.prime_ge_2 r Hr). lia.
  - intros k Hk IH. rewrite Z.pow_succ_r by exact Hk. intros H.
    apply Z.divide_prime_mul in H; [|exact Hr]. destruct H; auto.
Qed.

Lemma mod_p_divide a : a mod Gf.p = 0 -> (Gf.p | a).
Proof. apply Z.mod_divide. discriminate. Qed.

Lemma divide_p_eqm a : (Gf.p | a) -> eqm Gf.p a 0.
Proof. intros [q ->]. unfold eqm. rewrite Z_mod_mult. reflexivity. Qed.

(** If u / v has a square root at all, the candidate is one. *)
Lemma candidate_is_root u v x :
  eqm Gf.p (v * x ^ 2) u -> eqm Gf.p (v * candidate_rfc u v ^ 2) u.
Proof.
  intros Hx. unfold candidate_rfc.
  set (e := (Gf.p - 3) / 4).
  assert (He : 0 <= e) by (apply Z.div_pos; [vm_compute; discriminate | lia]).
  assert (Hp : Gf.p - 1 = 2 * (2 * e + 1)) by (pose proof p_mod_4; subst e; lia).
  clearbody e.
  set (X := u ^ 5 * v ^ 3).
  assert (H1 : eqm Gf.p (v * ((u ^ 3 * v * X ^ e) mod Gf.p) ^ 2)
                 (u * X ^ (2 * e + 1))).
  { replace (2 * e + 1) with (e + e + 1) by lia.
    rewrite !Z.pow_add_r, Z.pow_1_r by lia. subst X.
    generalize ((u ^ 5 * v ^ 3) ^ e). intros t.
    transitivity (v * (u ^ 3 * v * t) ^ 2).
    { apply Zmult_eqm; [reflexivity | apply eqm_pow, Zmod_eqm]. }
    unfold eqm. f_equal. ring. }
  etransitivity; [exact H1|].
  set (W := v ^ 4 * x ^ 5).
  assert (HX : eqm Gf.p X (W ^ 2)).
  { subst X W. replace ((v ^ 4 * x ^ 5) ^ 2) with ((v * x ^ 2) ^ 5 * v ^ 3) by ring.
    apply Zmult_eqm; [|reflexivity]. apply eqm_pow. symmetry. exact Hx. }
  assert (HXh : eqm Gf.p (X ^ (2 * e + 1)) (W ^ (Gf.p - 1))).
  { rewrite Hp, Z.pow_mul_r by (clear - He; lia). apply eqm_pow. exact HX. }
  destruct (Z.eq_dec (W mod Gf.p) 0) as [H0 | Hn0].
  - assert (Hu : eqm Gf.p u 0).
    { apply mod_p_divide in H0. subst W.
      apply Z.divide_prime_mul in H0; [|exact Ed448Prime.p_prime].
      etransitivity; [symmetry; exact Hx|].
      destruct H0 as [H0 | H0].
      + apply (prime_divide_pow Gf.p v 4 Ed448Prime.p_prime ltac:(discriminate)) in H0.
        apply divide_p_eqm in H0.
        change 0 with (0 * x ^ 2). apply Zmult_eqm; [exact H0 | reflexivity].
      + apply (prime_divide_pow Gf.p x 5 Ed448Prime.p_prime ltac:(discriminate)) in H0.
        apply divide_p_eqm in H0.
        replace 0 with (v * (0 * x)) by ring. rewrite Z.pow_2_r.
        apply Zmult_eqm; [reflexivity|]. apply Zmult_eqm; [exact H0 | reflexivity]. }
    etransitivity; [|symmetry; exact Hu].
    change 0 with (0 * X ^ (2 * e + 1)).
    apply Zmult_eqm; [exact Hu | reflexivity].
  - rewrite <- (Z.mul_1_r u) at 2. apply Zmult_eqm; [reflexivity|].
    etransitivity; [exact HXh|]. unfold eqm.
    rewrite (Z.fermat_nz Gf.p W Ed448Prime.p_prime Hn0). reflexivity.
Qed.

Lemma root_check_iff u v :
  0 <= u < Gf.p ->
  Gf.eqb (Gf.mul v (Gf.square (candidate_rfc u v))) u = true <->
  exists x, Gf.mul v (Gf.square x) = u.
Proof.
  intros Hu. unfold Gf.eqb. rewrite Z.eqb_eq. split.
  - intros H. exists (candidate_rfc u v). exact H.
  - intros [x Hx].
    assert (H : eqm Gf.p (v * x ^ 2) u).
    { unfold eqm. rewrite (Z.mod_small u) by exact Hu. rewrite <- Hx.
      unfold Gf.mul, Gf.square, Gf.mul. rewrite Z.pow_2_r.
      rewrite Z.mul_mod_idemp_r by discriminate. reflexivity. }
    apply candidate_is_root in H. unfold eqm in H.
    rewrite (Z.mod_small u) in H by exact Hu.
    etransitivity; [|exact H].
    unfold Gf.mul, Gf.square, Gf.mul. rewrite Z.pow_2_r.
    rewrite Z.mul_mod_idemp_r by discriminate. reflexivity.
Qed.

(** ** The last byte *)

Lemma last_byte_cases b :
  is_u8 b -> Z.land b 0x7F = 0 -> b = 0 \/ b = 0x80.
Proof.
  unfold is_u8. change (2 ^ 8) with 256. intros Hb H.
  change 0x7F with (Z.ones 7) in H. rewrite Z.land_ones in H by lia.
  change (2 ^ 7) with 128 in H.
  pose proof (Z.div_mod b 128 ltac:(lia)).
  assert (0 <= b / 128 < 2).
  { split; [apply Z.div_pos; lia | apply Z.div_lt_upper_bound; lia]. }
  lia.
Qed.

Lemma at_is_u8 l i : Forall is_u8 l -> is_u8 (at_ l i).
Proof.
  intros H. unfold at_. destruct (nth_in_or_default i l 0) as [Hin | ->].
  - rewrite List.Forall_forall in H. apply H. exact Hin.
  - unfold is_u8. change (2 ^ 8) with 256. lia.
Qed.

Lemma split_last (enc : list Z) :
  length enc = 57%nat -> enc = take 56 enc ++ [at_ enc 56].
Proof.
  intros H. rewrite <- (take_drop 56 enc) at 1. f_equal.
  do 57 (destruct enc as [|? enc]; [discriminate H|]).
  destruct enc; [reflexivity | discriminate H].
Qed.

(** ** Decoding *)

(** The four conditions under which a 57-byte string is not the encoding of
    a point: a stray bit in the last byte, a y-coordinate that is not
    reduced, no square root of u / v, and the root zero with the sign bit
    set. *)
Definition decode_rejects (enc : list Z) : Prop :=
  let back := at_ enc 56 in
  let y := Gf.of_bytes (take 56 enc) in
  Z.land back 0x7F <> 0
  \/ Gf.p <= le_to_Z 256 (take 56 enc)
  \/ (~ exists x, Gf.mul (decode_v y) (Gf.square x) = decode_u y)
  \/ (decode_maybe_x y = 0 /\ Z.testbit back 7 = true).

Lemma neg_parity a :
  0 < a < Gf.p -> Z.odd (Gf.neg a) = negb (Z.odd a).
Proof.
  intros Ha. unfold Gf.neg.
  rewrite <- (Z.mod_add (- a) 1 Gf.p) by (vm_compute; discriminate).
  rewrite Z.mod_small by lia.
  replace (- a + 1 * Gf.p) with (Gf.p - a) by ring.
  rewrite Z.odd_sub. change (Z.odd Gf.p) with true.
  destruct (Z.odd a); reflexivity.
Qed.

Lemma encode_Point_xy a b :
  0 <= a < Gf.p -> 0 <= b < Gf.p ->
  encode (Point_xy a b) = Gf.to_bytes b ++ [Z.shiftl (Z.b2z (Z.odd a)) 7].
Proof.
  intros Ha Hb. unfold encode, Gf.is_odd.
  rewrite x_Point_xy, y_Point_xy, !Z.mod_small by assumption. reflexivity.
Qed.

(** The x-coordinate that decode selects has the parity of the sign bit. *)
Lemma selected_parity mx (sign : bool) :
  0 <= mx < Gf.p -> (mx = 0 -> sign = false) ->
  let sel := if Bool.eqb (Z.odd mx) sign then mx else Gf.neg mx in
  0 <= sel < Gf.p /\ Z.odd sel = sign.
Proof.
  intros Hmx H0. cbv zeta.
  destruct (Bool.eqb (Z.odd mx) sign) eqn:E.
  - split; [exact Hmx|]. apply Bool.eqb_prop in E. exact E.
  - split; [apply mod_p_range|].
    assert (mx <> 0).
    { intros ->. rewrite (H0 eq_refl) in E. discriminate E. }
    rewrite neg_parity by lia.
    destruct (Z.odd mx), sign; try reflexivity; discriminate E.
Qed.

Lemma decode_cases enc :
  length enc = 57%nat -> Forall is_u8 enc ->
  (decode_rejects enc /\ decode enc = Raise Decoding_Error) \/
  (~ decode_rejects enc /\ exists P, decode enc = Done P /\ encode P = enc).
Proof.
  intros Hlen Hu8. unfold decode_rejects, decode.
  change (ED448_LEN - 1)%nat with 56%nat. cbv zeta.
  pose proof (split_last enc Hlen) as Henc.
  pose proof (at_is_u8 enc 56 Hu8) as Hback.
  assert (Hyb : Forall (fun b => 0 <= b < 256) (take 56 enc))
    by (apply Forall_take; exact Hu8).
  assert (Hyl : length (take 56 enc) = 56%nat) by (rewrite length_take; lia).
  remember (at_ enc 56) as back eqn:Eback.
  remember (take 56 enc) as yb eqn:Eyb.
  clear Eback Eyb Hu8 Hlen.
  pose proof (le_to_Z_range 256 yb ltac:(lia) Hyb) as Hyr.
  destruct (Z.eqb_spec (Z.land back 0x7F) 0) as [Ha | Ha]; cbn [negb];
    [|left; split; [left; exact Ha | reflexivity]].
  unfold Gf.bytes_are_canonical_representation.
  destruct (Z.ltb_spec (le_to_Z 256 yb) Gf.p) as [Hb | Hb]; cbn [negb];
    [|left; split; [right; left; exact Hb | reflexivity]].
  assert (Hy : Gf.of_bytes yb = le_to_Z 256 yb)
    by (unfold Gf.of_bytes; apply Z.mod_small; lia).
  assert (Hty : Gf.to_bytes (Gf.of_bytes yb) = yb).
  { unfold Gf.to_bytes. rewrite Hy, <- Hyl. apply Z_to_le_le_to_Z; [lia | exact Hyb]. }
  assert (Hyp : 0 <= Gf.of_bytes yb < Gf.p) by (rewrite Hy; lia).
  remember (Gf.of_bytes yb) as y eqn:Ey. clear Ey Hy Hyr.
  pose proof (root_check_iff (decode_u y) (decode_v y)
                ltac:(rewrite decode_u_spec; apply mod_p_range)) as Hroot.
  pose proof (mod_p_range (decode_u y ^ 3 * decode_v y *
                (decode_u y ^ 5 * decode_v y ^ 3) ^ ((Gf.p - 3) / 4))) as Hmx.
  change (0 <= candidate_rfc (decode_u y) (decode_v y) < Gf.p) in Hmx.
  rewrite <- (decode_maybe_x_rfc y) in Hroot, Hmx.
  remember (decode_maybe_x y) as mx eqn:Emx. clear Emx.
  remember (decode_u y) as u eqn:Eu. remember (decode_v y) as v eqn:Ev.
  clear Eu Ev.
  destruct (Gf.eqb (Gf.mul v (Gf.square mx)) u) eqn:Hc; cbn [negb].
  2:{ left. split; [|reflexivity]. right; right; left.
      intros Hex. apply Hroot in Hex. discriminate Hex. }
  assert (Hex : exists x, Gf.mul v (Gf.square x) = u) by (apply Hroot; reflexivity).
  clear Hroot Hc.
  destruct (last_byte_cases back Hback Ha) as [Hb0 | Hb0]; subst back.
  - (* sign bit clear *)
    change (negb (0 =? 0)) with false. rewrite andb_false_r.
    right. split.
    { intros [H | [H | [H | [_ H]]]].
      - apply H. reflexivity.
      - lia.
      - apply H. exact Hex.
      - discriminate H. }
    destruct (selected_parity mx false Hmx (fun _ => eq_refl)) as [Hs Hpar].
    unfold Gf.is_odd. eexists. split; [reflexivity|].
    rewrite select_n_words, of_words_words by exact Hs.
    rewrite encode_Point_xy by assumption.
    rewrite Hty, Hpar. symmetry. exact Henc.
  - (* sign bit set *)
    change (negb (128 =? 0)) with true. rewrite andb_true_r.
    unfold Gf.is_zero. destruct (Z.eqb_spec mx 0) as [Hz | Hz].
    { left. split; [|reflexivity]. right; right; right. split; [exact Hz | reflexivity]. }
    right. split.
    { intros [H | [H | [H | [H _]]]].
      - apply H. reflexivity.
      - lia.
      - apply H. exact Hex.
      - exact (Hz H). }
    destruct (selected_parity mx true Hmx ltac:(intros; contradiction)) as [Hs Hpar].
    unfold Gf.is_odd. eexists. split; [reflexivity|].
    rewrite select_n_words, of_words_words by exact Hs.
    rewrite encode_Point_xy by assumption.
    rewrite Hty, Hpar. symmetry. exact Henc.
Qed.

(** C3.  Ed448Point::decode raises Decoding_Error exactly on the strings
    that have a stray bit in the last byte, or a y-coordinate not below p,
    or no x with v x^2 = u, or the root zero with the sign bit set; every
    other 57-byte string decodes to a point whose encoding is the string. *)
Theorem decode_spec (enc : list Z) :
  length enc = 57%nat -> Forall is_u8 enc ->
  (decode enc = Raise Decoding_Error <-> decode_rejects enc) /\
  (~ decode_rejects enc -> exists P, decode enc = Done P /\ encode P = enc).
Proof.
  intros Hlen Hu8.
  destruct (decode_cases enc Hlen Hu8) as [[Hr He] | [Hr (P & HP & Henc)]].
  - split; [split; intros; assumption | intros H; destruct (H Hr)].
  - split.
    + split; [intros H; rewrite HP in H; discriminate H | intros H; destruct (Hr H)].
    + intros _. exists P. split; assumption.
Qed.

(** The encoding of the neutral point (0, 1). *)
Definition neutral_encoding : list Z := 1 :: repeat 0 56.

Lemma decode_spec_witness :
  (decode neutral_encoding = Raise Decoding_Error <-> decode_rejects neutral_encoding) /\
  (~ decode_rejects neutral_encoding ->
   exists P, decode neutral_encoding = Done P /\ encode P = neutral_encoding).
Proof.
  apply (decode_spec neutral_encoding).
  - reflexivity.
  - repeat (apply List.Forall_cons; [unfold is_u8; cbn; lia|]). apply List.Forall_nil.
Defined.

End Ed448Decode.

(** * Twisted Edwards curves x^2 + y^2 = 1 + d x^2 y^2 over a field *)

Module Edwards.

Section Curve.

Variable F : Type.
Variables (zero one : F) (add mul sub : F -> F -> F) (opp : F -> F)
          (div : F -> F -> F) (inv : F -> F).
Hypothesis Fth : field_theory zero one add mul sub opp div inv eq.
Hypothesis Feq_dec : forall a b : F, {a = b} + {a <> b}.

Declare Scope F_scope.
Delimit Scope F_scope with F.
Local Notation "0" := zero : F_scope.
Local Notation "1" := one : F_scope.
Local Infix "+" := add : F_scope.
Local Infix "-" := sub : F_scope.
Local Infix "*" := mul : F_scope.
Local Infix "/" := div : F_scope.
Local Notation "- x" := (opp x) : F_scope.
Local Open Scope F_scope.

Add Field F_field : Fth.

#[local] Instance F_ops : @Ncring.Ring_ops F zero one add mul sub opp eq := {}.

#[local] Instance F_ring : Ncring.Ring (Ro := F_ops).
Proof.
  split; try apply eq_equivalence;
    try (intros ? ? -> ? ? ->; reflexivity); try (intros ? ? ->; reflexivity);
    intros; cbv; ring.
Qed.

#[local] Instance F_cring : Cring.Cring (Rr := F_ring).
Proof. intros x y. cbv. ring. Qed.

Lemma F_integral (x y : F) : x * y = 0 -> x = 0 \/ y = 0.
Proof.
  intros H. destruct (Feq_dec x 0) as [Hx | Hx]; [left; exact Hx | right].
  transitivity (x * y / x); [field; exact Hx | rewrite H; field; exact Hx].
Qed.

#[local] Instance F_domain : Integral_domain.Integral_domain (Rcr := F_cring).
Proof.
  split.
  - exact F_integral.
  - intros H. apply (F_1_neq_0 Fth). exact H.
Qed.

(** The characteristic is not 2, and d is not a square. *)
Hypothesis two_neq_0 : 1 + 1 <> 0.
Variable d : F.
Hypothesis d_nonsquare : forall z : F, z * z <> d.

Lemma mul_neq_0 (x y : F) : x <> 0 -> y <> 0 -> x * y <> 0.
Proof. intros Hx Hy H. destruct (F_integral x y H); contradiction. Qed.

(** [nsatz], with the constant it divides by shown to be a power of two. *)
Ltac fsatz :=
  solve [ nsatz;
          clear; cbv; intros H;
          repeat (apply F_integral in H; destruct H as [H | H]; [exact (two_neq_0 H)|]);
          exact (two_neq_0 H) ].

Definition point : Type := F * F.

Definition onCurve (P : point) : Prop :=
  let '(x, y) := P in x * x + y * y = 1 + d * x * x * y * y.

Definition O : point := (0, 1).

Definition aadd (P Q : point) : point :=
  let '(x1, y1) := P in
  let '(x2, y2) := Q in
  ((x1 * y2 + y1 * x2) / (1 + d * x1 * x2 * y1 * y2),
   (y1 * y2 - x1 * x2) / (1 - d * x1 * x2 * y1 * y2)).

Lemma onCurve_O : onCurve O.
Proof. cbv [onCurve O]. ring. Qed.

(** Completeness: the denominators of the addition law never vanish on
    the curve, because d is not a square. *)
Lemma complete_aux (x1 y1 x2 y2 e : F) :
  x1 * x1 + y1 * y1 = 1 + d * x1 * x1 * y1 * y1 ->
  x2 * x2 + y2 * y2 = 1 + d * x2 * x2 * y2 * y2 ->
  e = d * x1 * x2 * y1 * y2 -> e * e = 1 -> False.
Proof.
  intros H1 H2 He Hee.
  assert (Hx1 : x1 <> 0).
  { intros ->. apply (F_1_neq_0 Fth). rewrite <- Hee, He. ring. }
  assert (Hy1 : y1 <> 0).
  { intros ->. apply (F_1_neq_0 Fth). rewrite <- Hee, He. ring. }
  assert (Hx2 : x2 <> 0).
  { intros ->. apply (F_1_neq_0 Fth). rewrite <- Hee, He. ring. }
  assert (Hs : (x1 + e * y1) * (x1 + e * y1) =
               d * ((x1 * y1 * (x2 + y2)) * (x1 * y1 * (x2 + y2)))).
  { subst e. fsatz. }
  assert (Hm : (x1 - e * y1) * (x1 - e * y1) =
               d * ((x1 * y1 * (x2 - y2)) * (x1 * y1 * (x2 - y2)))).
  { subst e. fsatz. }
  destruct (Feq_dec (x2 + y2) 0) as [Hp | Hp].
  - destruct (Feq_dec (x2 - y2) 0) as [Hq | Hq].
    + apply Hx2. assert (H2x : (1 + 1) * x2 = 0).
      { transitivity ((x2 + y2) + (x2 - y2)); [ring | rewrite Hp, Hq; ring]. }
      destruct (F_integral _ _ H2x) as [H | H]; [destruct (two_neq_0 H) | exact H].
    + apply (d_nonsquare ((x1 - e * y1) / (x1 * y1 * (x2 - y2)))).
      assert (Hden : x1 * y1 * (x2 - y2) <> 0) by (repeat apply mul_neq_0; assumption).
      transitivity ((x1 - e * y1) * (x1 - e * y1) /
                    ((x1 * y1 * (x2 - y2)) * (x1 * y1 * (x2 - y2))));
        [field; repeat split; assumption | rewrite Hm; field; repeat split; assumption].
  - apply (d_nonsquare ((x1 + e * y1) / (x1 * y1 * (x2 + y2)))).
    assert (Hden : x1 * y1 * (x2 + y2) <> 0) by (repeat apply mul_neq_0; assumption).
    transitivity ((x1 + e * y1) * (x1 + e * y1) /
                  ((x1 * y1 * (x2 + y2)) * (x1 * y1 * (x2 + y2))));
      [field; repeat split; assumption | rewrite Hs; field; repeat split; assumption].
Qed.

Lemma complete (P Q : point) :
  onCurve P -> onCurve Q ->
  let '(x1, y1) := P in
  let '(x2, y2) := Q in
  1 + d * x1 * x2 * y1 * y2 <> 0 /\ 1 - d * x1 * x2 * y1 * y2 <> 0.
Proof.
  destruct P as [x1 y1], Q as [x2 y2]. cbv [onCurve]. intros H1 H2. split; intros H.
  - apply (complete_aux x1 y1 x2 y2 (d * x1 * x2 * y1 * y2) H1 H2 eq_refl).
    transitivity ((1 + d * x1 * x2 * y1 * y2) * (d * x1 * x2 * y1 * y2 - 1) + 1);
      [ring | rewrite H; ring].
  - apply (complete_aux x1 y1 x2 y2 (d * x1 * x2 * y1 * y2) H1 H2 eq_refl).
    transitivity (1 - (1 - d * x1 * x2 * y1 * y2) * (1 + d * x1 * x2 * y1 * y2));
      [ring | rewrite H; ring].
Qed.


Ltac nonzero :=
  repeat split;
  match goal with
  | |- _ <> 0 => first [ assumption
                       | match goal with
                         | H : ?q <> 0 |- ?p <> 0 =>
                             intros Hnz; apply H; rewrite <- Hnz; ring
                         end ]
  end.

Lemma div_eq (a b c e : F) : b <> 0 -> e <> 0 -> a * e = c * b -> a / b = c / e.
Proof.
  intros Hb He H. transitivity (a * e / (b * e)); [field; split; assumption|].
  rewrite H. field; split; assumption.
Qed.

Lemma onCurve_aadd (P Q : point) : onCurve P -> onCurve Q -> onCurve (aadd P Q).
Proof.
  intros HP HQ. pose proof (complete P Q HP HQ) as Hc.
  destruct P as [x1 y1], Q as [x2 y2]. destruct Hc as [Hp Hm].
  cbv [onCurve aadd] in *.
  field_simplify_eq; [|split; assumption].
  fsatz.
Qed.

Lemma aadd_comm (P Q : point) : aadd P Q = aadd Q P.
Proof.
  destruct P as [x1 y1], Q as [x2 y2]. cbv [aadd].
  f_equal; f_equal; ring.
Qed.

Lemma aadd_O_l (P : point) : aadd O P = P.
Proof.
  destruct P as [x y]. cbv [aadd O]. f_equal; field.
  - intros H. apply (F_1_neq_0 Fth). rewrite <- H. ring.
  - intros H. apply (F_1_neq_0 Fth). rewrite <- H. ring.
Qed.


(** The two coordinates of (P + Q) + R and of P + (Q + R) as fractions of
    polynomials in the coordinates. *)
Lemma assoc_x (x1 y1 x2 y2 x3 y3 : F) :
  x1 * x1 + y1 * y1 = 1 + d * x1 * x1 * y1 * y1 ->
  x2 * x2 + y2 * y2 = 1 + d * x2 * x2 * y2 * y2 ->
  x3 * x3 + y3 * y3 = 1 + d * x3 * x3 * y3 * y3 ->
  ((x1 * y2 + y1 * x2) * y3 * (1 - d * x1 * x2 * y1 * y2) +
   (y1 * y2 - x1 * x2) * x3 * (1 + d * x1 * x2 * y1 * y2)) *
  ((1 + d * x2 * x3 * y2 * y3) * (1 - d * x2 * x3 * y2 * y3) +
   d * x1 * (x2 * y3 + y2 * x3) * y1 * (y2 * y3 - x2 * x3)) =
  (x1 * (y2 * y3 - x2 * x3) * (1 + d * x2 * x3 * y2 * y3) +
   y1 * (x2 * y3 + y2 * x3) * (1 - d * x2 * x3 * y2 * y3)) *
  ((1 + d * x1 * x2 * y1 * y2) * (1 - d * x1 * x2 * y1 * y2) +
   d * (x1 * y2 + y1 * x2) * x3 * (y1 * y2 - x1 * x2) * y3).
Proof. intros H1 H2 H3. fsatz. Qed.

Lemma assoc_y (x1 y1 x2 y2 x3 y3 : F) :
  x1 * x1 + y1 * y1 = 1 + d * x1 * x1 * y1 * y1 ->
  x2 * x2 + y2 * y2 = 1 + d * x2 * x2 * y2 * y2 ->
  x3 * x3 + y3 * y3 = 1 + d * x3 * x3 * y3 * y3 ->
  ((y1 * y2 - x1 * x2) * y3 * (1 + d * x1 * x2 * y1 * y2) -
   (x1 * y2 + y1 * x2) * x3 * (1 - d * x1 * x2 * y1 * y2)) *
  ((1 + d * x2 * x3 * y2 * y3) * (1 - d * x2 * x3 * y2 * y3) -
   d * x1 * (x2 * y3 + y2 * x3) * y1 * (y2 * y3 - x2 * x3)) =
  (y1 * (y2 * y3 - x2 * x3) * (1 + d * x2 * x3 * y2 * y3) -
   x1 * (x2 * y3 + y2 * x3) * (1 - d * x2 * x3 * y2 * y3)) *
  ((1 + d * x1 * x2 * y1 * y2) * (1 - d * x1 * x2 * y1 * y2) -
   d * (x1 * y2 + y1 * x2) * x3 * (y1 * y2 - x1 * x2) * y3).
Proof. intros H1 H2 H3. fsatz. Qed.

Lemma scaled_neq_0 (a b c : F) : a <> 0 -> b <> 0 -> c = a * b -> c <> 0.
Proof. intros Ha Hb ->. apply mul_neq_0; assumption. Qed.

Lemma aadd_assoc (P Q R : point) :
  onCurve P -> onCurve Q -> onCurve R ->
  aadd (aadd P Q) R = aadd P (aadd Q R).
Proof.
  intros HP HQ HR.
  pose proof (complete P Q HP HQ) as Hpq.
  pose proof (complete Q R HQ HR) as Hqr.
  pose proof (complete (aadd P Q) R (onCurve_aadd P Q HP HQ) HR) as Hl.
  pose proof (complete P (aadd Q R) HP (onCurve_aadd Q R HQ HR)) as Hr.
  destruct P as [x1 y1], Q as [x2 y2], R as [x3 y3].
  cbv [aadd] in Hl, Hr. cbv [onCurve] in HP, HQ, HR.
  destruct Hpq as [Ap Am], Hqr as [Bp Bm], Hl as [Lp Lm], Hr as [Rp Rm].
  pose proof (assoc_x x1 y1 x2 y2 x3 y3 HP HQ HR) as Hx.
  pose proof (assoc_y x1 y1 x2 y2 x3 y3 HP HQ HR) as Hy.
  assert (DLp : (1 + d * x1 * x2 * y1 * y2) * (1 - d * x1 * x2 * y1 * y2) +
                d * (x1 * y2 + y1 * x2) * x3 * (y1 * y2 - x1 * x2) * y3 <> 0).
  { eapply scaled_neq_0; [exact (mul_neq_0 _ _ Ap Am) | exact Lp |].
    field. split; assumption. }
  assert (DLm : (1 + d * x1 * x2 * y1 * y2) * (1 - d * x1 * x2 * y1 * y2) -
                d * (x1 * y2 + y1 * x2) * x3 * (y1 * y2 - x1 * x2) * y3 <> 0).
  { eapply scaled_neq_0; [exact (mul_neq_0 _ _ Ap Am) | exact Lm |].
    field. split; assumption. }
  assert (DRp : (1 + d * x2 * x3 * y2 * y3) * (1 - d * x2 * x3 * y2 * y3) +
                d * x1 * (x2 * y3 + y2 * x3) * y1 * (y2 * y3 - x2 * x3) <> 0).
  { eapply scaled_neq_0; [exact (mul_neq_0 _ _ Bp Bm) | exact Rp |].
    field. split; assumption. }
  assert (DRm : (1 + d * x2 * x3 * y2 * y3) * (1 - d * x2 * x3 * y2 * y3) -
                d * x1 * (x2 * y3 + y2 * x3) * y1 * (y2 * y3 - x2 * x3) <> 0).
  { eapply scaled_neq_0; [exact (mul_neq_0 _ _ Bp Bm) | exact Rm |].
    field. split; assumption. }
  cbv [aadd]. f_equal.
  - etransitivity; [|etransitivity; [exact (div_eq _ _ _ _ DLp DRp Hx)|]].
    + field. nonzero.
    + field. nonzero.
  - etransitivity; [|etransitivity; [exact (div_eq _ _ _ _ DLm DRm Hy)|]].
    + field. nonzero.
    + field. nonzero.
Qed.


(** ** Scalar multiples *)

Fixpoint smul (n : nat) (P : point) : point :=
  match n with
  | 0%nat => O
  | S n' => aadd P (smul n' P)
  end.

Lemma onCurve_smul n P : onCurve P -> onCurve (smul n P).
Proof.
  intros HP. induction n as [|n IH]; cbn [smul].
  - exact onCurve_O.
  - apply onCurve_aadd; assumption.
Qed.

Lemma smul_add a b P :
  onCurve P -> smul (a + b) P = aadd (smul a P) (smul b P).
Proof.
  intros HP. induction a as [|a IH]; cbn [smul Nat.add].
  - symmetry. apply aadd_O_l.
  - rewrite IH. symmetry. apply aadd_assoc; auto using onCurve_smul.
Qed.

Lemma smul_O n : smul n O = O.
Proof.
  induction n as [|n IH]; cbn [smul]; [reflexivity|].
  rewrite IH. apply aadd_O_l.
Qed.

Lemma smul_mul a b P :
  onCurve P -> smul (a * b) P = smul a (smul b P).
Proof.
  intros HP. induction a as [|a IH]; cbn [smul Nat.mul]; [reflexivity|].
  rewrite smul_add, IH by exact HP. reflexivity.
Qed.

(** A point of order dividing l: scalars act modulo l. *)
Lemma smul_mod l n P :
  onCurve P -> smul l P = O -> (l <> 0)%nat -> smul (n mod l) P = smul n P.
Proof.
  intros HP Hl Hl0.
  rewrite (Nat.div_mod_eq n l) at 2.
  rewrite smul_add, (Nat.mul_comm l), smul_mul, Hl, smul_O, aadd_O_l by exact HP.
  reflexivity.
Qed.

Lemma smul_double n P :
  onCurve P -> smul (2 * n) P = aadd (smul n P) (smul n P).
Proof.
  intros HP. replace (2 * n)%nat with (n + n)%nat by lia.
  apply smul_add, HP.
Qed.

(** ** Projective coordinates *)

Definition ppoint : Type := F * F * F.

Definition affine (P : ppoint) : point :=
  let '(X, Y, Z) := P in (X / Z, Y / Z).

Definition pz (P : ppoint) : F := let '(_, _, Z) := P in Z.

Definition valid (P : ppoint) : Prop := pz P <> 0 /\ onCurve (affine P).

(** The addition and doubling formulas of the add-2007-bl and dbl-2007-bl
    kind, as Ed448Point::operator+ and Ed448Point::double_point have them. *)
Definition padd (P Q : ppoint) : ppoint :=
  let '(X1, Y1, Z1) := P in
  let '(X2, Y2, Z2) := Q in
  let A := Z1 * Z2 in
  let B := A * A in
  let C := X1 * X2 in
  let D := Y1 * Y2 in
  let E := d * C * D in
  let F' := B - E in
  let G := B + E in
  let H := (X1 + Y1) * (X2 + Y2) in
  (A * F' * (H - C - D), A * G * (D - C), F' * G).

Definition pdouble (P : ppoint) : ppoint :=
  let '(X1, Y1, Z1) := P in
  let B := (X1 + Y1) * (X1 + Y1) in
  let C := X1 * X1 in
  let D := Y1 * Y1 in
  let E := C + D in
  let H := Z1 * Z1 in
  let J := E - (H + H) in
  ((B - E) * J, E * (C - D), E * J).

Lemma padd_correct (P Q : ppoint) :
  valid P -> valid Q ->
  valid (padd P Q) /\ affine (padd P Q) = aadd (affine P) (affine Q).
Proof.
  intros [HPz HP] [HQz HQ].
  pose proof (complete _ _ HP HQ) as Hc.
  pose proof (onCurve_aadd _ _ HP HQ) as Hsum.
  destruct P as [[X1 Y1] Z1], Q as [[X2 Y2] Z2].
  cbv [pz affine] in HPz, HQz, Hc, Hsum |- *. destruct Hc as [Hp Hm].
  assert (HA : Z1 * Z2 <> 0) by (apply mul_neq_0; assumption).
  assert (HG : Z1 * Z2 * (Z1 * Z2) + d * (X1 * X2) * (Y1 * Y2) <> 0).
  { eapply scaled_neq_0; [exact (mul_neq_0 _ _ HA HA) | exact Hp |].
    field. split; assumption. }
  assert (HF : Z1 * Z2 * (Z1 * Z2) - d * (X1 * X2) * (Y1 * Y2) <> 0).
  { eapply scaled_neq_0; [exact (mul_neq_0 _ _ HA HA) | exact Hm |].
    field. split; assumption. }
  assert (Heq : affine (padd (X1, Y1, Z1) (X2, Y2, Z2)) =
                aadd (X1 / Z1, Y1 / Z1) (X2 / Z2, Y2 / Z2)).
  { cbv [affine padd aadd]. f_equal; field; nonzero. }
  split; [split|exact Heq].
  - cbv [pz padd]. apply mul_neq_0; assumption.
  - rewrite Heq. exact Hsum.
Qed.

Lemma projective_curve (X Y Z : F) :
  Z <> 0 -> onCurve (X / Z, Y / Z) ->
  (X * X + Y * Y) * (Z * Z) = Z * Z * (Z * Z) + d * X * X * Y * Y.
Proof.
  intros HZ H. cbv [onCurve] in H.
  transitivity ((X / Z * (X / Z) + Y / Z * (Y / Z)) * (Z * Z * (Z * Z)));
    [field; exact HZ|].
  rewrite H. field. exact HZ.
Qed.

Lemma pdouble_correct (P : ppoint) :
  valid P ->
  valid (pdouble P) /\ affine (pdouble P) = aadd (affine P) (affine P).
Proof.
  intros [HPz HP].
  pose proof (complete _ _ HP HP) as Hc.
  pose proof (onCurve_aadd _ _ HP HP) as Hsum.
  destruct P as [[X1 Y1] Z1].
  cbv [pz affine] in HPz, HP, Hc, Hsum |- *. destruct Hc as [Hp Hm].
  pose proof (projective_curve X1 Y1 Z1 HPz HP) as Hcurve.
  assert (HZ2 : Z1 * Z1 <> 0) by (apply mul_neq_0; assumption).
  assert (HE : X1 * X1 + Y1 * Y1 <> 0).
  { intros H0.
    apply (mul_neq_0 _ _ (mul_neq_0 _ _ HZ2 HZ2) Hp).
    transitivity (Z1 * Z1 * (Z1 * Z1) + d * X1 * X1 * Y1 * Y1);
      [field; exact HPz|].
    rewrite <- Hcurve, H0. ring. }
  assert (HJ : X1 * X1 + Y1 * Y1 - (Z1 * Z1 + Z1 * Z1) <> 0).
  { intros H0.
    apply (mul_neq_0 _ _ (mul_neq_0 _ _ HZ2 HZ2) Hm).
    transitivity (Z1 * Z1 * (Z1 * Z1) + Z1 * Z1 * (Z1 * Z1) -
                  (Z1 * Z1 * (Z1 * Z1) + d * X1 * X1 * Y1 * Y1));
      [field; exact HPz|].
    rewrite <- Hcurve.
    transitivity (- (Z1 * Z1) * (X1 * X1 + Y1 * Y1 - (Z1 * Z1 + Z1 * Z1)));
      [ring | rewrite H0; ring]. }
  assert (HJ' : - (X1 * X1 + Y1 * Y1 - (Z1 * Z1 + Z1 * Z1)) <> 0).
  { intros H0. apply HJ.
    transitivity (- - (X1 * X1 + Y1 * Y1 - (Z1 * Z1 + Z1 * Z1)));
      [ring | rewrite H0; ring]. }
  assert (Heq : affine (pdouble (X1, Y1, Z1)) =
                aadd (X1 / Z1, Y1 / Z1) (X1 / Z1, Y1 / Z1)).
  { cbv [affine pdouble aadd]. f_equal.
    - transitivity ((X1 * Y1 + Y1 * X1) / (X1 * X1 + Y1 * Y1));
        [field; split; assumption|].
      transitivity ((X1 * Y1 + Y1 * X1) * (Z1 * Z1) /
                    (Z1 * Z1 * (Z1 * Z1) + d * X1 * X1 * Y1 * Y1)).
      + rewrite <- Hcurve. field. repeat split; assumption.
      + assert (Z1 * Z1 * (Z1 * Z1) + d * X1 * X1 * Y1 * Y1 <> 0)
          by (rewrite <- Hcurve; apply mul_neq_0; assumption).
        field. nonzero.
    - transitivity ((Y1 * Y1 - X1 * X1) * (Z1 * Z1) /
                    (- (X1 * X1 + Y1 * Y1 - (Z1 * Z1 + Z1 * Z1)) * (Z1 * Z1))).
      + field. nonzero.
      + assert (H1 : - (X1 * X1 + Y1 * Y1 - (Z1 * Z1 + Z1 * Z1)) * (Z1 * Z1) =
                     Z1 * Z1 * (Z1 * Z1) - d * X1 * X1 * Y1 * Y1).
        { transitivity (Z1 * Z1 * (Z1 * Z1) + Z1 * Z1 * (Z1 * Z1) -
                        (X1 * X1 + Y1 * Y1) * (Z1 * Z1)); [ring|].
          rewrite Hcurve. ring. }
        rewrite H1.
        assert (Z1 * Z1 * (Z1 * Z1) - d * X1 * X1 * Y1 * Y1 <> 0).
        { rewrite <- H1. apply mul_neq_0; assumption. }
        field. nonzero. }
  split; [split|exact Heq].
  - cbv [pz pdouble]. apply mul_neq_0; assumption.
  - rewrite Heq. exact Hsum.
Qed.

(** One step of double-and-add. *)
Definition pstep (P res : ppoint) (b : bool) : ppoint :=
  let res := pdouble res in
  if b then padd res P else res.

Lemma pstep_correct (P res : ppoint) (b : bool) (n : nat) :
  valid P -> valid res -> affine res = smul n (affine P) ->
  valid (pstep P res b) /\
  affine (pstep P res b) = smul (2 * n + Nat.b2n b) (affine P).
Proof.
  intros HP Hres Hn.
  destruct (pdouble_correct res Hres) as [Hv Hd].
  assert (H2 : affine (pdouble res) = smul (2 * n) (affine P)).
  { rewrite Hd, Hn. symmetry. apply smul_double, HP. }
  unfold pstep. destruct b; cbn [Nat.b2n].
  - destruct (padd_correct (pdouble res) P Hv HP) as [Hv' Ha].
    split; [exact Hv'|]. rewrite Ha, H2.
    replace (2 * n + 1)%nat with (S (2 * n)) by lia. cbn [smul].
    apply aadd_comm.
  - split; [exact Hv|]. rewrite H2. f_equal. lia.
Qed.

Lemma valid_O : valid (0, 1, 1).
Proof.
  split; cbv [pz affine onCurve].
  - exact (F_1_neq_0 Fth).
  - field. exact (F_1_neq_0 Fth).
Qed.

Lemma affine_O : affine (0, 1, 1) = O.
Proof. cbv [affine O]. f_equal; field; exact (F_1_neq_0 Fth). Qed.

(** d y^2 - 1 never vanishes. *)
Lemma denominator_neq_0 (y : F) : d * (y * y) - 1 <> 0.
Proof.
  intros H. assert (H1 : d * (y * y) = 1).
  { transitivity (d * (y * y) - 1 + 1); [ring | rewrite H; ring]. }
  assert (Hy : y <> 0).
  { intros ->. apply (F_1_neq_0 Fth). rewrite <- H1. ring. }
  apply (d_nonsquare (1 / y)).
  transitivity (d * (y * y) / (y * y)); [rewrite H1; field; exact Hy | field; exact Hy].
Qed.

(** Two square roots of the same value differ by the sign. *)
Lemma square_roots (a b : F) : a * a = b * b -> a = b \/ a = - b.
Proof.
  intros H. destruct (F_integral (a - b) (a + b)) as [H1 | H1].
  - transitivity (a * a - b * b); [ring | rewrite H; ring].
  - left. transitivity (a - b + b); [ring | rewrite H1; ring].
  - right. transitivity (a + b - b); [ring | rewrite H1; ring].
Qed.

End Curve.
End Edwards.

(** * Ed448: the field GF(p) and the group of the curve *)

Module Ed448Group.
Import Ed448.

(** GF(p) as the type of residues; [phi] takes an integer to its class. *)
Definition F : Type := Zmod Gf.p.
Definition phi (a : Z) : F := Zmod.of_Z Gf.p a.

Definition Fzero : F := Zmod.zero.
Definition Fone : F := Zmod.one.
Definition Fadd (a b : F) : F := Zmod.add a b.
Definition Fmul (a b : F) : F := Zmod.mul a b.
Definition Fsub (a b : F) : F := Zmod.sub a b.
Definition Fopp (a : F) : F := Zmod.opp a.
Definition Fdiv (a b : F) : F := Zmod.mdiv a b.
Definition Finv (a : F) : F := Zmod.inv a.

Lemma Fth : field_theory Fzero Fone Fadd Fmul Fsub Fopp Fdiv Finv (@eq F).
Proof. exact (Zmod.field_theory Gf.p Ed448Prime.p_prime). Qed.

Lemma Feq_dec (a b : F) : {a = b} + {a <> b}.
Proof.
  destruct (Zmod.eqb a b) eqn:E.
  - left. apply Zmod.eqb_eq. exact E.
  - right. intros H. apply Zmod.eqb_eq in H. congruence.
Qed.

Add Field GFp_field : Fth.

Lemma phi_0 : phi 0 = Fzero.
Proof. apply Zmod.of_Z_0. Qed.

Lemma phi_1 : phi 1 = Fone.
Proof. apply Zmod.of_Z_1. Qed.

Lemma phi_mod a : phi (a mod Gf.p) = phi a.
Proof. apply Zmod.of_Z_mod. Qed.

Lemma phi_add a b : phi (Gf.add a b) = Fadd (phi a) (phi b).
Proof. unfold Gf.add. rewrite phi_mod. apply Zmod.of_Z_add. Qed.

Lemma phi_sub a b : phi (Gf.sub a b) = Fsub (phi a) (phi b).
Proof. unfold Gf.sub. rewrite phi_mod. apply Zmod.of_Z_sub. Qed.

Lemma phi_neg a : phi (Gf.neg a) = Fopp (phi a).
Proof. unfold Gf.neg. rewrite phi_mod. apply Zmod.of_Z_opp. Qed.

Lemma phi_mul a b : phi (Gf.mul a b) = Fmul (phi a) (phi b).
Proof. unfold Gf.mul. rewrite phi_mod. apply Zmod.of_Z_mul. Qed.

Lemma phi_square a : phi (Gf.square a) = Fmul (phi a) (phi a).
Proof. apply phi_mul. Qed.

Lemma phi_of_u64 a : phi (Gf.of_u64 a) = phi a.
Proof. apply phi_mod. Qed.

Lemma phi_inj a b : 0 <= a < Gf.p -> 0 <= b < Gf.p -> phi a = phi b -> a = b.
Proof.
  intros Ha Hb H. apply Zmod.of_Z_inj in H.
  rewrite !Z.mod_small in H by assumption. exact H.
Qed.

Lemma phi_eq_0 a : 0 <= a < Gf.p -> phi a = Fzero -> a = 0.
Proof.
  intros Ha H. apply (phi_inj a 0 Ha); [vm_compute; split; [discriminate | reflexivity]|].
  rewrite phi_0. exact H.
Qed.

(** Inversion by the power p - 2 is the inverse of the field. *)
Lemma phi_inverse a : phi a <> Fzero -> phi (Gf.inverse a) = Finv (phi a).
Proof.
  intros Ha. unfold Gf.inverse.
  rewrite Ed448Root.pow_spec by (vm_compute; discriminate).
  rewrite phi_mod. unfold phi. rewrite Zmod.of_Z_pow by (vm_compute; discriminate).
  exact (Zmod.fermat_inv (Zmod.of_Z Gf.p a) Ha Ed448Prime.p_prime).
Qed.

Lemma phi_div a b : phi b <> Fzero -> phi (Gf.div a b) = Fdiv (phi a) (phi b).
Proof.
  intros Hb. unfold Gf.div. rewrite phi_mul, phi_inverse by exact Hb.
  apply Zmod.mul_inv_r.
Qed.

Lemma two_neq_0 : Fadd Fone Fone <> Fzero.
Proof.
  intros H. apply (f_equal Zmod.to_Z) in H. vm_compute in H. discriminate H.
Qed.

(** The curve constant d = -39081. *)
Definition d : F := phi (Gf.neg (Gf.of_u64 MINUS_D)).

(** A square root of 39081 modulo p. *)
Definition sqrt_minus_d : Z :=
  627894490647874670780146803011075515225223784391788159207390309582568626050729514829594252134780030556161172229750791477826575600769225.

Lemma sqrt_minus_d_spec : Fmul (phi sqrt_minus_d) (phi sqrt_minus_d) = Fopp d.
Proof.
  unfold d. rewrite <- phi_mul, <- phi_neg. apply f_equal.
  vm_compute. reflexivity.
Qed.


(** -1 is not a square: (p - 1) / 2 is odd. *)
Lemma minus_one_nonsquare (t : F) : Fmul t t <> Fopp Fone.
Proof.
  intros H.
  assert (Ht : t <> Fzero).
  { intros ->. apply (F_1_neq_0 Fth).
    transitivity (Fopp (Fmul Fzero Fzero)); [rewrite H; ring | ring]. }
  pose proof (Zmod.fermat_nz t Ht Ed448Prime.p_prime) as Hf.
  set (n := (Gf.p - 1) / 2) in *.
  assert (Hn : Z.pred Gf.p = 2 * n) by (vm_compute; reflexivity).
  assert (Hodd : Z.Odd n) by (apply Z.odd_spec; vm_compute; reflexivity).
  assert (Hn0 : 0 <= n) by (vm_compute; discriminate).
  clearbody n. rewrite Hn, Zmod.pow_mul_r_nonneg, Zmod.pow_2_r in Hf by lia.
  change (Zmod.mul t t) with (Fmul t t) in Hf. rewrite H in Hf.
  assert (Hm : Fopp Fone = Zmod.of_Z Gf.p (-1)) by (symmetry; apply Zmod.of_Z_m1).
  rewrite Hm, <- Zmod.of_Z_pow in Hf by exact Hn0.
  replace (-1) with (- (1)) in Hf by reflexivity.
  rewrite Z.pow_opp_odd, Z.pow_1_l in Hf by assumption.
  apply two_neq_0. change (- (1)) with (-1) in Hf. rewrite <- Hm in Hf.
  transitivity (Fadd Fone (Fopp Fone)); [rewrite Hf; reflexivity | ring].
Qed.

Lemma d_nonsquare (z : F) : Fmul z z <> d.
Proof.
  intros H. pose proof sqrt_minus_d_spec as Hw.
  set (w := phi sqrt_minus_d) in *. clearbody w.
  assert (Hd : d <> Fzero).
  { intros H0. apply (f_equal Zmod.to_Z) in H0. vm_compute in H0. discriminate H0. }
  assert (Hw0 : w <> Fzero).
  { intros ->. apply Hd. transitivity (Fopp (Fopp d)); [ring | rewrite <- Hw; ring]. }
  apply (minus_one_nonsquare (Fdiv z w)).
  transitivity (Fdiv (Fmul z z) (Fmul w w)); [field; exact Hw0|].
  rewrite H, Hw. field.
  intros H0. apply Hd. transitivity (Fopp (Fopp d)); [ring | rewrite H0; ring].
Qed.

(** ** The group of the curve, over GF(p) *)

Definition point : Type := Edwards.point F.
Definition ppoint : Type := Edwards.ppoint F.

Definition onCurve : point -> Prop := Edwards.onCurve F Fone Fadd Fmul d.
Definition aadd : point -> point -> point := Edwards.aadd F Fone Fadd Fmul Fsub Fdiv d.
Definition O : point := Edwards.O F Fzero Fone.
Definition smul : nat -> point -> point :=
  Edwards.smul F Fzero Fone Fadd Fmul Fsub Fdiv d.
Definition affine : ppoint -> point := Edwards.affine F Fdiv.
Definition valid : ppoint -> Prop := Edwards.valid F Fzero Fone Fadd Fmul Fdiv d.
Definition padd : ppoint -> ppoint -> ppoint := Edwards.padd F Fadd Fmul Fsub d.
Definition pdouble : ppoint -> ppoint := Edwards.pdouble F Fadd Fmul Fsub.


Lemma curve_closed P Q : onCurve P -> onCurve Q -> onCurve (aadd P Q).
Proof. exact (Edwards.onCurve_aadd F _ _ _ _ _ _ _ _ Fth Feq_dec two_neq_0 d d_nonsquare P Q). Qed.

Lemma multiple_onCurve n P : onCurve P -> onCurve (smul n P).
Proof. exact (Edwards.onCurve_smul F _ _ _ _ _ _ _ _ Fth Feq_dec two_neq_0 d d_nonsquare n P). Qed.

Lemma smul_plus a b P : onCurve P -> smul (a + b) P = aadd (smul a P) (smul b P).
Proof. exact (Edwards.smul_add F _ _ _ _ _ _ _ _ Fth Feq_dec two_neq_0 d d_nonsquare a b P). Qed.

Lemma smul_times a b P : onCurve P -> smul (a * b) P = smul a (smul b P).
Proof. exact (Edwards.smul_mul F _ _ _ _ _ _ _ _ Fth Feq_dec two_neq_0 d d_nonsquare a b P). Qed.

Lemma smul_order l n P :
  onCurve P -> smul l P = O -> (l <> 0)%nat -> smul (n mod l) P = smul n P.
Proof. exact (Edwards.smul_mod F _ _ _ _ _ _ _ _ Fth Feq_dec two_neq_0 d d_nonsquare l n P). Qed.

Lemma step_correct (P res : ppoint) (b : bool) (n : nat) :
  valid P -> valid res -> affine res = smul n (affine P) ->
  valid (Edwards.pstep F Fadd Fmul Fsub d P res b) /\
  affine (Edwards.pstep F Fadd Fmul Fsub d P res b) =
    smul (2 * n + Nat.b2n b) (affine P).
Proof.
  exact (Edwards.pstep_correct F _ _ _ _ _ _ _ _ Fth Feq_dec two_neq_0 d d_nonsquare
           P res b n).
Qed.

Lemma point_add_correct (P Q : ppoint) :
  valid P -> valid Q ->
  valid (padd P Q) /\ affine (padd P Q) = aadd (affine P) (affine Q).
Proof.
  exact (Edwards.padd_correct F _ _ _ _ _ _ _ _ Fth Feq_dec two_neq_0 d d_nonsquare P Q).
Qed.

(** ** The points of the model *)

Ltac gf_hom :=
  repeat first [ rewrite phi_add | rewrite phi_sub | rewrite phi_neg
               | rewrite phi_mul | rewrite phi_square ].

Definition pphi (P : Ed448Point) : ppoint := (phi (m_x P), phi (m_y P), phi (m_z P)).

Lemma pphi_point_add P Q : pphi (point_add P Q) = padd (pphi P) (pphi Q).
Proof.
  unfold point_add, pphi, padd, Edwards.padd. cbn [m_x m_y m_z].
  gf_hom. reflexivity.
Qed.

Lemma pphi_double_point P : pphi (double_point P) = pdouble (pphi P).
Proof.
  unfold double_point, pphi, pdouble, Edwards.pdouble. cbn [m_x m_y m_z].
  gf_hom. reflexivity.
Qed.

Lemma ct_conditional_assign_if P c Q :
  ct_conditional_assign P c Q = if c then Q else P.
Proof. destruct P, Q, c; reflexivity. Qed.

Definition scalar_mul_step (P : Ed448Point) (s : Z) (res : Ed448Point) (i : nat)
  : Ed448Point :=
  let res := double_point res in
  let add_sum := point_add res P in
  ct_conditional_assign res (Sc.get_bit s i) add_sum.

Lemma pphi_scalar_mul_step P s res i :
  pphi (scalar_mul_step P s res i) =
  Edwards.pstep F Fadd Fmul Fsub d (pphi P) (pphi res) (Sc.get_bit s i).
Proof.
  unfold scalar_mul_step, Edwards.pstep. cbv zeta.
  rewrite ct_conditional_assign_if.
  destruct (Sc.get_bit s i).
  - rewrite pphi_point_add, pphi_double_point. reflexivity.
  - apply pphi_double_point.
Qed.

Lemma bit_step s i :
  0 <= s ->
  Z.to_nat (s / 2 ^ Z.of_nat i) =
  (2 * Z.to_nat (s / 2 ^ Z.of_nat (S i)) + Nat.b2n (Sc.get_bit s i))%nat.
Proof.
  intros Hs. unfold Sc.get_bit.
  assert (Hb : Nat.b2n (Z.testbit s (Z.of_nat i)) =
               Z.to_nat ((s / 2 ^ Z.of_nat i) mod 2)).
  { rewrite <- Z.testbit_spec' by lia.
    destruct (Z.testbit s (Z.of_nat i)); reflexivity. }
  rewrite Hb, Nat2Z.inj_succ, Z.pow_succ_r, Z.mul_comm, <- Z.div_div by lia.
  set (q := s / 2 ^ Z.of_nat i).
  assert (Hq : 0 <= q) by (apply Z.div_pos; lia).
  clearbody q.
  pose proof (Z.div_mod q 2 ltac:(lia)) as Hdm.
  pose proof (Z.mod_pos_bound q 2 ltac:(lia)) as Hm.
  assert (0 <= q / 2) by (apply Z.div_pos; lia). lia.
Qed.

Lemma valid_neutral : valid (pphi (Point_xy 0 1)).
Proof.
  unfold pphi, Point_xy. cbn [m_x m_y m_z]. rewrite phi_0, phi_1.
  exact (Edwards.valid_O F _ _ _ _ _ _ _ _ Fth d).
Qed.

Lemma affine_neutral : affine (pphi (Point_xy 0 1)) = O.
Proof.
  unfold pphi, Point_xy. cbn [m_x m_y m_z]. rewrite phi_0, phi_1.
  exact (Edwards.affine_O F _ _ _ _ _ _ _ _ Fth).
Qed.

Lemma scalar_mul_bits P s : forall k i,
  valid (pphi P) -> 0 <= s < 2 ^ Z.of_nat (i + k) ->
  let R := fold_left (scalar_mul_step P s) (rev (seq i k)) (Point_xy 0 1) in
  valid (pphi R) /\
  affine (pphi R) = smul (Z.to_nat (s / 2 ^ Z.of_nat i)) (affine (pphi P)).
Proof.
  induction k as [|k IH]; intros i HP Hs; cbv zeta.
  - cbn [seq rev fold_left]. split; [exact valid_neutral|].
    rewrite Nat.add_0_r in Hs. rewrite Z.div_small by exact Hs.
    exact affine_neutral.
  - cbn [seq rev]. rewrite fold_left_app. cbn [fold_left].
    destruct (IH (S i) HP) as [Hv Ha].
    { replace (S i + k)%nat with (i + S k)%nat by lia. exact Hs. }
    rewrite pphi_scalar_mul_step, (bit_step s i) by lia.
    apply step_correct; assumption.
Qed.

Lemma scalar_mul_fold P s :
  scalar_mul P s = fold_left (scalar_mul_step P s) (rev (seq 0 446)) (Point_xy 0 1).
Proof. reflexivity. Qed.

(** Ed448Point::scalar_mul computes the multiple of the point by the scalar. *)
Lemma scalar_mul_correct P s :
  valid (pphi P) -> 0 <= s < 2 ^ 446 ->
  valid (pphi (scalar_mul P s)) /\
  affine (pphi (scalar_mul P s)) = smul (Z.to_nat s) (affine (pphi P)).
Proof.
  intros HP Hs.
  pose proof (scalar_mul_bits P s 446 0 HP Hs) as H. cbv zeta in H.
  rewrite Z.pow_0_r, Z.div_1_r in H. rewrite scalar_mul_fold. exact H.
Qed.

End Ed448Group.

(** * Ed448: the point arithmetic on machine-word integers *)

(** The arithmetic of the model on integers made of 63-bit words, for the
    evaluation of scalar multiples of the base point. *)
Module Ed448Fast.
Import Ed448.

Definition bigZ : Type := BigZ.BigZ.t.

Definition val (a : bigZ) : Z := BigZ.BigZ.to_Z a.

Definition p : bigZ := BigZ.BigZ.of_Z Gf.p.
Definition add (a b : bigZ) : bigZ := BigZ.BigZ.modulo (BigZ.BigZ.add a b) p.
Definition sub (a b : bigZ) : bigZ := BigZ.BigZ.modulo (BigZ.BigZ.sub a b) p.
Definition mul (a b : bigZ) : bigZ := BigZ.BigZ.modulo (BigZ.BigZ.mul a b) p.
Definition square (a : bigZ) : bigZ := mul a a.

Definition point : Type := bigZ * bigZ * bigZ.

Definition minus_d : bigZ := BigZ.BigZ.of_Z (Gf.neg (Gf.of_u64 MINUS_D)).

Definition point_add (P Q : point) : point :=
  let '(X1, Y1, Z1) := P in
  let '(X2, Y2, Z2) := Q in
  let A := mul Z1 Z2 in
  let B := square A in
  let C := mul X1 X2 in
  let D := mul Y1 Y2 in
  let E := mul (mul minus_d C) D in
  let F := sub B E in
  let G := add B E in
  let H := mul (add X1 Y1) (add X2 Y2) in
  (mul (mul A F) (sub (sub H C) D), mul (mul A G) (sub D C), mul F G).

Definition double_point (P : point) : point :=
  let '(X1, Y1, Z1) := P in
  let B := square (add X1 Y1) in
  let C := square X1 in
  let D := square Y1 in
  let E := add C D in
  let H := square Z1 in
  let J := sub E (add H H) in
  (mul (sub B E) J, mul E (sub C D), mul E J).

Definition step (P res : point) (b : bool) : point :=
  let res := double_point res in
  if b then point_add res P else res.

Definition scalar_mul (P : point) (bits : list bool) : point :=
  fold_left (step P) bits
    (BigZ.BigZ.of_Z 0, BigZ.BigZ.of_Z 1, BigZ.BigZ.of_Z 1).

Definition to_point (P : point) : Ed448Point :=
  let '(X, Y, Z) := P in Point (val X) (val Y) (val Z).

Definition of_point (P : Ed448Point) : point :=
  (BigZ.BigZ.of_Z (m_x P), BigZ.BigZ.of_Z (m_y P), BigZ.BigZ.of_Z (m_z P)).

Lemma val_of_Z a : val (BigZ.BigZ.of_Z a) = a.
Proof. apply BigZ.BigZ.spec_of_Z. Qed.

Lemma val_add a b : val (add a b) = Gf.add (val a) (val b).
Proof.
  unfold val, add, Gf.add, p.
  rewrite BigZ.BigZ.spec_modulo, BigZ.BigZ.spec_add, BigZ.BigZ.spec_of_Z.
  reflexivity.
Qed.

Lemma val_sub a b : val (sub a b) = Gf.sub (val a) (val b).
Proof.
  unfold val, sub, Gf.sub, p.
  rewrite BigZ.BigZ.spec_modulo, BigZ.BigZ.spec_sub, BigZ.BigZ.spec_of_Z.
  reflexivity.
Qed.

Lemma val_mul a b : val (mul a b) = Gf.mul (val a) (val b).
Proof.
  unfold val, mul, Gf.mul, p.
  rewrite BigZ.BigZ.spec_modulo, BigZ.BigZ.spec_mul, BigZ.BigZ.spec_of_Z.
  reflexivity.
Qed.

Lemma val_square a : val (square a) = Gf.square (val a).
Proof. apply val_mul. Qed.

Lemma to_point_of_point P : to_point (of_point P) = P.
Proof.
  destruct P as [X Y Z]. unfold of_point, to_point. cbn [m_x m_y m_z].
  rewrite !val_of_Z. reflexivity.
Qed.

Ltac vals :=
  repeat first [ rewrite val_mul | rewrite val_add | rewrite val_sub
               | rewrite val_square ].

Lemma to_point_point_add P Q :
  to_point (point_add P Q) = Ed448.point_add (to_point P) (to_point Q).
Proof.
  destruct P as [[X1 Y1] Z1], Q as [[X2 Y2] Z2].
  unfold point_add, Ed448.point_add, to_point. cbn [m_x m_y m_z].
  vals. unfold minus_d. rewrite !val_of_Z. reflexivity.
Qed.

Lemma to_point_double_point P :
  to_point (double_point P) = Ed448.double_point (to_point P).
Proof.
  destruct P as [[X1 Y1] Z1].
  unfold double_point, Ed448.double_point, to_point. cbn [m_x m_y m_z].
  vals. reflexivity.
Qed.

Lemma to_point_step P s res i :
  to_point (step P res (Sc.get_bit s i)) =
  Ed448Group.scalar_mul_step (to_point P) s (to_point res) i.
Proof.
  unfold step, Ed448Group.scalar_mul_step. cbv zeta.
  rewrite Ed448Group.ct_conditional_assign_if.
  destruct (Sc.get_bit s i).
  - rewrite to_point_point_add, to_point_double_point. reflexivity.
  - apply to_point_double_point.
Qed.

Lemma to_point_fold P s (l : list nat) : forall res,
  to_point (fold_left (step P) (map (Sc.get_bit s) l) res) =
  fold_left (Ed448Group.scalar_mul_step (to_point P) s) l (to_point res).
Proof.
  induction l as [|i l IH]; intros res; cbn [map fold_left]; [reflexivity|].
  rewrite IH, to_point_step. reflexivity.
Qed.

Lemma to_point_scalar_mul P s :
  to_point (scalar_mul P (map (Sc.get_bit s) (rev (seq 0 446)))) =
  Ed448.scalar_mul (to_point P) s.
Proof.
  unfold scalar_mul. rewrite to_point_fold, Ed448Group.scalar_mul_fold.
  change (to_point (BigZ.BigZ.of_Z 0, BigZ.BigZ.of_Z 1, BigZ.BigZ.of_Z 1))
    with (Point (val (BigZ.BigZ.of_Z 0)) (val (BigZ.BigZ.of_Z 1)) (val (BigZ.BigZ.of_Z 1))).
  rewrite !val_of_Z. reflexivity.
Qed.

(** The multiple of the base point by the group order L has x = 0 and
    y = z: it is the neutral element. *)
Lemma base_point_order :
  let R := Ed448.scalar_mul base_point Sc.L in
  m_x R = 0 /\ m_y R = m_z R.
Proof.
  cbv zeta.
  assert (H : Ed448.scalar_mul base_point Sc.L =
              to_point (scalar_mul (of_point base_point)
                          (map (Sc.get_bit Sc.L) (rev (seq 0 446))))).
  { rewrite to_point_scalar_mul, to_point_of_point. reflexivity. }
  rewrite H. vm_compute. split; reflexivity.
Qed.

End Ed448Fast.

(** * Ed448: a signature made by sign_message is accepted by verify_signature *)

Module Ed448Sign.
Import Ed448 Ed448Group.

Lemma mul_range a b : 0 <= Gf.mul a b < Gf.p.
Proof. apply Ed448Decode.mod_p_range. Qed.

Lemma x_range P : 0 <= x P < Gf.p.
Proof. apply mul_range. Qed.

Lemma y_range P : 0 <= y P < Gf.p.
Proof. apply mul_range. Qed.

Lemma valid_pz P : valid (pphi P) -> phi (m_z P) <> Fzero.
Proof. intros [H _]. exact H. Qed.

(** The affine coordinates of the model are those of the projective point. *)
Lemma affine_pphi P : valid (pphi P) -> affine (pphi P) = (phi (x P), phi (y P)).
Proof.
  intros HP. pose proof (valid_pz P HP) as Hz.
  unfold x, y. rewrite !phi_div by exact Hz. reflexivity.
Qed.

Lemma valid_Point_xy a b :
  onCurve (phi a, phi b) ->
  valid (pphi (Point_xy a b)) /\ affine (pphi (Point_xy a b)) = (phi a, phi b).
Proof.
  intros H.
  assert (Ha : affine (pphi (Point_xy a b)) = (phi a, phi b)).
  { cbv [affine Edwards.affine pphi Point_xy m_x m_y m_z]. rewrite phi_1.
    f_equal; field; exact (F_1_neq_0 Fth). }
  split; [split|exact Ha].
  - cbv [Edwards.pz pphi Point_xy m_x m_y m_z]. rewrite phi_1. exact (F_1_neq_0 Fth).
  - fold affine. rewrite Ha. exact H.
Qed.

Lemma valid_onCurve P : valid (pphi P) -> onCurve (affine (pphi P)).
Proof. intros [_ H]. exact H. Qed.

(** Point_xy (x P) (y P) is the same point as P. *)
Lemma normalise P :
  valid (pphi P) ->
  valid (pphi (Point_xy (x P) (y P))) /\
  affine (pphi (Point_xy (x P) (y P))) = affine (pphi P).
Proof.
  intros HP. pose proof (valid_onCurve P HP) as Hc.
  rewrite (affine_pphi P HP) in Hc |- *.
  apply valid_Point_xy. exact Hc.
Qed.

(** Ed448Point::operator== on two representations of one point. *)
Lemma point_eqb_affine P Q :
  valid (pphi P) -> valid (pphi Q) -> affine (pphi P) = affine (pphi Q) ->
  point_eqb P Q = true.
Proof.
  intros HP HQ H. rewrite (affine_pphi P HP), (affine_pphi Q HQ) in H.
  pose proof (f_equal fst H) as Hx. pose proof (f_equal snd H) as Hy.
  cbn [fst snd] in Hx, Hy.
  apply phi_inj in Hx; [|apply x_range|apply x_range].
  apply phi_inj in Hy; [|apply y_range|apply y_range].
  unfold point_eqb, Gf.eqb. rewrite Hx, Hy, !Z.eqb_refl. reflexivity.
Qed.


(** ** Decoding an encoded point *)

Lemma neg_neg a : 0 <= a < Gf.p -> Gf.neg (Gf.neg a) = a.
Proof.
  intros Ha. apply phi_inj; [apply Ed448Decode.mod_p_range | exact Ha |].
  rewrite !phi_neg. ring.
Qed.

Lemma neg_eq_0 a : 0 <= a < Gf.p -> Gf.neg a = 0 -> a = 0.
Proof.
  intros Ha H. rewrite <- (neg_neg a Ha), H. reflexivity.
Qed.

Lemma phi_decode_u b : phi (decode_u b) = Fsub (Fmul (phi b) (phi b)) Fone.
Proof.
  unfold decode_u. rewrite phi_sub, phi_square, phi_of_u64, phi_1. reflexivity.
Qed.

Lemma phi_decode_v b :
  phi (decode_v b) = Fsub (Fmul d (Fmul (phi b) (phi b))) Fone.
Proof.
  unfold decode_v. cbv zeta.
  rewrite phi_sub, phi_mul, phi_square, (phi_of_u64 1), phi_1. reflexivity.
Qed.

Lemma decode_v_neq_0 b : phi (decode_v b) <> Fzero.
Proof.
  rewrite phi_decode_v.
  exact (Edwards.denominator_neq_0 F _ _ _ _ _ _ _ _ Fth d d_nonsquare (phi b)).
Qed.

(** On the curve, v x^2 = u. *)
Lemma curve_root a b :
  0 <= a < Gf.p -> onCurve (phi a, phi b) ->
  Gf.mul (decode_v b) (Gf.square a) = decode_u b.
Proof.
  intros Ha H. cbv [onCurve Edwards.onCurve] in H.
  apply phi_inj; [apply mul_range | apply Ed448Decode.mod_p_range |].
  rewrite phi_mul, phi_square, phi_decode_u, phi_decode_v.
  transitivity (Fsub (Fsub (Fmul (Fmul (Fmul (Fmul d (phi a)) (phi a)) (phi b)) (phi b))
                           (Fmul (phi a) (phi a))) (Fsub Fone Fone)); [ring|].
  transitivity (Fsub (Fsub (Fadd Fone (Fmul (Fmul (Fmul (Fmul d (phi a)) (phi a)) (phi b)) (phi b)))
                           (Fmul (phi a) (phi a))) Fone); [ring|].
  rewrite <- H. ring.
Qed.

(** The candidate root of decode is the x-coordinate or its negative. *)
Lemma candidate_cases a b :
  0 <= a < Gf.p -> onCurve (phi a, phi b) ->
  Gf.eqb (Gf.mul (decode_v b) (Gf.square (decode_maybe_x b))) (decode_u b) = true /\
  0 <= decode_maybe_x b < Gf.p /\
  (decode_maybe_x b = a \/ decode_maybe_x b = Gf.neg a).
Proof.
  intros Ha H. pose proof (curve_root a b Ha H) as Hroot.
  assert (Hu : 0 <= decode_u b < Gf.p) by apply Ed448Decode.mod_p_range.
  assert (Hm : 0 <= decode_maybe_x b < Gf.p).
  { rewrite Ed448Root.decode_maybe_x_rfc. apply Ed448Decode.mod_p_range. }
  assert (Hc : Gf.eqb (Gf.mul (decode_v b) (Gf.square (decode_maybe_x b))) (decode_u b)
               = true).
  { rewrite Ed448Root.decode_maybe_x_rfc.
    apply (Ed448Decode.root_check_iff _ _ Hu). exists a. exact Hroot. }
  split; [exact Hc|]. split; [exact Hm|].
  unfold Gf.eqb in Hc. apply Z.eqb_eq in Hc. rewrite <- Hroot in Hc.
  apply (f_equal phi) in Hc. rewrite !phi_mul, !phi_square in Hc.
  pose proof (decode_v_neq_0 b) as Hv.
  remember (decode_maybe_x b) as mx eqn:E. clear E.
  remember (phi (decode_v b)) as v eqn:E. clear E.
  assert (Hsq : Fmul (phi mx) (phi mx) = Fmul (phi a) (phi a)).
  { transitivity (Fdiv (Fmul v (Fmul (phi mx) (phi mx))) v); [field; exact Hv|].
    rewrite Hc. field. exact Hv. }
  destruct (Edwards.square_roots F _ _ _ _ _ _ _ _ Fth Feq_dec _ _ Hsq) as [H1 | H1].
  - left. apply phi_inj; assumption.
  - right. apply phi_inj; [exact Hm | apply Ed448Decode.mod_p_range |].
    rewrite phi_neg. exact H1.
Qed.

Lemma to_bytes_length b : length (Gf.to_bytes b) = 56%nat.
Proof. apply Ed448Context.Z_to_le_length. Qed.

Lemma of_bytes_to_bytes b : 0 <= b < Gf.p -> le_to_Z 256 (Gf.to_bytes b) = b.
Proof.
  intros Hb. apply Ed448Decode.le_to_Z_Z_to_le; [lia|].
  pose proof Ed448Decode.p_lt_pow.
  change (256 ^ Z.of_nat 56) with (2 ^ 448). lia.
Qed.

Lemma decode_encode_xy a b :
  0 <= a < Gf.p -> 0 <= b < Gf.p -> onCurve (phi a, phi b) ->
  decode (Gf.to_bytes b ++ [Z.shiftl (Z.b2z (Z.odd a)) 7]) = Done (Point_xy a b).
Proof.
  intros Ha Hb H.
  destruct (candidate_cases a b Ha H) as (Hc & Hm & Hcases).
  unfold decode. change (ED448_LEN - 1)%nat with 56%nat. cbv zeta.
  assert (Hback : at_ (Gf.to_bytes b ++ [Z.shiftl (Z.b2z (Z.odd a)) 7]) 56 =
                  Z.shiftl (Z.b2z (Z.odd a)) 7).
  { unfold at_. rewrite app_nth2 by (rewrite to_bytes_length; lia).
    rewrite to_bytes_length. reflexivity. }
  assert (Htake : take 56 (Gf.to_bytes b ++ [Z.shiftl (Z.b2z (Z.odd a)) 7]) =
                  Gf.to_bytes b).
  { rewrite <- (to_bytes_length b) at 1. apply take_app_length. }
  rewrite Hback, Htake.
  assert (Hland : (Z.land (Z.shiftl (Z.b2z (Z.odd a)) 7) 127 =? 0) = true)
    by (destruct (Z.odd a); reflexivity).
  rewrite Hland. cbn [negb].
  unfold Gf.bytes_are_canonical_representation, Gf.of_bytes.
  rewrite (of_bytes_to_bytes b Hb), (Z.mod_small b) by exact Hb.
  replace (b <? Gf.p) with true by (symmetry; apply Z.ltb_lt; lia).
  cbn [negb]. rewrite Hc. cbn [negb].
  remember (decode_maybe_x b) as mx eqn:E. clear E Hc.
  assert (Hdist : negb (Z.shiftl (Z.b2z (Z.odd a)) 7 =? 0) = Z.odd a)
    by (destruct (Z.odd a); reflexivity).
  rewrite Hdist. unfold Gf.is_zero, Gf.is_odd.
  assert (Hzero : (mx =? 0) && Z.odd a = false).
  { destruct (Z.eqb_spec mx 0) as [H0 | H0]; [|reflexivity].
    assert (a = 0) as ->; [|reflexivity].
    destruct Hcases as [H1 | H1]; [lia|].
    apply (neg_eq_0 a Ha). lia. }
  rewrite Hzero.
  rewrite Ed448Decode.select_n_words.
  assert (Hsel : (if Bool.eqb (Z.odd mx) (Z.odd a) then mx else Gf.neg mx) = a).
  { destruct Hcases as [H1 | H1].
    - subst mx. rewrite Bool.eqb_reflx. reflexivity.
    - destruct (Z.eq_dec a 0) as [-> | Hne].
      + subst mx. reflexivity.
      + subst mx. rewrite Ed448Decode.neg_parity by lia.
        rewrite (neg_neg a Ha). destruct (Z.odd a); reflexivity. }
  rewrite Hsel, Ed448Decode.of_words_words by exact Ha. reflexivity.
Qed.

Lemma valid_canonical_onCurve P :
  valid (pphi P) -> onCurve (phi (x P), phi (y P)).
Proof.
  intros HP. rewrite <- (affine_pphi P HP). apply valid_onCurve, HP.
Qed.

(** decode (encode P) is the point P, normalised. *)
Lemma decode_encode P :
  valid (pphi P) -> decode (encode P) = Done (Point_xy (x P) (y P)).
Proof.
  intros HP. unfold encode, Gf.is_odd.
  apply decode_encode_xy; [apply x_range | apply y_range |].
  apply valid_canonical_onCurve, HP.
Qed.


(** ** The base point and its order *)

Lemma base_point_valid : valid (pphi base_point).
Proof.
  apply valid_Point_xy. cbv [onCurve Edwards.onCurve].
  rewrite <- phi_1. unfold d.
  change Fadd with (@Zmod.add Gf.p). change Fmul with (@Zmod.mul Gf.p).
  unfold phi. rewrite <- !Zmod.of_Z_mul, <- !Zmod.of_Z_add.
  apply Zmod.of_Z_inj. vm_compute. reflexivity.
Qed.

(** The base point B of the group. *)
Definition B : point := affine (pphi base_point).

Lemma onCurve_B : onCurve B.
Proof. apply valid_onCurve, base_point_valid. Qed.

Lemma L_range : 0 < Sc.L < 2 ^ 446.
Proof. split; reflexivity. Qed.

Lemma scalar_mul_base s :
  0 <= s < Sc.L ->
  valid (pphi (scalar_mul base_point s)) /\
  affine (pphi (scalar_mul base_point s)) = smul (Z.to_nat s) B.
Proof.
  intros Hs. apply scalar_mul_correct; [exact base_point_valid|].
  pose proof L_range. lia.
Qed.

(** L B = O *)
Lemma order_B : smul (Z.to_nat Sc.L) B = O.
Proof.
  pose proof (scalar_mul_correct base_point Sc.L base_point_valid
                ltac:(split; [discriminate | reflexivity])) as [Hv Ha].
  fold B in Ha. rewrite <- Ha.
  pose proof (valid_pz _ Hv) as Hz.
  destruct Ed448Fast.base_point_order as [Hx Hy].
  unfold affine, Edwards.affine, pphi, O, Edwards.O.
  rewrite Hx, Hy, phi_0.
  remember (phi (m_z (scalar_mul base_point Sc.L))) as z eqn:E. clear E.
  f_equal; field; exact Hz.
Qed.

Lemma smul_mod_Z l n P :
  0 < l -> 0 <= n -> onCurve P -> smul (Z.to_nat l) P = O ->
  smul (Z.to_nat (n mod l)) P = smul (Z.to_nat n) P.
Proof.
  intros Hl Hn HP H. rewrite Z2Nat.inj_mod by lia.
  apply smul_order; [exact HP | exact H | lia].
Qed.

Lemma smul_mod_L n : 0 <= n -> smul (Z.to_nat (n mod Sc.L)) B = smul (Z.to_nat n) B.
Proof.
  intros Hn.
  exact (smul_mod_Z Sc.L n B (proj1 L_range) Hn onCurve_B order_B).
Qed.


(** ** Scalars *)

Lemma mod_L_range a : 0 <= a mod Sc.L < Sc.L.
Proof. apply Z.mod_pos_bound. reflexivity. Qed.

Lemma sc_to_bytes_length s : length (Sc.to_bytes s) = 57%nat.
Proof. apply Ed448Context.Z_to_le_length. Qed.

Lemma sc_of_bytes_to_bytes s : 0 <= s < Sc.L -> le_to_Z 256 (Sc.to_bytes s) = s.
Proof.
  intros Hs. apply Ed448Decode.le_to_Z_Z_to_le; [lia|].
  assert (Sc.L < 256 ^ Z.of_nat 57) by reflexivity. lia.
Qed.

(** The equation that verify_signature checks: S B = R + k A for
    S = r + k s, R = r B and A = s B. *)
Lemma verification_equation r k s :
  0 <= r < Sc.L -> 0 <= k < Sc.L -> 0 <= s < Sc.L ->
  let R := scalar_mul base_point r in
  let A := scalar_mul base_point s in
  point_eqb (scalar_mul base_point (Sc.add r (Sc.mul k s)))
            (point_add (Point_xy (x R) (y R)) (scalar_mul (Point_xy (x A) (y A)) k))
  = true.
Proof.
  intros Hr Hk Hs R A.
  destruct (scalar_mul_base r Hr) as [HvR HaR]. fold R in HvR, HaR.
  destruct (scalar_mul_base s Hs) as [HvA HaA]. fold A in HvA, HaA.
  destruct (normalise R HvR) as [HvR' HaR'].
  destruct (normalise A HvA) as [HvA' HaA'].
  assert (Hk' : 0 <= k < 2 ^ 446) by (pose proof L_range; lia).
  destruct (scalar_mul_correct (Point_xy (x A) (y A)) k HvA' Hk') as [HvkA HakA].
  destruct (point_add_correct _ _ HvR' HvkA) as [Hvsum Hasum].
  rewrite <- pphi_point_add in Hvsum, Hasum.
  destruct (scalar_mul_base (Sc.add r (Sc.mul k s)) (mod_L_range _)) as [HvS HaS].
  apply point_eqb_affine; [exact HvS | exact Hvsum |].
  rewrite HaS, Hasum, HaR', HakA, HaA', HaR, HaA.
  unfold Sc.add, Sc.mul. rewrite Zplus_mod_idemp_r.
  assert (Hks : 0 <= k * s) by (apply Z.mul_nonneg_nonneg; lia).
  rewrite smul_mod_L by lia.
  rewrite Z2Nat.inj_add, Z2Nat.inj_mul by lia.
  rewrite smul_plus, smul_times by exact onCurve_B. reflexivity.
Qed.

Section Shake.

Variable XOF : list Z -> nat -> Z.

Lemma scalar_from_xof_range sk : 0 <= scalar_from_xof XOF sk < Sc.L.
Proof. apply mod_L_range. Qed.

Lemma public_key_decodes sk :
  decode (create_pk_from_sk XOF sk) =
  Done (Point_xy (x (scalar_mul base_point (scalar_from_xof XOF sk)))
                 (y (scalar_mul base_point (scalar_from_xof XOF sk)))).
Proof.
  unfold create_pk_from_sk. cbv zeta. apply decode_encode.
  apply scalar_mul_base, scalar_from_xof_range.
Qed.

(** verify_signature on a signature whose parts pass the checks. *)
Lemma verify_signature_checked pk f context sig msg big_r h A :
  length sig = 114%nat ->
  decode (take 57 sig) = Done big_r ->
  Sc.bytes_are_reduced (take 57 (drop 57 sig)) = true ->
  shake XOF f context (take 57 sig ++ pk ++ msg) = Done h ->
  decode pk = Done A ->
  verify_signature XOF pk f context sig msg =
  Done (point_eqb (scalar_mul base_point (Sc.of_bytes (take 57 (drop 57 sig))))
                  (point_add big_r (scalar_mul A (Sc.of_bytes h)))).
Proof.
  intros Hlen HR HS Hh HA. unfold verify_signature. cbv zeta.
  change ED448_LEN with 57%nat.
  rewrite Hlen, HR, HS. cbn [Nat.eqb Nat.mul Nat.add negb mbind outcome_bind].
  rewrite Hh. cbn [mbind outcome_bind]. rewrite HA. reflexivity.
Qed.

(** sign_message, given the two hashes. *)
Lemma sign_message_hashed sk pk f context msg h1 h2 :
  shake XOF f context (xof_output XOF sk 57 57 ++ msg) = Done h1 ->
  shake XOF f context
    (encode (scalar_mul base_point (Sc.of_bytes h1)) ++ pk ++ msg) = Done h2 ->
  sign_message XOF sk pk f context msg =
  Done (encode (scalar_mul base_point (Sc.of_bytes h1)) ++
        Sc.to_bytes (Sc.add (Sc.of_bytes h1)
                            (Sc.mul (Sc.of_bytes h2) (scalar_from_xof XOF sk)))).
Proof.
  intros H1 H2. unfold sign_message. cbv zeta.
  change ED448_LEN with 57%nat.
  rewrite H1. cbn [mbind outcome_bind]. rewrite H2. cbn [mbind outcome_bind].
  rewrite length_app, Ed448Context.encode_length, sc_to_bytes_length.
  reflexivity.
Qed.

Lemma Done_inj (A : Type) (a b : A) : Done a = Done b -> a = b.
Proof. intros H. injection H as H. exact H. Qed.

(** The two halves of a signature R || S. *)
Lemma signature_parts (big_r : list Z) (big_s : Z) :
  length big_r = 57%nat -> 0 <= big_s < Sc.L ->
  length (big_r ++ Sc.to_bytes big_s) = 114%nat /\
  take 57 (big_r ++ Sc.to_bytes big_s) = big_r /\
  take 57 (drop 57 (big_r ++ Sc.to_bytes big_s)) = Sc.to_bytes big_s /\
  Sc.bytes_are_reduced (Sc.to_bytes big_s) = true /\
  Sc.of_bytes (Sc.to_bytes big_s) = big_s.
Proof.
  intros HlR HS. split; [|split; [|split; [|split]]].
  - rewrite length_app, HlR, sc_to_bytes_length. reflexivity.
  - rewrite <- HlR. apply take_app_length.
  - rewrite <- HlR at 2. rewrite drop_app_length.
    apply take_ge. rewrite sc_to_bytes_length. lia.
  - unfold Sc.bytes_are_reduced. rewrite (sc_of_bytes_to_bytes big_s HS).
    apply Z.ltb_lt. lia.
  - unfold Sc.of_bytes. rewrite (sc_of_bytes_to_bytes big_s HS).
    apply Z.mod_small. exact HS.
Qed.

(** A signature made by sign_message with the public key of the secret key
    is accepted by verify_signature, for a context of fewer than 256 bytes. *)
Lemma sign_then_verify sk f context msg :
  (length context < 256)%nat ->
  exists sig,
    sign_message XOF sk (create_pk_from_sk XOF sk) f context msg = Done sig /\
    length sig = 114%nat /\
    verify_signature XOF (create_pk_from_sk XOF sk) f context sig msg = Done true.
Proof.
  intros Hc.
  pose proof (public_key_decodes sk) as Hpk.
  pose proof (scalar_from_xof_range sk) as Hs.
  remember (create_pk_from_sk XOF sk) as pk eqn:Epk.
  destruct (Ed448Context.shake_short XOF f context
              (xof_output XOF sk 57 57 ++ msg) Hc) as (h1 & Hh1 & _).
  destruct (Ed448Context.shake_short XOF f context
              (encode (scalar_mul base_point (Sc.of_bytes h1)) ++ pk ++ msg) Hc)
    as (h2 & Hh2 & _).
  rewrite (sign_message_hashed sk pk f context msg h1 h2 Hh1 Hh2).
  remember (scalar_from_xof XOF sk) as s eqn:Es.
  pose proof (mod_L_range (le_to_Z 256 h1)) as Hr.
  change (le_to_Z 256 h1 mod Sc.L) with (Sc.of_bytes h1) in Hr.
  remember (Sc.of_bytes h1) as r eqn:Er.
  pose proof (mod_L_range (le_to_Z 256 h2)) as Hk.
  change (le_to_Z 256 h2 mod Sc.L) with (Sc.of_bytes h2) in Hk.
  remember (Sc.of_bytes h2) as k eqn:Ek.
  clear Epk Es Er Hh1 h1.
  pose proof (scalar_mul_base r Hr) as [HvR _].
  pose proof (decode_encode _ HvR) as HdR.
  pose proof (Ed448Context.encode_length (scalar_mul base_point r)) as HlR.
  pose proof (verification_equation r k s Hr Hk Hs) as Heq. cbv zeta in Heq.
  pose proof (mod_L_range (r + Sc.mul k s)) as HS.
  change ((r + Sc.mul k s) mod Sc.L) with (Sc.add r (Sc.mul k s)) in HS.
  remember (Sc.add r (Sc.mul k s)) as big_s eqn:Ebs. clear Ebs.
  remember (encode (scalar_mul base_point r)) as big_r eqn:Ebr.
  destruct (signature_parts big_r big_s HlR HS) as (Hlen & Htake & Hdrop & Hred & Hof).
  exists (big_r ++ Sc.to_bytes big_s). split; [reflexivity|]. split; [exact Hlen|].
  rewrite (verify_signature_checked pk f context (big_r ++ Sc.to_bytes big_s) msg
             (Point_xy (x (scalar_mul base_point r)) (y (scalar_mul base_point r)))
             h2
             (Point_xy (x (scalar_mul base_point s)) (y (scalar_mul base_point s)))).
  - rewrite Hdrop, Hof, <- Ek, Heq. reflexivity.
  - exact Hlen.
  - rewrite Htake. exact HdR.
  - rewrite Hdrop. exact Hred.
  - rewrite Htake. exact Hh2.
  - exact Hpk.
Qed.

(** What sign_message returns passes the checks of verify_signature that
    come before the hash. *)
Lemma sign_message_wellformed sk pk f context msg sig :
  (length context < 256)%nat ->
  sign_message XOF sk pk f context msg = Done sig ->
  length sig = 114%nat /\
  (exists R, decode (take 57 sig) = Done R) /\
  Sc.bytes_are_reduced (take 57 (drop 57 sig)) = true.
Proof.
  intros Hc.
  destruct (Ed448Context.shake_short XOF f context
              (xof_output XOF sk 57 57 ++ msg) Hc) as (h1 & Hh1 & _).
  destruct (Ed448Context.shake_short XOF f context
              (encode (scalar_mul base_point (Sc.of_bytes h1)) ++ pk ++ msg) Hc)
    as (h2 & Hh2 & _).
  rewrite (sign_message_hashed sk pk f context msg h1 h2 Hh1 Hh2).
  intros Hsig. apply Done_inj in Hsig. subst sig.
  pose proof (mod_L_range (le_to_Z 256 h1)) as Hr.
  change (le_to_Z 256 h1 mod Sc.L) with (Sc.of_bytes h1) in Hr.
  remember (Sc.of_bytes h1) as r eqn:Er. clear Er Hh1 Hh2.
  pose proof (scalar_mul_base r Hr) as [HvR _].
  pose proof (decode_encode _ HvR) as HdR.
  pose proof (Ed448Context.encode_length (scalar_mul base_point r)) as HlR.
  pose proof (mod_L_range (r + Sc.mul (Sc.of_bytes h2) (scalar_from_xof XOF sk))) as HS.
  change ((r + Sc.mul (Sc.of_bytes h2) (scalar_from_xof XOF sk)) mod Sc.L)
    with (Sc.add r (Sc.mul (Sc.of_bytes h2) (scalar_from_xof XOF sk))) in HS.
  remember (Sc.add r (Sc.mul (Sc.of_bytes h2) (scalar_from_xof XOF sk))) as big_s eqn:Ebs.
  clear Ebs.
  remember (encode (scalar_mul base_point r)) as big_r eqn:Ebr.
  destruct (signature_parts big_r big_s HlR HS) as (Hlen & Htake & Hdrop & Hred & _).
  split; [exact Hlen|]. split.
  - eexists. rewrite Htake. exact HdR.
  - rewrite Hdrop. exact Hred.
Qed.

(** With a context of 256 bytes or more, verify_signature gets as far as the
    hash on a signature that passes the checks before it. *)
Lemma verify_signature_long_context pk f context sig msg R :
  (256 <= length context)%nat ->
  length sig = 114%nat ->
  decode (take 57 sig) = Done R ->
  Sc.bytes_are_reduced (take 57 (drop 57 sig)) = true ->
  verify_signature XOF pk f context sig msg = Raise Invalid_Argument.
Proof.
  intros Hc Hlen HR HS. unfold verify_signature. cbv zeta.
  change ED448_LEN with 57%nat.
  rewrite Hlen, HR, HS. cbn [Nat.eqb Nat.mul Nat.add negb mbind outcome_bind].
  rewrite Ed448Context.shake_long by exact Hc. reflexivity.
Qed.

End Shake.

(** C7.  dom4(x, y) is "SigEd448" || x || |y| || y, of length 10 + |y|, for
    |y| < 256 and fails for longer y.  So for a context y of up to 255 bytes
    (0 and 255 included) sign_message returns a signature and
    verify_signature returns true on it, under the public key of the secret
    key; with a context of 256 bytes or more sign_message raises
    Invalid_Argument, verify_signature returns no verdict on any input, and
    on a signature made by sign_message (under a shorter context) it raises
    Invalid_Argument. *)
Theorem dom4_and_context_length (XOF : list Z -> nat -> Z) (x : Z) (y : list Z) :
  ((length y < 256)%nat ->
   dom4 x y = Done (Ed448Context.SigEd448 ++ [x] ++ [Z.of_nat (length y)] ++ y) /\
   length (Ed448Context.SigEd448 ++ [x] ++ [Z.of_nat (length y)] ++ y)
     = (10 + length y)%nat /\
   (forall sk f msg,
       exists sig,
         sign_message XOF sk (create_pk_from_sk XOF sk) f y msg = Done sig /\
         length sig = 114%nat /\
         verify_signature XOF (create_pk_from_sk XOF sk) f y sig msg = Done true)) /\
  ((256 <= length y)%nat ->
   dom4 x y = Raise Invalid_Argument /\
   (forall sk pk f msg, sign_message XOF sk pk f y msg = Raise Invalid_Argument) /\
   (forall pk f sig msg,
       verify_signature XOF pk f y sig msg = Raise Decoding_Error \/
       verify_signature XOF pk f y sig msg = Raise Invalid_Argument) /\
   (forall sk pk f c msg sig,
       (length c < 256)%nat ->
       sign_message XOF sk pk f c msg = Done sig ->
       verify_signature XOF pk f y sig msg = Raise Invalid_Argument)).
Proof.
  split; intros H.
  - split; [apply Ed448Context.dom4_short, H|]. split.
    + rewrite !length_app. reflexivity.
    + intros sk f msg. apply sign_then_verify, H.
  - split; [apply Ed448Context.dom4_long, H|]. split; [|split].
    + intros. apply Ed448Context.sign_message_long, H.
    + intros. apply Ed448Context.verify_signature_long, H.
    + intros sk pk f c msg sig Hc Hsig.
      destruct (sign_message_wellformed XOF sk pk f c msg sig Hc Hsig)
        as (Hlen & [R HR] & HS).
      exact (verify_signature_long_context XOF pk f y sig msg R H Hlen HR HS).
Qed.

(** A stand-in for SHAKE-256 in the examples. *)
Definition sample_xof (input : list Z) (i : nat) : Z :=
  (le_to_Z 3 input + Z.of_nat i) mod 256.

Lemma dom4_and_context_length_witness :
  dom4 0 (replicate 255 7) =
    Done (Ed448Context.SigEd448 ++ [0] ++ [255] ++ replicate 255 7) /\
  (exists sig,
      sign_message sample_xof [] (create_pk_from_sk sample_xof []) false [] [] = Done sig /\
      length sig = 114%nat /\
      verify_signature sample_xof (create_pk_from_sk sample_xof []) false [] sig []
        = Done true) /\
  (exists sig,
      sign_message sample_xof [] (create_pk_from_sk sample_xof []) false
        (replicate 255 7) [] = Done sig /\
      length sig = 114%nat /\
      verify_signature sample_xof (create_pk_from_sk sample_xof []) false
        (replicate 255 7) sig [] = Done true) /\
  dom4 0 (replicate 256 7) = Raise Invalid_Argument /\
  sign_message sample_xof [] [] false (replicate 256 7) [] = Raise Invalid_Argument.
Proof.
  pose proof (dom4_and_context_length sample_xof 0 []) as [H0 _].
  pose proof (dom4_and_context_length sample_xof 0 (replicate 255 7)) as [H255 _].
  pose proof (dom4_and_context_length sample_xof 0 (replicate 256 7)) as [_ H256].
  destruct H0 as (_ & _ & H0); [cbn [length]; lia|].
  destruct H255 as (H1 & _ & H2); [rewrite length_replicate; lia|].
  destruct H256 as (H3 & H4 & _); [rewrite length_replicate; lia|].
  split; [exact H1|]. split; [apply H0|]. split; [apply H2|].
  split; [exact H3 | apply H4].
Defined.

(** C1.  For every 57-byte private seed s, every message m and every context
    c of fewer than 256 bytes, sign_message(s, create_pk_from_sk(s), 0, c, m)
    returns a signature, and verify_signature(create_pk_from_sk(s), 0, c,
    that signature, m) returns true. *)
Theorem sign_verify_round_trip (XOF : list Z -> nat -> Z) (s m c : list Z) :
  length s = 57%nat -> (length c < 256)%nat ->
  exists sig,
    sign_message XOF s (create_pk_from_sk XOF s) false c m = Done sig /\
    verify_signature XOF (create_pk_from_sk XOF s) false c sig m = Done true.
Proof.
  intros _ Hc.
  destruct (sign_then_verify XOF s false c m Hc) as (sig & Hsig & _ & Hver).
  exists sig. split; assumption.
Qed.

Lemma sign_verify_round_trip_witness :
  exists sig,
    sign_message sample_xof (replicate 57 1) (create_pk_from_sk sample_xof (replicate 57 1))
      false [67; 116; 120] [1; 2; 3] = Done sig /\
    verify_signature sample_xof (create_pk_from_sk sample_xof (replicate 57 1))
      false [67; 116; 120] sig [1; 2; 3] = Done true.
Proof.
  apply (sign_verify_round_trip sample_xof (replicate 57 1) [1; 2; 3] [67; 116; 120]).
  - reflexivity.
  - cbn [length]. lia.
Defined.

End Ed448Sign.
